(** * A shallow embedding of the form-validation core

    The development follows the three pieces of the library:

    - [FormConnector] (the field registry, [core/form-connector.ts]),
    - [Validator]     (the per-field rule engine, [core/validator.ts]),
    - [V]             (the orchestrator, [core/index.ts]),

    over a model of the part of the DOM they touch.  The sibling
    implementation [core/fields.ts] is embedded only where it is compared
    with [core/validator.ts].

    Conventions of the model.
    - A DOM node is addressed by a unique number ([nid]); a reference held
      by the library (a control, a label, an error container) is that
      number.  The DOM is a forest: the document tree plus the trees that
      were detached from it, so that a reference stays readable after its
      node has been removed from the document, as in the browser.
    - A string is held as its UTF-8 encoding, so a string of the model
      is a string without lone surrogates; its [length] is the number of
      its UTF-16 code units ([Js.string_length]).
    - JavaScript numbers are rationals plus [NaN]: a number stands for
      its exact value, and [parseFloat] is modelled on plain decimal
      literals only.
    - What the platform computes for a control ([valueAsNumber],
      [validity.valid], [validationMessage], the regular expression a
      [pattern] attribute compiles to) is part of the control's state.
    - A regular expression is its [test] function; regular expressions
      with the global or sticky flag (whose [test] is stateful) and
      predicates with side effects are outside the model.
    - CSS selectors are the ones the library writes itself plus, for the
      configurable [errorContainer] option, [#id], [.class] and [tag]
      ([Dom.selector_ok]).  Where the library writes a name between
      double quotes into a selector, the name is one that can be quoted
      ([Dom.quotable]); a class name given as an option is one token
      ([Dom.token]).  Outside these the platform throws or reads another
      selector, and the statements that depend on it say so. *)

From Stdlib Require Import Ascii String DecimalString ZArith QArith Lia.
From stdpp Require Import base option list strings gmap.

Open Scope string_scope.
Open Scope nat_scope.

(* ===================================================================== *)
(** * JavaScript values                                                   *)
(* ===================================================================== *)

Module Js.

(** A JavaScript number: [NaN] or a rational. *)
Inductive number := NaN | Num (q : Q).

Definition isNaN (n : number) : bool :=
  match n with NaN => true | Num _ => false end.

(** [a < b] and [a > b] on numbers; a comparison with [NaN] is false. *)
Definition num_lt (a b : number) : bool :=
  match a, b with
  | Num x, Num y => negb (Qle_bool y x)
  | _, _ => false
  end.

Definition num_gt (a b : number) : bool := num_lt b a.

Definition of_nat (n : nat) : number := Num (inject_Z (Z.of_nat n)).
Definition of_Z (z : Z) : number := Num (inject_Z z).

(** The runtime values a control can yield.  [FileList], arrays and
    plain objects with a numeric [length] carry their length only. *)
Inductive value :=
  | VString (s : string)
  | VNumber (n : number)
  | VBoolean (b : bool)
  | VNull
  | VUndefined
  | VFileList (length : nat)
  | VArray (length : nat)
  | VArrayLike (length : nat).

(** [typeof v === 'string'], [Array.isArray v], [v instanceof FileList]. *)
Definition is_string (v : value) : bool :=
  match v with VString _ => true | _ => false end.
Definition Array_isArray (v : value) : bool :=
  match v with VArray _ => true | _ => false end.
Definition instanceof_FileList (v : value) : bool :=
  match v with VFileList _ => true | _ => false end.

(** Truthiness of a string, and of a [string | null]. *)
Definition truthy (s : string) : bool :=
  match s with EmptyString => false | String _ _ => true end.
Definition truthy_opt (o : option string) : bool :=
  match o with Some s => truthy s | None => false end.

(** [a || b] on strings. *)
Definition or_else (a b : string) : string := if truthy a then a else b.

(** ** Strings and their characters *)

(** The UTF-8 encoding of a code point, and of a string given by its
    code points. *)
Definition utf8_char (c : N) : list ascii :=
  if (c <? 128)%N then [ascii_of_N c]
  else if (c <? 2048)%N then
    [ascii_of_N (192 + c / 64); ascii_of_N (128 + c mod 64)]
  else if (c <? 65536)%N then
    [ascii_of_N (224 + c / 4096); ascii_of_N (128 + (c / 64) mod 64);
     ascii_of_N (128 + c mod 64)]
  else
    [ascii_of_N (240 + c / 262144); ascii_of_N (128 + (c / 4096) mod 64);
     ascii_of_N (128 + (c / 64) mod 64); ascii_of_N (128 + c mod 64)].

Definition utf8 (cps : list N) : string :=
  string_of_list_ascii (flat_map utf8_char cps).

(** How many UTF-16 code units a code point takes. *)
Definition utf16_units (c : N) : nat := if (c <? 65536)%N then 1 else 2.

(** The code units of the character whose encoding starts with the
    byte [c]: two when it is the first of four bytes, one for any other
    first byte, none for a continuation byte. *)
Definition units_at (c : ascii) : nat :=
  let n := N_of_ascii c in
  if (n <? 128)%N then 1
  else if (n <? 192)%N then 0
  else if (n <? 240)%N then 1
  else 2.

(** [s.length] *)
Definition string_length (s : string) : nat :=
  list_sum (map units_at (list_ascii_of_string s)).

(** The characters that are white space for [\s]: the code points and
    their encodings. *)
Definition white_space_points : list N :=
  [9; 10; 11; 12; 13; 32; 160; 5760; 8192; 8193; 8194; 8195; 8196; 8197;
   8198; 8199; 8200; 8201; 8202; 8232; 8233; 8239; 8287; 12288; 65279]%N.

Definition white_space : list (list ascii) :=
  map utf8_char white_space_points.

Fixpoint starts_with (w l : list ascii) : bool :=
  match w, l with
  | [], _ => true
  | a :: w', b :: l' => Ascii.eqb a b && starts_with w' l'
  | _ :: _, [] => false
  end.

(** A white-space character is at the head of [l]. *)
Definition ws_prefix (l : list ascii) : bool :=
  existsb (fun w => starts_with w l) white_space.

(** The byte [x] is part of no white-space character. *)
Definition apart (x : ascii) : bool :=
  forallb (forallb (fun c => negb (Ascii.eqb c x))) white_space.

(** ** Plain objects
    [o[k] = x] as far as the own properties of [o] go, for an object
    made by [{}] and a value that is a string or [null]: the key
    [__proto__] reaches the accessor of [Object.prototype] and creates
    no property. *)
Definition obj_set {A} (k : string) (x : A) (o : gmap string A)
  : gmap string A :=
  if String.eqb k "__proto__" then o else <[k := x]> o.

(** ** [parseFloat], for plain decimal literals
    (leading ASCII white space, a sign, digits, a fraction; no
    exponent). *)
Definition is_ws (c : ascii) : bool :=
  let n := nat_of_ascii c in
  (n =? 32) || (n =? 9) || (n =? 10) || (n =? 13) || (n =? 11) || (n =? 12).

Definition is_digit (c : ascii) : bool :=
  let n := nat_of_ascii c in (48 <=? n) && (n <=? 57).

Fixpoint skip_ws (s : string) : string :=
  match s with
  | String c r => if is_ws c then skip_ws r else s
  | EmptyString => s
  end.

(** Reads a run of digits: its value, how many there were, the rest. *)
Fixpoint read_digits (s : string) (acc : Z) (n : nat) : Z * nat * string :=
  match s with
  | String c r =>
      if is_digit c
      then read_digits r (10 * acc + Z.of_nat (nat_of_ascii c - 48))%Z (S n)
      else (acc, n, s)
  | EmptyString => (acc, n, s)
  end.

Definition parseFloat (s : string) : number :=
  let s0 := skip_ws s in
  let '(neg, s1) :=
    match s0 with
    | String "-"%char r => (true, r)
    | String "+"%char r => (false, r)
    | _ => (false, s0)
    end in
  let '(ip, ni, s2) := read_digits s1 0%Z 0 in
  let '(fp, nf, _) :=
    match s2 with
    | String "."%char r => read_digits r 0%Z 0
    | _ => (0%Z, 0, s2)
    end in
  if ni + nf =? 0 then NaN
  else
    let scale := (10 ^ Z.of_nat nf)%Z in
    let m := (ip * scale + fp)%Z in
    Num (Qmake (if neg then - m else m)%Z (Z.to_pos scale)).

End Js.

(* ===================================================================== *)
(** * The JavaScript [Map]: string keys, insertion order                  *)
(* ===================================================================== *)

Module JsMap.

Definition t (A : Type) : Type := list (string * A).

Definition empty {A} : t A := [].

Fixpoint get {A} (k : string) (m : t A) : option A :=
  match m with
  | [] => None
  | (k', a) :: m' => if String.eqb k k' then Some a else get k m'
  end.

Definition has {A} (k : string) (m : t A) : bool :=
  match get k m with Some _ => true | None => false end.

(** [set] overwrites in place, or appends a new entry at the end. *)
Fixpoint set {A} (k : string) (a : A) (m : t A) : t A :=
  match m with
  | [] => [(k, a)]
  | (k', a') :: m' =>
      if String.eqb k k' then (k', a) :: m' else (k', a') :: set k a m'
  end.

Definition keys {A} (m : t A) : list string := map fst m.

End JsMap.

(* ===================================================================== *)
(** * The DOM                                                             *)
(* ===================================================================== *)

Module Dom.
Import Js.

(** A compiled regular expression. *)
Record RegExp := { source : string; test : string -> bool }.

(** The state of a form control, by the names of the properties the
    library reads.  [pattern_RegExp] is what [new RegExp(pattern)]
    gives ([None]: the pattern does not compile). *)
Record control := {
  type : string;
  value : string;
  checked : bool;
  valueAsNumber : number;
  files : Js.value;
  required : bool;
  minLength : Z;
  maxLength : Z;
  min : string;
  max : string;
  pattern : string;
  pattern_RegExp : option RegExp;
  validationMessage : string;
  validity_valid : bool
}.

Record element := {
  tagName : string;
  attrs : list (string * string);
  classList : list string;
  style_display : string;
  ctl : control
}.

#[local] Unset Elimination Schemes.
Inductive node :=
  | Elem (nid : nat) (e : element) (children : list node)
  | Text (data : string).
#[local] Set Elimination Schemes.

(** The document and the trees detached from it. *)
Record dom := { root : node; detached : list node }.

Definition is_elem (n : node) : bool :=
  match n with Elem _ _ _ => true | Text _ => false end.

Definition node_id (n : node) : nat :=
  match n with Elem i _ _ => i | Text _ => 0 end.

Definition node_children (n : node) : list node :=
  match n with Elem _ _ cs => cs | Text _ => [] end.

Definition node_element (n : node) : option element :=
  match n with Elem _ e _ => Some e | Text _ => None end.

Definition has_id (i : nat) (n : node) : bool :=
  match n with Elem j _ _ => Nat.eqb i j | Text _ => false end.

(** ** Attributes and classes *)

Fixpoint assoc (k : string) (l : list (string * string)) : option string :=
  match l with
  | [] => None
  | (k', v) :: l' => if String.eqb k k' then Some v else assoc k l'
  end.

Definition getAttribute (a : string) (e : element) : option string :=
  assoc a (attrs e).

Definition hasAttribute (a : string) (e : element) : bool :=
  match getAttribute a e with Some _ => true | None => false end.

Definition contains (c : string) (l : list string) : bool :=
  existsb (String.eqb c) l.

(** [classList.add] and [classList.remove], of a token ([token],
    below). *)
Definition class_add (c : string) (l : list string) : list string :=
  if contains c l then l else l ++ [c].

Definition class_remove (c : string) (l : list string) : list string :=
  List.filter (fun x => negb (String.eqb c x)) l.

Definition with_classList (f : list string -> list string) (e : element)
  : element :=
  {| tagName := tagName e; attrs := attrs e; classList := f (classList e);
     style_display := style_display e; ctl := ctl e |}.

Definition with_display (d : string) (e : element) : element :=
  {| tagName := tagName e; attrs := attrs e; classList := classList e;
     style_display := d; ctl := ctl e |}.

(** ** Selectors *)

Inductive simple_selector :=
  | SelTag (t : string)
  | SelClass (c : string)
  | SelId (i : string)
  | SelHasAttr (a : string)
  | SelAttrEq (a v : string)
  | SelNotAttrEq (a v : string)
  | SelChecked.

(** A compound selector is a conjunction, a selector a comma list. *)
Definition compound := list simple_selector.
Definition selector := list compound.

Definition opt_eqb (o : option string) (v : string) : bool :=
  match o with Some s => String.eqb s v | None => false end.

(** ASCII lower case. *)
Definition to_lower (c : ascii) : ascii :=
  let n := nat_of_ascii c in
  if (65 <=? n) && (n <=? 90) then ascii_of_nat (n + 32) else c.

Fixpoint ascii_lowercase (s : string) : string :=
  match s with
  | EmptyString => EmptyString
  | String c r => String (to_lower c) (ascii_lowercase r)
  end.

(** The attributes whose values a selector compares without regard to
    ASCII case in an HTML document; the value of any other attribute is
    compared as it is. *)
Definition case_insensitive_attributes : list string :=
  ["accept"; "accept-charset"; "align"; "alink"; "axis"; "bgcolor";
   "charset"; "checked"; "clear"; "codetype"; "color"; "compact";
   "declare"; "defer"; "dir"; "direction"; "disabled"; "enctype"; "face";
   "frame"; "hreflang"; "http-equiv"; "lang"; "language"; "link"; "media";
   "method"; "multiple"; "nohref"; "noresize"; "noshade"; "nowrap";
   "readonly"; "rel"; "rev"; "rules"; "scope"; "scrolling"; "selected";
   "shape"; "target"; "text"; "type"; "valign"; "valuetype"; "vlink"].

(** [[a="v"]] on an element whose attribute [a] is [x]. *)
Definition attr_eqb (a x v : string) : bool :=
  if existsb (String.eqb a) case_insensitive_attributes
  then String.eqb (ascii_lowercase x) (ascii_lowercase v)
  else String.eqb x v.

Definition attr_is (a v : string) (e : element) : bool :=
  match getAttribute a e with
  | Some x => attr_eqb a x v
  | None => false
  end.

Definition matches_simple (s : simple_selector) (e : element) : bool :=
  match s with
  | SelTag t => String.eqb (tagName e) t
  | SelClass c => contains c (classList e)
  | SelId i => opt_eqb (getAttribute "id" e) i
  | SelHasAttr a => hasAttribute a e
  | SelAttrEq a v => attr_is a v e
  | SelNotAttrEq a v => negb (attr_is a v e)
  | SelChecked => checked (ctl e)
  end.

Definition matches (sel : selector) (e : element) : bool :=
  existsb (fun c => forallb (fun s => matches_simple s e) c) sel.

Definition node_matches (sel : selector) (n : node) : bool :=
  match n with Elem _ e _ => matches sel e | Text _ => false end.

(** The selector a configuration string stands for, when it is one of
    [selector_ok] below. *)
Definition parse_selector (s : string) : selector :=
  match s with
  | String "#"%char r => [[SelId r]]
  | String "."%char r => [[SelClass r]]
  | _ => [[SelTag s]]
  end.

Definition startsWith_hash (s : string) : bool :=
  match s with String "#"%char _ => true | _ => false end.

(** ** The strings the selectors and class lists take
    A name can be written between double quotes in a selector when it
    holds no double quote, no backslash, no line break and no null
    character. *)
Definition quotable (s : string) : bool :=
  forallb (fun c => negb (existsb (Ascii.eqb c)
                            ["000"; "010"; "012"; "013"; "034"; "092"]%char))
    (list_ascii_of_string s).

(** A token of a class list: not empty, no ASCII white space. *)
Definition token (s : string) : bool :=
  truthy s
  && forallb (fun c => negb (existsb (Ascii.eqb c)
                               ["009"; "010"; "012"; "013"; " "]%char))
       (list_ascii_of_string s).

(** An identifier of CSS written without escapes. *)
Definition name_start (c : ascii) : bool :=
  let n := nat_of_ascii c in
  ((65 <=? n) && (n <=? 90)) || ((97 <=? n) && (n <=? 122))
  || (n =? 95) || (128 <=? n).

Definition name_char (c : ascii) : bool :=
  name_start c || is_digit c || Ascii.eqb c "-".

Definition ident (s : string) : bool :=
  match list_ascii_of_string s with
  | "-"%char :: "-"%char :: l => forallb name_char l
  | "-"%char :: c :: l => name_start c && forallb name_char l
  | c :: l => name_start c && forallb name_char l
  | [] => false
  end.

(** The configuration strings [parse_selector] reads as the platform
    does: [#id], [.class], and a tag name in lower case. *)
Definition selector_ok (s : string) : bool :=
  match s with
  | String "#"%char r => ident r
  | String "."%char r => ident r
  | _ => ident s && String.eqb (ascii_lowercase s) s
  end.

(** ** Reading the tree *)

(** A node and its element descendants, in document order. *)
Fixpoint elements (n : node) : list node :=
  match n with
  | Elem _ _ cs => n :: flat_map elements cs
  | Text _ => []
  end.

Definition descendants (n : node) : list node :=
  flat_map elements (node_children n).

Definition all_elements (d : dom) : list node :=
  elements (root d) ++ flat_map elements (detached d).

(** The identifiers of a node and of the elements below it. *)
Definition subtree_ids (n : node) : list nat := map node_id (elements n).

Definition ids (d : dom) : list nat := map node_id (all_elements d).

(** Node identifiers are unique. *)
Definition wf (d : dom) : Prop := NoDup (ids d).

Definition find_node (d : dom) (i : nat) : option node :=
  List.find (has_id i) (all_elements d).

Definition find_element (d : dom) (i : nat) : option element :=
  match find_node d i with Some n => node_element n | None => None end.

(** The chain of elements from [n] down to the node [i], both included. *)
Fixpoint path_to (i : nat) (n : node) : option (list node) :=
  match n with
  | Text _ => None
  | Elem j _ cs =>
      if Nat.eqb i j then Some [n]
      else
        match
          (fix go (l : list node) : option (list node) :=
             match l with
             | [] => None
             | c :: l' =>
                 match path_to i c with
                 | Some p => Some p
                 | None => go l'
                 end
             end) cs
        with
        | Some p => Some (n :: p)
        | None => None
        end
  end.

Fixpoint path_in (i : nat) (l : list node) : option (list node) :=
  match l with
  | [] => None
  | t :: l' =>
      match path_to i t with
      | Some p => Some p
      | None => path_in i l'
      end
  end.

(** The node [i] and its ancestors, nearest first. *)
Definition ancestors_or_self (d : dom) (i : nat) : list node :=
  match path_in i (root d :: detached d) with
  | Some p => rev p
  | None => []
  end.

Definition parentElement (d : dom) (i : nat) : option node :=
  match ancestors_or_self d i with
  | _ :: p :: _ => Some p
  | _ => None
  end.

(** [element.closest(sel)]: the nearest of the element itself and its
    ancestors that matches. *)
Definition closest (d : dom) (sel : selector) (i : nat) : option node :=
  List.find (node_matches sel) (ancestors_or_self d i).

(** [root.querySelectorAll(sel)] and [root.querySelector(sel)]. *)
Definition querySelectorAll_in (n : node) (sel : selector) : list node :=
  List.filter (node_matches sel) (descendants n).

Definition querySelectorAll (d : dom) (i : nat) (sel : selector)
  : list node :=
  match find_node d i with
  | Some n => querySelectorAll_in n sel
  | None => []
  end.

Definition querySelector (d : dom) (i : nat) (sel : selector)
  : option node :=
  head (querySelectorAll d i sel).

(** [document.querySelector(sel)]: the whole document, its root
    element included. *)
Definition document_querySelector (d : dom) (sel : selector)
  : option node :=
  List.find (node_matches sel) (elements (root d)).

(** What follows the node [i] among its siblings. *)
Fixpoint after (i : nat) (l : list node) : list node :=
  match l with
  | [] => []
  | c :: l' => if has_id i c then l' else after i l'
  end.

Definition following_siblings (d : dom) (i : nat) : list node :=
  match parentElement d i with
  | Some p => after i (node_children p)
  | None => []
  end.

Definition nextSibling (d : dom) (i : nat) : option node :=
  head (following_siblings d i).

Definition nextElementSibling (d : dom) (i : nat) : option node :=
  List.find is_elem (following_siblings d i).

(** ** Changing the tree *)

(** Applies [f] to the node [i] of a tree. *)
Fixpoint update_node (i : nat) (f : node -> node) (n : node) : node :=
  match n with
  | Text _ => n
  | Elem j e cs =>
      let n' := Elem j e (map (update_node i f) cs) in
      if Nat.eqb i j then f n' else n'
  end.

Definition update (i : nat) (f : node -> node) (d : dom) : dom :=
  {| root := update_node i f (root d);
     detached := map (update_node i f) (detached d) |}.

Definition on_element (f : element -> element) (n : node) : node :=
  match n with
  | Elem j e cs => Elem j (f e) cs
  | Text _ => n
  end.

Definition classList_add (i : nat) (c : string) (d : dom) : dom :=
  update i (on_element (with_classList (class_add c))) d.

Definition classList_remove (i : nat) (c : string) (d : dom) : dom :=
  update i (on_element (with_classList (class_remove c))) d.

Definition set_style_display (i : nat) (v : string) (d : dom) : dom :=
  update i (on_element (with_display v)) d.

(** [d'] is [d] after some changes of the class list of the node [i]. *)
Inductive restyled (i : nat) (d : dom) : dom -> Prop :=
  | restyled_refl : restyled i d d
  | restyled_step d' f :
      restyled i d d' ->
      restyled i d (update i (on_element (with_classList f)) d').

(** [d'] keeps the nodes of [d]: a node that is found in [d] is found
    in [d'], with its class list unless it is one of [cls], with its
    display unless it is one of [disp], and as it was, subtree and all,
    when none of [sub] is in its subtree. *)
Definition keeps (cls disp sub : list nat) (d d' : dom) : Prop :=
  forall j x, find_node d j = Some x ->
    exists y,
      find_node d' j = Some y
      /\ (forall e, node_element x = Some e ->
            exists e', node_element y = Some e'
              /\ (j ∉ cls -> classList e' = classList e)
              /\ (j ∉ disp -> style_display e' = style_display e))
      /\ ((forall t, t ∈ sub -> t ∉ subtree_ids x) -> y = x).

(** [node.textContent = s]: the children are replaced by one text node
    (by nothing when [s] is empty); the element children that were
    there are detached. *)
Definition text_children (s : string) : list node :=
  if truthy s then [Text s] else [].

Definition set_children (cs : list node) (n : node) : node :=
  match n with
  | Elem j e _ => Elem j e cs
  | Text _ => n
  end.

(** The element children of the node [i] of a tree. *)
Fixpoint cut (i : nat) (n : node) : list node :=
  match n with
  | Text _ => []
  | Elem j _ cs =>
      if Nat.eqb i j then List.filter is_elem cs else flat_map (cut i) cs
  end.

Definition set_textContent (i : nat) (s : string) (d : dom) : dom :=
  {| root := update_node i (set_children (text_children s)) (root d);
     detached :=
       map (update_node i (set_children (text_children s))) (detached d)
       ++ flat_map (cut i) (root d :: detached d) |}.

(** [parent.appendChild(n)]. *)
Definition append_child_node (c : node) (n : node) : node :=
  match n with
  | Elem j e cs => Elem j e (cs ++ [c])
  | Text _ => n
  end.

Definition appendChild (parent : nat) (c : node) (d : dom) : dom :=
  update parent (append_child_node c) d.

(** [parent.insertBefore(n, ref.nextSibling)] where [ref] is a child of
    [parent] that has a next sibling: [n] goes right after [ref]. *)
Fixpoint insert_after (ref : nat) (c : node) (l : list node) : list node :=
  match l with
  | [] => []
  | x :: l' => if has_id ref x then x :: c :: l' else x :: insert_after ref c l'
  end.

Definition insert_after_node (ref : nat) (c : node) (n : node) : node :=
  match n with
  | Elem j e cs => Elem j e (insert_after ref c cs)
  | Text _ => n
  end.

Definition insertAfter (parent ref : nat) (c : node) (d : dom) : dom :=
  update parent (insert_after_node ref c) d.

(** A node that was created and not inserted anywhere. *)
Definition add_detached (c : node) (d : dom) : dom :=
  {| root := root d; detached := detached d ++ [c] |}.

(** An identifier no node of the forest has. *)
Definition fresh (d : dom) : nat := S (list_max (ids d)).

(** ** Elements the library creates, and plain elements *)

Definition no_control : control :=
  {| type := ""; value := ""; checked := false; valueAsNumber := NaN;
     files := VNull; required := false; minLength := (-1)%Z;
     maxLength := (-1)%Z; min := ""; max := ""; pattern := "";
     pattern_RegExp := None; validationMessage := "";
     validity_valid := true |}.

Definition plain (tag : string) (a : list (string * string))
  (cl : list string) : element :=
  {| tagName := tag; attrs := a; classList := cl; style_display := "";
     ctl := no_control |}.

End Dom.

(* ===================================================================== *)
(** * Exceptions                                                          *)
(* ===================================================================== *)

Module Exn.

(** What the library can throw: an [Error] of its own (the lookup
    errors), or the [SyntaxError] of a pattern that does not compile. *)
Inductive thrown :=
  | Error (message : string)
  | SyntaxError (message : string).

Inductive result (A : Type) :=
  | Return (a : A)
  | Throw (e : thrown).
Arguments Return {A} a.
Arguments Throw {A} e.

Definition is_Throw {A} (r : result A) : bool :=
  match r with Throw _ => true | Return _ => false end.

Definition bind {A B} (r : result A) (k : A -> result B) : result B :=
  match r with
  | Return a => k a
  | Throw e => Throw e
  end.

(** The quotation mark of the lookup messages. *)
Definition quote : string := String "034"%char EmptyString.

End Exn.

(* ===================================================================== *)
(** * Regular expressions                                                 *)
(* ===================================================================== *)

Module Re.
Import Js.

(** Regular expressions over characters, as far as the library's
    literals need them: no back-references, no assertions other than
    the anchors [^] and [$] around the whole expression. *)
Inductive re :=
  | Void
  | Eps
  | Cls (p : ascii -> bool)
  | Cat (r1 r2 : re)
  | Alt (r1 r2 : re)
  | Star (r : re).

(** [r?], [r+], [r{n}], [r{0,n}], [r{n,m}]. *)
Definition Opt (r : re) : re := Alt r Eps.
Definition Plus (r : re) : re := Cat r (Star r).

Fixpoint Rep (n : nat) (r : re) : re :=
  match n with
  | 0 => Eps
  | S n' => Cat r (Rep n' r)
  end.

Fixpoint UpTo (n : nat) (r : re) : re :=
  match n with
  | 0 => Eps
  | S n' => Opt (Cat r (UpTo n' r))
  end.

Definition RepRange (n m : nat) (r : re) : re := Cat (Rep n r) (UpTo (m - n) r).

(** Character classes. *)
Definition Chr (c : ascii) : re := Cls (Ascii.eqb c).

(** A sequence of characters, and one of several sequences. *)
Definition Lit (l : list ascii) : re :=
  fold_right (fun c r => Cat (Chr c) r) Eps l.

Definition OneOf (ls : list (list ascii)) : re :=
  fold_right (fun l r => Alt (Lit l) r) Void ls.

Definition between (a b c : ascii) : bool :=
  (nat_of_ascii a <=? nat_of_ascii c) && (nat_of_ascii c <=? nat_of_ascii b).

Definition one_of (l : list ascii) (c : ascii) : bool :=
  existsb (Ascii.eqb c) l.

(** The strings an expression matches as a whole. *)
Inductive lang : re -> list ascii -> Prop :=
  | lang_Eps : lang Eps []
  | lang_Cls p c : p c = true -> lang (Cls p) [c]
  | lang_Cat r1 r2 s1 s2 :
      lang r1 s1 -> lang r2 s2 -> lang (Cat r1 r2) (s1 ++ s2)
  | lang_Alt_l r1 r2 s : lang r1 s -> lang (Alt r1 r2) s
  | lang_Alt_r r1 r2 s : lang r2 s -> lang (Alt r1 r2) s
  | lang_Star_nil r : lang (Star r) []
  | lang_Star_cons r s1 s2 :
      lang r s1 -> lang (Star r) s2 -> lang (Star r) (s1 ++ s2).

(** Matching by derivatives. *)
Fixpoint nullable (r : re) : bool :=
  match r with
  | Void => false
  | Eps => true
  | Cls _ => false
  | Cat r1 r2 => nullable r1 && nullable r2
  | Alt r1 r2 => nullable r1 || nullable r2
  | Star _ => true
  end.

Fixpoint deriv (c : ascii) (r : re) : re :=
  match r with
  | Void => Void
  | Eps => Void
  | Cls p => if p c then Eps else Void
  | Cat r1 r2 =>
      if nullable r1
      then Alt (Cat (deriv c r1) r2) (deriv c r2)
      else Cat (deriv c r1) r2
  | Alt r1 r2 => Alt (deriv c r1) (deriv c r2)
  | Star r0 => Cat (deriv c r0) (Star r0)
  end.

Fixpoint accepts (r : re) (s : list ascii) : bool :=
  match s with
  | [] => nullable r
  | c :: s' => accepts (deriv c r) s'
  end.

(** An expression that visibly matches nothing. *)
Fixpoint is_void (r : re) : bool :=
  match r with
  | Void => true
  | Eps => false
  | Cls _ => false
  | Cat r1 r2 => is_void r1 || is_void r2
  | Alt r1 r2 => is_void r1 && is_void r2
  | Star _ => false
  end.

(** [/^r$/.test(s)] and, for a class, [/[...]/.test(s)]. *)
Definition whole (r : re) (s : string) : bool :=
  accepts r (list_ascii_of_string s).

Definition somewhere (p : ascii -> bool) (s : string) : bool :=
  existsb p (list_ascii_of_string s).

(** The decimal value of a run of digits. *)
Definition digit_value (c : ascii) : nat := nat_of_ascii c - 48.

Definition number_of (l : list ascii) : nat :=
  fold_left (fun n c => 10 * n + digit_value c) l 0.

Definition digits (l : list ascii) : bool := forallb Js.is_digit l.

(** One to three digits that denote a number up to 255. *)
Definition octet (l : list ascii) : Prop :=
  1 <= length l <= 3 /\ digits l = true /\ number_of l <= 255.

(** Two digits that denote a number from [lo] to [hi]. *)
Definition two_digits (lo hi : nat) (l : list ascii) : Prop :=
  length l = 2 /\ digits l = true /\ lo <= number_of l <= hi.

End Re.

(* ===================================================================== *)
(** * FormConnector: the field registry                                   *)
(* ===================================================================== *)

Module FormConnector.
Import Js Dom.

Record FieldOptions := {
  label : option string;
  errorContainer : option string;
  errorClass : option string;
  fieldClass : option string;
  validClass : option string;
  invalidClass : option string
}.

Definition no_options : FieldOptions :=
  {| label := None; errorContainer := None; errorClass := None;
     fieldClass := None; validClass := None; invalidClass := None |}.

Record t := {
  formElement : nat;
  inputElements : JsMap.t nat;
  labels : JsMap.t (option nat);
  errorContainers : JsMap.t nat;
  options : FieldOptions
}.

(** [{ errorContainer: '.error-message', ...options }] *)
Definition with_defaults (o : FieldOptions) : FieldOptions :=
  {| label := label o;
     errorContainer :=
       match errorContainer o with
       | Some s => Some s
       | None => Some ".error-message"
       end;
     errorClass := errorClass o;
     fieldClass := fieldClass o;
     validClass := validClass o;
     invalidClass := invalidClass o |}.

(** ** collectFields *)

Definition field_name_selector : selector := [[SelHasAttr "field-name"]].

Definition formElements : selector :=
  [ [SelTag "input"; SelNotAttrEq "type" "submit";
     SelNotAttrEq "type" "button"; SelNotAttrEq "type" "reset"];
    [SelTag "textarea"];
    [SelTag "select"];
    [SelTag "output"] ].

(** The field-name marker of a node. *)
Definition marker (n : node) : option string :=
  match n with
  | Elem _ e _ => getAttribute "field-name" e
  | Text _ => None
  end.

(** The body of the first [forEach]. *)
Definition register_tagged (m : JsMap.t nat) (n : node) : JsMap.t nat :=
  match n with
  | Elem i e _ =>
      match getAttribute "field-name" e with
      | Some fieldName =>
          if truthy fieldName then JsMap.set fieldName i m else m
      | None => m
      end
  | Text _ => m
  end.

(** [key && !inputElements.has(key)] *)
Definition unclaimed (key : option string) (m : JsMap.t nat) : bool :=
  match key with
  | Some k => truthy k && negb (JsMap.has k m)
  | None => false
  end.

Definition set_opt (key : option string) (i : nat) (m : JsMap.t nat)
  : JsMap.t nat :=
  match key with Some k => JsMap.set k i m | None => m end.

(** The body of the second [forEach]. *)
Definition register_control (m : JsMap.t nat) (n : node) : JsMap.t nat :=
  match n with
  | Elem i e _ =>
      if hasAttribute "field-name" e then m
      else
        let name := getAttribute "name" e in
        let id := getAttribute "id" e in
        if unclaimed name m then set_opt name i m
        else if unclaimed id m then set_opt id i m
        else m
  | Text _ => m
  end.

Definition collectFields_in (formNode : node) : JsMap.t nat :=
  let tagged := querySelectorAll_in formNode field_name_selector in
  let controls := querySelectorAll_in formNode formElements in
  fold_left register_control controls
    (fold_left register_tagged tagged JsMap.empty).

Definition collectFields (d : dom) (form : nat) : JsMap.t nat :=
  match find_node d form with
  | Some formNode => collectFields_in formNode
  | None => JsMap.empty
  end.

(** ** collectLabelsAndErrorContainers *)

Definition attribute (d : dom) (i : nat) (a : string) : option string :=
  match find_element d i with
  | Some e => getAttribute a e
  | None => None
  end.

(** The label of a control; the query [label[for="${id}"]] is the one
    of an id that can be quoted ([constructible], below). *)
Definition resolve_label (d : dom) (form element : nat) : option nat :=
  let id := attribute d element "id" in
  let label :=
    match id with
    | Some i =>
        if truthy i
        then querySelector d form [[SelTag "label"; SelAttrEq "for" i]]
        else None
    | None => None
    end in
  match label with
  | Some l => Some (node_id l)
  | None => node_id <$> closest d [[SelTag "label"]] element
  end.

Definition parent_querySelector (d : dom) (element : nat) (sel : selector)
  : option node :=
  match parentElement d element with
  | Some p => head (querySelectorAll_in p sel)
  | None => None
  end.

Definition nextElementSibling_matches (d : dom) (element : nat)
  (sel : selector) : bool :=
  match nextElementSibling d element with
  | Some n => node_matches sel n
  | None => false
  end.

Definition found {A} (o : option A) : bool :=
  match o with Some _ => true | None => false end.

(** The non-[#] branch.  The source reads
    [closest(s) || parent?.querySelector(s) || next?.matches(s) ? next : null],
    in which the conditional binds weaker than [||]. *)
Definition relative_container (d : dom) (element : nat) (sel : selector)
  : option node :=
  if found (closest d sel element)
     || found (parent_querySelector d element sel)
     || nextElementSibling_matches d element sel
  then nextElementSibling d element
  else None.

Definition configured_container (d : dom) (o : FieldOptions) (element : nat)
  : option node :=
  match errorContainer o with
  | Some s =>
      if truthy s then
        if startsWith_hash s
        then document_querySelector d (parse_selector s)
        else relative_container d element (parse_selector s)
      else None
  | None => None
  end.

Definition has_class (c : string) (n : node) : bool :=
  match n with
  | Elem _ e _ => contains c (classList e)
  | Text _ => false
  end.

(** The fallback of the source: [.error-message] under the parent, else
    the next element sibling when it bears that class. *)
Definition default_container (d : dom) (element : nat) : option node :=
  match parentElement d element with
  | Some parent =>
      match head (querySelectorAll_in parent [[SelClass "error-message"]]) with
      | Some c => Some c
      | None =>
          match nextElementSibling d element with
          | Some n => if has_class "error-message" n then Some n else None
          | None => None
          end
      end
  | None => None
  end.

Definition resolve_errorContainer (d : dom) (o : FieldOptions)
  (element : nat) : option nat :=
  match configured_container d o element with
  | Some c => Some (node_id c)
  | None => node_id <$> default_container d element
  end.

(** One turn of the loop over [inputElements]. *)
Definition collect_one (d : dom) (form : nat) (o : FieldOptions)
  (acc : JsMap.t (option nat) * JsMap.t nat) (entry : string * nat)
  : JsMap.t (option nat) * JsMap.t nat :=
  let '(fieldName, element) := entry in
  let '(ls, ecs) := acc in
  (JsMap.set fieldName (resolve_label d form element) ls,
   match resolve_errorContainer d o element with
   | Some c => JsMap.set fieldName c ecs
   | None => ecs
   end).

Definition collectLabelsAndErrorContainers (d : dom) (form : nat)
  (o : FieldOptions) (inputs : JsMap.t nat)
  : JsMap.t (option nat) * JsMap.t nat :=
  fold_left (collect_one d form o) inputs (JsMap.empty, JsMap.empty).

(** [new FormConnector(element, options)] *)
Definition new (d : dom) (element : nat) (o : FieldOptions) : t :=
  let o' := with_defaults o in
  let inputs := collectFields d element in
  let '(ls, ecs) := collectLabelsAndErrorContainers d element o' inputs in
  {| formElement := element; inputElements := inputs; labels := ls;
     errorContainers := ecs; options := o' |}.

Definition field (c : t) (fieldName : string) : option nat :=
  JsMap.get fieldName (inputElements c).

Definition getLabel (c : t) (fieldName : string) : option nat :=
  match JsMap.get fieldName (labels c) with
  | Some l => l
  | None => None
  end.

Definition getErrorContainer (d : dom) (c : t) (fieldName : string)
  : option nat :=
  match JsMap.get fieldName (errorContainers c) with
  | Some container => Some container
  | None =>
      match errorContainer (options c) with
      | Some s =>
          if truthy s && startsWith_hash s
          then node_id <$> document_querySelector d (parse_selector s)
          else None
      | None => None
      end
  end.

Definition getFields (c : t) : JsMap.t nat := inputElements c.

(** The plain control [e] may own the key [k] of the table [m]: [k] is
    its name, or [k] is its id while its name is empty or is itself a
    key of the table. *)
Definition plain_key (m : JsMap.t nat) (e : element) (k : string) : Prop :=
  getAttribute "name" e = Some k
  \/ (getAttribute "id" e = Some k
      /\ (truthy_opt (getAttribute "name" e) = false
          \/ exists n j,
               getAttribute "name" e = Some n /\ JsMap.get n m = Some j)).

(** Every entry [k -> j] of a table points at a node of [D] that carries
    the marker [k], or at one that carries no marker and may own [k]. *)
Definition entries_ok (D : list node) (m : JsMap.t nat) : Prop :=
  forall k j, JsMap.get k m = Some j ->
    exists e cs, Elem j e cs ∈ D
      /\ (getAttribute "field-name" e = Some k
          \/ (getAttribute "field-name" e = None /\ plain_key m e k)).

Definition getFormElement (c : t) : nat := formElement c.

(** What the selector of the second pass matches, spelled out: an
    [input] whose [type] attribute is not [submit], [button] or [reset]
    in any case of letters, a [textarea], a [select], an [output]. *)
Definition is_control (e : element) : bool :=
  (String.eqb (tagName e) "input"
   && match getAttribute "type" e with
      | Some ty =>
          negb (existsb (String.eqb (ascii_lowercase ty))
                  ["submit"; "button"; "reset"])
      | None => true
      end)
  || String.eqb (tagName e) "textarea"
  || String.eqb (tagName e) "select"
  || String.eqb (tagName e) "output".

(** What a table may hold: under a non-empty key, a node of [D] that
    carries the key as its marker, or a form control without marker
    that has the key as its name or as its id. *)
Definition listed (D : list node) (m : JsMap.t nat) : Prop :=
  forall k j, JsMap.get k m = Some j ->
    truthy k = true
    /\ exists e cs, Elem j e cs ∈ D
         /\ (getAttribute "field-name" e = Some k
             \/ (getAttribute "field-name" e = None
                 /\ is_control e = true
                 /\ (getAttribute "name" e = Some k
                     \/ getAttribute "id" e = Some k))).

(** The constructor writes the [id] of every registered control between
    double quotes into the selector of its label, and hands the
    [errorContainer] option to the selector engine.
    [constructible d form o]: these ids can be quoted and the option is
    a selector the model reads as the platform does, so that the
    constructor returns, with the tables of the model. *)
Definition id_quotable (d : dom) (i : nat) : bool :=
  match attribute d i "id" with
  | Some x => quotable x
  | None => true
  end.

Definition option_ok (c : option string) : bool :=
  match c with
  | Some x => negb (truthy x) || selector_ok x
  | None => true
  end.

Definition constructible (d : dom) (form : nat) (o : FieldOptions) : bool :=
  forallb (fun entry : string * nat => id_quotable d (snd entry))
    (collectFields d form)
  && option_ok (errorContainer (with_defaults o)).

End FormConnector.

(* ===================================================================== *)
(** * Validator: the rule engine of one field                             *)
(* ===================================================================== *)

Module Validator.
Import Js Dom Exn.

(** What a custom predicate returns: [boolean | string]. *)
Inductive custom_result :=
  | CBool (b : bool)
  | CString (s : string).

(** The [type] of a rule together with its [value]. *)
Inductive rule_type :=
  | IsString
  | Required
  | Min (count : number)
  | Max (count : number)
  | Email
  | IsNumber
  | MinNumber (bound : number)
  | MaxNumber (bound : number)
  | Pattern (regex : RegExp)
  | IsArray
  | MinLength (count : number)
  | MaxLength (count : number)
  | Confirm (passwordField : string)
  | Custom (validator : string -> custom_result).

Record ValidationRule := { rtype : rule_type; error : string }.

(** The engine: [config.rules], [config.fieldName], the control, the
    form, and the cached value. *)
Record t := {
  element : nat;
  form : nat;
  rules : list ValidationRule;
  fieldName : string;
  value : Js.value
}.

Definition with_value (x : Js.value) (v : t) : t :=
  {| element := element v; form := form v; rules := rules v;
     fieldName := fieldName v; value := x |}.

(** [this.config.rules.push(r); return this] *)
Definition push (r : ValidationRule) (v : t) : t :=
  {| element := element v; form := form v; rules := rules v ++ [r];
     fieldName := fieldName v; value := value v |}.

(** ** getValue *)

Definition is_tag (tag : string) (e : Dom.element) : bool :=
  String.eqb (tagName e) tag.

Definition is_type (ty : string) (e : Dom.element) : bool :=
  String.eqb (type (ctl e)) ty.

(** [input[type="radio"][name="${name}"]:checked], for a [name] that
    can be quoted. *)
Definition checked_radio (name : string) : selector :=
  [[SelTag "input"; SelAttrEq "type" "radio"; SelAttrEq "name" name;
    SelChecked]].

Definition control_value (n : node) : string :=
  match n with
  | Elem _ e _ => Dom.value (ctl e)
  | Text _ => ""
  end.

Definition getValue (d : dom) (v : t) : Js.value :=
  match find_element d (element v) with
  | Some e =>
      if is_tag "input" e then
        if is_type "checkbox" e then VBoolean (checked (ctl e))
        else if is_type "radio" e then
          let name :=
            match getAttribute "name" e with
            | Some n => n
            | None => "null"
            end in
          match querySelector d (form v) (checked_radio name) with
          | Some checkedRadio => VString (control_value checkedRadio)
          | None => VNull
          end
        else if is_type "number" e || is_type "range" e
        then VNumber (valueAsNumber (ctl e))
        else if is_type "file" e then files (ctl e)
        else VString (Dom.value (ctl e))
      else if is_tag "textarea" e then VString (Dom.value (ctl e))
      else if is_tag "select" e then VString (Dom.value (ctl e))
      else VNull
  | None => VNull
  end.

(** ** The rule builders
    The optional [error] argument is [None] when the caller leaves it
    out.  [phone], [url], [date], [time], [zipCode], [creditCard],
    [ipAddress], [inn], [snils] and [passwordStrong] are calls of
    [pattern_] or [custom_] with a literal of the library. *)

Definition or_default (error : option string) (d : string) : string :=
  match error with Some e => e | None => d end.

Definition string_ (error : option string) : t -> t :=
  push {| rtype := IsString;
          error := or_default error "Поле должно быть строкой" |}.

Definition min_ (count : number) (error : option string) : t -> t :=
  push {| rtype := Min count;
          error := or_default error "Минимальная длина не достигнута" |}.

Definition max_ (count : number) (error : option string) : t -> t :=
  push {| rtype := Max count;
          error := or_default error "Максимальная длина превышена" |}.

Definition email_ (error : option string) : t -> t :=
  push {| rtype := Email;
          error := or_default error "Некорректный email" |}.

Definition required_ (error : option string) : t -> t :=
  push {| rtype := Required;
          error := or_default error "Поле обязательно для заполнения" |}.

Definition number_ (error : option string) : t -> t :=
  push {| rtype := IsNumber;
          error := or_default error "Поле должно быть числом" |}.

Definition minNumber_ (x : number) (error : option string) : t -> t :=
  push {| rtype := MinNumber x;
          error := or_default error "Значение слишком маленькое" |}.

Definition maxNumber_ (x : number) (error : option string) : t -> t :=
  push {| rtype := MaxNumber x;
          error := or_default error "Значение слишком большое" |}.

Definition pattern_ (regex : RegExp) (error : option string) : t -> t :=
  push {| rtype := Pattern regex;
          error := or_default error "Неверный формат" |}.

Definition confirm_ (passwordField : string) (error : option string)
  : t -> t :=
  push {| rtype := Confirm passwordField;
          error := or_default error "Пароли не совпадают" |}.

Definition array_ (error : option string) : t -> t :=
  push {| rtype := IsArray;
          error := or_default error "Поле должно быть массивом" |}.

Definition minLength_ (count : number) (error : option string) : t -> t :=
  push {| rtype := MinLength count;
          error :=
            or_default error
              "Минимальное количество элементов не достигнуто" |}.

Definition maxLength_ (count : number) (error : option string) : t -> t :=
  push {| rtype := MaxLength count;
          error :=
            or_default error
              "Максимальное количество элементов превышено" |}.

Definition custom_ (validator : string -> custom_result)
  (error : option string) : t -> t :=
  push {| rtype := Custom validator;
          error := or_default error "Неверное значение" |}.

(** ** Implicit rules, from the native constraints *)

Definition text_type (e : Dom.element) : bool :=
  is_type "text" e || is_type "password" e || is_type "email" e
  || is_type "search" e || is_type "tel" e || is_type "url" e.

Definition when (b : bool) (f : t -> t) : t -> t :=
  if b then f else fun v => v.

Definition message (e : Dom.element) (d : string) : option string :=
  Some (or_else (validationMessage (ctl e)) d).

Definition loadInputConstraints (e : Dom.element) (v : t) : result t :=
  let c := ctl e in
  let v1 :=
    when (required c)
      (required_ (message e "Поле обязательно для заполнения")) v in
  let v2 :=
    when (text_type e && (0 <? minLength c)%Z)
      (min_ (of_Z (minLength c))
         (message e "Минимальная длина не достигнута")) v1 in
  let v3 :=
    when (text_type e && (0 <? maxLength c)%Z)
      (max_ (of_Z (maxLength c))
         (message e "Максимальная длина превышена")) v2 in
  let numeric := is_type "number" e || is_type "range" e in
  let v4 :=
    when (numeric && truthy (min c))
      (minNumber_ (parseFloat (min c))
         (message e "Значение слишком маленькое")) v3 in
  let v5 :=
    when (numeric && truthy (max c))
      (maxNumber_ (parseFloat (max c))
         (message e "Значение слишком большое")) v4 in
  let r6 :=
    if text_type e && truthy (pattern c) then
      match pattern_RegExp c with
      | Some re => Return (pattern_ re (message e "Неверный формат") v5)
      | None =>
          Throw (SyntaxError ("Invalid regular expression: " ++ pattern c))
      end
    else Return v5 in
  bind r6 (fun v6 =>
    Return (when (is_type "email" e)
              (email_ (message e "Некорректный email")) v6)).

Definition loadTextAreaConstraints (e : Dom.element) (v : t) : t :=
  let c := ctl e in
  let v1 :=
    when (required c)
      (required_ (message e "Поле обязательно для заполнения")) v in
  let v2 :=
    when (0 <? minLength c)%Z
      (min_ (of_Z (minLength c))
         (message e "Минимальная длина не достигнута")) v1 in
  when (0 <? maxLength c)%Z
    (max_ (of_Z (maxLength c))
       (message e "Максимальная длина превышена")) v2.

Definition native_control (e : Dom.element) : bool :=
  is_tag "input" e || is_tag "textarea" e || is_tag "select" e.

Definition loadConstraintValidation (e : Dom.element) (v : t) : result t :=
  let r1 :=
    if is_tag "input" e then loadInputConstraints e v
    else if is_tag "textarea" e then Return (loadTextAreaConstraints e v)
    else Return v in
  bind r1 (fun v1 =>
    Return (when (native_control e && required (ctl e))
              (required_ (message e "Поле обязательно для заполнения"))
              v1)).

(** [new Validator(element, form, fieldName)] *)
Definition new (d : dom) (element form : nat) (fieldName : string)
  : result t :=
  let v0 := {| element := element; form := form; rules := [];
               fieldName := fieldName; value := VUndefined |} in
  let v1 := with_value (getValue d v0) v0 in
  match find_element d element with
  | Some e => loadConstraintValidation e v1
  | None => Return v1
  end.

(** ** checkRule *)

(** [/^[^\s@]+@[^\s@]+\.[^\s@]+$/.test(s)].  [plain_run l]: no
    white-space character and no [@] occurs in [l]. *)
Fixpoint plain_run (l : list ascii) : bool :=
  match l with
  | [] => true
  | c :: l' => negb (ws_prefix l) && negb (Ascii.eqb c "@") && plain_run l'
  end.

Fixpoint split_at (c : ascii) (l : list ascii)
  : option (list ascii * list ascii) :=
  match l with
  | [] => None
  | x :: l' =>
      if Ascii.eqb x c then Some ([], l')
      else
        match split_at c l' with
        | Some (a, b) => Some (x :: a, b)
        | None => None
        end
  end.

(** Some dot of [l] is followed by at least one character. *)
Fixpoint dot_before_end (l : list ascii) : bool :=
  match l with
  | c :: ((_ :: _) as l') => Ascii.eqb c "." || dot_before_end l'
  | _ => false
  end.

Definition emailRegex_test (s : string) : bool :=
  match split_at "@" (list_ascii_of_string s) with
  | Some (local, rest) =>
      match local, rest with
      | _ :: _, _ :: tl =>
          plain_run local && plain_run rest && dot_before_end tl
      | _, _ => false
      end
  | None => false
  end.

Definition fails (b : bool) (rule : ValidationRule) : option string :=
  if b then Some (error rule) else None.

(** The disjunction of the [required] case. *)
Definition required_fails (x : Js.value) : bool :=
  match x with
  | VNull => true
  | VUndefined => true
  | VString s => negb (truthy s)
  | VArray n => Nat.eqb n 0
  | VBoolean b => negb b
  | VFileList n => Nat.eqb n 0
  | _ => false
  end.

(** [typeof value === 'string' ? parseFloat(value) : value], when the
    outcome is a number. *)
Definition numeric (x : Js.value) : option number :=
  match x with
  | VString s => Some (parseFloat s)
  | VNumber n => Some n
  | _ => None
  end.

(** The [value] property of the element a [confirm] rule points at
    ([None]: the element has none). *)
Definition value_property (n : node) : option string :=
  match n with
  | Elem _ e _ =>
      if is_tag "input" e || is_tag "textarea" e || is_tag "select" e
         || is_tag "output" e || is_tag "button" e || is_tag "option" e
      then Some (Dom.value (ctl e))
      else None
  | Text _ => None
  end.

(** [confirmField.value !== value] *)
Definition differs (p : option string) (x : Js.value) : bool :=
  match p, x with
  | Some s, VString s' => negb (String.eqb s s')
  | None, VUndefined => false
  | _, _ => true
  end.

(** [checkRule]; the query of the [confirm] rule is the one of a name
    that can be quoted ([rule_query_ok], below). *)
Definition checkRule (d : dom) (v : t) (rule : ValidationRule)
  : option string :=
  let x := value v in
  match rtype rule with
  | IsString => fails (negb (is_string x)) rule
  | Required => fails (required_fails x) rule
  | Min minValue =>
      fails (match x with
             | VString s => num_lt (of_nat (string_length s)) minValue
             | _ => false
             end) rule
  | Max maxValue =>
      fails (match x with
             | VString s => num_gt (of_nat (string_length s)) maxValue
             | _ => false
             end) rule
  | Email =>
      fails (match x with
             | VString s => negb (emailRegex_test s)
             | _ => false
             end) rule
  | IsNumber =>
      fails ((match x with VNumber n => isNaN n | _ => true end)
             && (match x with
                 | VString s => isNaN (parseFloat s)
                 | _ => true
                 end)) rule
  | MinNumber minNumValue =>
      fails (match numeric x with
             | Some numValMin =>
                 negb (isNaN numValMin) && num_lt numValMin minNumValue
             | None => false
             end) rule
  | MaxNumber maxNumValue =>
      fails (match numeric x with
             | Some numValMax =>
                 negb (isNaN numValMax) && num_gt numValMax maxNumValue
             | None => false
             end) rule
  | Pattern pattern =>
      fails (match x with
             | VString s => negb (test pattern s)
             | _ => false
             end) rule
  | IsArray => fails (negb (Array_isArray x)) rule
  | MinLength minLengthValue =>
      fails (match x with
             | VArray n => num_lt (of_nat n) minLengthValue
             | _ => false
             end) rule
  | MaxLength maxLengthValue =>
      fails (match x with
             | VArray n => num_gt (of_nat n) maxLengthValue
             | _ => false
             end) rule
  | Confirm confirmFieldName =>
      match querySelector d (form v) [[SelAttrEq "name" confirmFieldName]] with
      | Some confirmField =>
          fails (differs (value_property confirmField) x) rule
      | None => None
      end
  | Custom customValidator =>
      match x with
      | VString s =>
          match customValidator s with
          | CString result => Some result
          | CBool false => Some (error rule)
          | CBool true => None
          end
      | _ => Some (error rule)
      end
  end.

(** ** validate *)

(** The loop [for (const rule of rules) { ...; if (error) return error }]. *)
Fixpoint check_rules (d : dom) (v : t) (rs : list ValidationRule)
  : option string :=
  match rs with
  | [] => None
  | rule :: rs' =>
      match checkRule d v rule with
      | Some error =>
          if truthy error then Some error else check_rules d v rs'
      | None => check_rules d v rs'
      end
  end.

(** The same loop, recording the rules [checkRule] was called on. *)
Fixpoint check_rules_log (d : dom) (v : t) (rs : list ValidationRule)
  : list ValidationRule * option string :=
  match rs with
  | [] => ([], None)
  | rule :: rs' =>
      match checkRule d v rule with
      | Some error =>
          if truthy error then ([rule], Some error)
          else let '(l, r) := check_rules_log d v rs' in (rule :: l, r)
      | None => let '(l, r) := check_rules_log d v rs' in (rule :: l, r)
      end
  end.

(** The native validity state, consulted when every rule passed. *)
Definition native_validity (d : dom) (v : t) : option string :=
  match find_element d (element v) with
  | Some e =>
      if native_control e && negb (validity_valid (ctl e))
      then Some (or_else (validationMessage (ctl e)) "Неверное значение")
      else None
  | None => None
  end.

(** [this.value = this.getValue()] *)
Definition refresh (d : dom) (v : t) : t := with_value (getValue d v) v.

Definition validate (d : dom) (v : t) : t * option string :=
  let v' := refresh d v in
  (v',
   match check_rules d v' (rules v') with
   | Some error => Some error
   | None => native_validity d v'
   end).

(** [validate] with the record of the rules it evaluated. *)
Definition validate_log (d : dom) (v : t)
  : t * list ValidationRule * option string :=
  let v' := refresh d v in
  let '(l, r) := check_rules_log d v' (rules v') in
  (v', l,
   match r with
   | Some error => Some error
   | None => native_validity d v'
   end).

Definition is_required (rule : ValidationRule) : bool :=
  match rtype rule with Required => true | _ => false end.

(** How many [required] rules a list holds. *)
Definition count_required (rs : list ValidationRule) : nat :=
  length (List.filter is_required rs).

(** The loop goes past a rule when [checkRule] gives [null] or the
    empty string. *)
Definition silent (d : dom) (v : t) (rule : ValidationRule) : bool :=
  negb (truthy_opt (checkRule d v rule)).

(** ** The pattern builders
    Each is [pattern] or [custom] called with a literal of the library.
    The literals are written with the constructors of [Re], over the
    bytes of the string: [\d] is [0-9], [\w] is [A-Za-z0-9_], [\s] is
    one of the white-space characters, and [.] is any character but a
    line feed, a carriage return and the separators U+2028 and U+2029
    (the bytes 226, 128, 168 and 226, 128, 169). *)

Definition digit : Re.re := Re.Cls is_digit.
Definition white : Re.re := Re.OneOf white_space.
Definition space_or_dash : Re.re := Re.Alt white (Re.Chr "-").
Definition word_char (c : ascii) : bool :=
  Re.between "A" "Z" c || Re.between "a" "z" c || is_digit c
  || Ascii.eqb c "_".
Definition hex_digit (c : ascii) : bool :=
  is_digit c || Re.between "a" "f" c || Re.between "A" "F" c.
Definition any_char : Re.re :=
  Re.Alt
    (Re.Cls (fun c => negb (Ascii.eqb c "010" || Ascii.eqb c "013"
                            || Ascii.eqb c "226")))
    (Re.Cat (Re.Chr "226")
       (Re.Alt
          (Re.Cat (Re.Cls (fun c => negb (Ascii.eqb c "128")))
             (Re.Cls (fun _ => true)))
          (Re.Cat (Re.Chr "128")
             (Re.Cls (fun c => negb (Ascii.eqb c "168"
                                     || Ascii.eqb c "169")))))).

(** A regular expression of the form [/^r$/]. *)
Definition anchored (source : string) (r : Re.re) : RegExp :=
  {| source := source; test := Re.whole r |}.

(** [error || fallback] for an optional [error]. *)
Definition or_falsy (error : option string) (fallback : string) : string :=
  match error with
  | Some e => or_else e fallback
  | None => fallback
  end.

Inductive phone_country := PhoneRu | PhoneUs | PhoneEu | PhoneAny.

Definition phone_re (country : phone_country) : Re.re :=
  match country with
  | PhoneRu =>
      (* (\+7|7|8)?[s-]?\(?[489][0-9]{2}\)?[\s-]?[0-9]{3}[\s-]?[0-9]{2}[\s-]?[0-9]{2} *)
      Re.Cat (Re.Opt (Re.Alt (Re.Cat (Re.Chr "+") (Re.Chr "7"))
                        (Re.Alt (Re.Chr "7") (Re.Chr "8"))))
     (Re.Cat (Re.Opt (Re.Cls (Re.one_of ["s"; "-"]%char)))
     (Re.Cat (Re.Opt (Re.Chr "("))
     (Re.Cat (Re.Cls (Re.one_of ["4"; "8"; "9"]%char))
     (Re.Cat (Re.Rep 2 digit)
     (Re.Cat (Re.Opt (Re.Chr ")"))
     (Re.Cat (Re.Opt space_or_dash)
     (Re.Cat (Re.Rep 3 digit)
     (Re.Cat (Re.Opt space_or_dash)
     (Re.Cat (Re.Rep 2 digit)
     (Re.Cat (Re.Opt space_or_dash)
             (Re.Rep 2 digit)))))))))))
  | PhoneUs =>
      (* (\+1)?[\s-]?\(?[2-9][0-8][0-9]\)?[\s-]?[2-9][0-9]{2}[\s-]?[0-9]{4} *)
      Re.Cat (Re.Opt (Re.Cat (Re.Chr "+") (Re.Chr "1")))
     (Re.Cat (Re.Opt space_or_dash)
     (Re.Cat (Re.Opt (Re.Chr "("))
     (Re.Cat (Re.Cls (Re.between "2" "9"))
     (Re.Cat (Re.Cls (Re.between "0" "8"))
     (Re.Cat digit
     (Re.Cat (Re.Opt (Re.Chr ")"))
     (Re.Cat (Re.Opt space_or_dash)
     (Re.Cat (Re.Cls (Re.between "2" "9"))
     (Re.Cat (Re.Rep 2 digit)
     (Re.Cat (Re.Opt space_or_dash)
             (Re.Rep 4 digit)))))))))))
  | PhoneEu =>
      (* (\+[1-9]{1,3})?[s-]?\(?[0-9]{1,4}\)?[\s-]?[0-9]{1,15} *)
      Re.Cat (Re.Opt (Re.Cat (Re.Chr "+")
                        (Re.RepRange 1 3 (Re.Cls (Re.between "1" "9")))))
     (Re.Cat (Re.Opt (Re.Cls (Re.one_of ["s"; "-"]%char)))
     (Re.Cat (Re.Opt (Re.Chr "("))
     (Re.Cat (Re.RepRange 1 4 digit)
     (Re.Cat (Re.Opt (Re.Chr ")"))
     (Re.Cat (Re.Opt space_or_dash)
             (Re.RepRange 1 15 digit))))))
  | PhoneAny =>
      (* \+?[1-9][0-9]{7,14} *)
      Re.Cat (Re.Opt (Re.Chr "+"))
     (Re.Cat (Re.Cls (Re.between "1" "9")) (Re.RepRange 7 14 digit))
  end.

Definition phone_source (country : phone_country) : string :=
  match country with
  | PhoneRu =>
      "^(\+7|7|8)?[s-]?\(?[489][0-9]{2}\)?[\s-]?[0-9]{3}[\s-]?[0-9]{2}[\s-]?[0-9]{2}$"
  | PhoneUs =>
      "^(\+1)?[\s-]?\(?[2-9][0-8][0-9]\)?[\s-]?[2-9][0-9]{2}[\s-]?[0-9]{4}$"
  | PhoneEu => "^(\+[1-9]{1,3})?[s-]?\(?[0-9]{1,4}\)?[\s-]?[0-9]{1,15}$"
  | PhoneAny => "^\+?[1-9][0-9]{7,14}$"
  end.

Definition phone_default (country : phone_country) : string :=
  match country with
  | PhoneRu => "Введите российский номер телефона"
  | PhoneUs => "Введите американский номер телефона"
  | PhoneEu => "Введите европейский номер телефона"
  | PhoneAny => "Введите корректный номер телефона"
  end.

Definition phone_ (country : phone_country) (error : option string)
  : t -> t :=
  pattern_ (anchored (phone_source country) (phone_re country))
    (Some (or_falsy error (phone_default country))).

(** [url]: an optional scheme, one or more dotted labels, a last label
    of two characters or more, an optional path. *)
Definition word_or_dash : Re.re :=
  Re.Cls (fun c => word_char c || Ascii.eqb c "-").

Definition url_re : Re.re :=
  Re.Cat (Re.Opt (Re.Cat (Re.Chr "h") (Re.Cat (Re.Chr "t") (Re.Cat (Re.Chr "t")
            (Re.Cat (Re.Chr "p") (Re.Cat (Re.Opt (Re.Chr "s"))
            (Re.Cat (Re.Chr ":") (Re.Cat (Re.Chr "/") (Re.Chr "/")))))))))
 (Re.Cat (Re.Plus (Re.Cat (Re.Plus word_or_dash) (Re.Chr ".")))
 (Re.Cat (Re.Cat (Re.Rep 2 word_or_dash) (Re.Star word_or_dash))
         (Re.Opt (Re.Cat (Re.Chr "/") (Re.Star any_char))))).

Definition url_ (error : option string) : t -> t :=
  pattern_ (anchored "^(https?:\/\/)?([\w-]+\.)+[\w-]{2,}(\/.*)?$" url_re)
    (Some (or_default error "Введите корректный URL")).

(** [date] *)
Inductive date_format := DateRu | DateUs | DateIso.

(** [0[1-9]|[12][0-9]|3[01]] and [0[1-9]|1[0-2]] *)
Definition day_re : Re.re :=
  Re.Alt (Re.Cat (Re.Chr "0") (Re.Cls (Re.between "1" "9")))
 (Re.Alt (Re.Cat (Re.Cls (Re.one_of ["1"; "2"]%char)) digit)
         (Re.Cat (Re.Chr "3") (Re.Cls (Re.one_of ["0"; "1"]%char)))).

Definition month_re : Re.re :=
  Re.Alt (Re.Cat (Re.Chr "0") (Re.Cls (Re.between "1" "9")))
         (Re.Cat (Re.Chr "1") (Re.Cls (Re.between "0" "2"))).

Definition date_re (format : date_format) : Re.re :=
  match format with
  | DateRu =>
      Re.Cat day_re (Re.Cat (Re.Chr ".") (Re.Cat month_re
        (Re.Cat (Re.Chr ".") (Re.Rep 4 digit))))
  | DateUs =>
      Re.Cat month_re (Re.Cat (Re.Chr "/") (Re.Cat day_re
        (Re.Cat (Re.Chr "/") (Re.Rep 4 digit))))
  | DateIso =>
      Re.Cat (Re.Rep 4 digit) (Re.Cat (Re.Chr "-") (Re.Cat month_re
        (Re.Cat (Re.Chr "-") day_re)))
  end.

Definition date_source (format : date_format) : string :=
  match format with
  | DateRu => "^(0[1-9]|[12][0-9]|3[01])\.(0[1-9]|1[0-2])\.\d{4}$"
  | DateUs => "^(0[1-9]|1[0-2])\/(0[1-9]|[12][0-9]|3[01])\/\d{4}$"
  | DateIso => "^\d{4}-(0[1-9]|1[0-2])-(0[1-9]|[12][0-9]|3[01])$"
  end.

Definition date_default (format : date_format) : string :=
  match format with
  | DateRu => "Введите дату в формате ДД.ММ.ГГГГ"
  | DateUs => "Введите дату в формате ММ/ДД/ГГГГ"
  | DateIso => "Введите дату в формате ГГГГ-ММ-ДД"
  end.

Definition date_ (format : date_format) (error : option string) : t -> t :=
  pattern_ (anchored (date_source format) (date_re format))
    (Some (or_falsy error (date_default format))).

(** [time]: [^([01]?[0-9]|2[0-3]):[0-5][0-9]$] *)
Definition time_re : Re.re :=
  Re.Cat (Re.Alt (Re.Cat (Re.Opt (Re.Cls (Re.one_of ["0"; "1"]%char))) digit)
                 (Re.Cat (Re.Chr "2") (Re.Cls (Re.between "0" "3"))))
 (Re.Cat (Re.Chr ":") (Re.Cat (Re.Cls (Re.between "0" "5")) digit)).

Definition time_ (error : option string) : t -> t :=
  pattern_ (anchored "^([01]?[0-9]|2[0-3]):[0-5][0-9]$" time_re)
    (Some (or_default error "Введите время в формате ЧЧ:ММ")).

(** [zipCode] *)
Inductive zip_country := ZipRu | ZipUs | ZipEu.

Definition zipCode_re (country : zip_country) : Re.re :=
  match country with
  | ZipRu => Re.Rep 6 digit
  | ZipUs =>
      Re.Cat (Re.Rep 5 digit) (Re.Opt (Re.Cat (Re.Chr "-") (Re.Rep 4 digit)))
  | ZipEu => Re.RepRange 4 5 digit
  end.

Definition zipCode_source (country : zip_country) : string :=
  match country with
  | ZipRu => "^\d{6}$"
  | ZipUs => "^\d{5}(-\d{4})?$"
  | ZipEu => "^\d{4,5}$"
  end.

Definition zipCode_default (country : zip_country) : string :=
  match country with
  | ZipRu => "Введите российский почтовый индекс (6 цифр)"
  | ZipUs => "Введите американский ZIP код (5 или 9 цифр)"
  | ZipEu => "Введите европейский почтовый индекс"
  end.

Definition zipCode_ (country : zip_country) (error : option string)
  : t -> t :=
  pattern_ (anchored (zipCode_source country) (zipCode_re country))
    (Some (or_falsy error (zipCode_default country))).

(** [creditCard] *)
Inductive card_type := Visa | Mastercard | Amex | AnyCard.

Definition visa_re : Re.re :=
  Re.Cat (Re.Chr "4") (Re.Cat (Re.Rep 12 digit) (Re.Opt (Re.Rep 3 digit))).
Definition mastercard_re : Re.re :=
  Re.Cat (Re.Chr "5") (Re.Cat (Re.Cls (Re.between "1" "5")) (Re.Rep 14 digit)).
Definition amex_re : Re.re :=
  Re.Cat (Re.Chr "3")
    (Re.Cat (Re.Cls (Re.one_of ["4"; "7"]%char)) (Re.Rep 13 digit)).

Definition creditCard_re (type : card_type) : Re.re :=
  match type with
  | Visa => visa_re
  | Mastercard => mastercard_re
  | Amex => amex_re
  | AnyCard => Re.Alt visa_re (Re.Alt mastercard_re amex_re)
  end.

Definition creditCard_source (type : card_type) : string :=
  match type with
  | Visa => "^4[0-9]{12}(?:[0-9]{3})?$"
  | Mastercard => "^5[1-5][0-9]{14}$"
  | Amex => "^3[47][0-9]{13}$"
  | AnyCard =>
      "^(?:4[0-9]{12}(?:[0-9]{3})?|5[1-5][0-9]{14}|3[47][0-9]{13})$"
  end.

Definition creditCard_default (type : card_type) : string :=
  match type with
  | Visa => "Введите номер карты Visa"
  | Mastercard => "Введите номер карты MasterCard"
  | Amex => "Введите номер карты American Express"
  | AnyCard => "Введите корректный номер кредитной карты"
  end.

Definition creditCard_ (type : card_type) (error : option string) : t -> t :=
  pattern_ (anchored (creditCard_source type) (creditCard_re type))
    (Some (or_falsy error (creditCard_default type))).

(** [ipAddress] *)
Inductive ip_version := V4 | V6 | AnyIp.

(** [25[0-5]|2[0-4][0-9]|[01]?[0-9][0-9]?] *)
Definition octet_re : Re.re :=
  Re.Alt (Re.Cat (Re.Chr "2") (Re.Cat (Re.Chr "5") (Re.Cls (Re.between "0" "5"))))
 (Re.Alt (Re.Cat (Re.Chr "2") (Re.Cat (Re.Cls (Re.between "0" "4")) digit))
         (Re.Cat (Re.Opt (Re.Cls (Re.one_of ["0"; "1"]%char)))
            (Re.Cat digit (Re.Opt digit)))).

Definition v4_re : Re.re :=
  Re.Cat (Re.Rep 3 (Re.Cat octet_re (Re.Chr "."))) octet_re.

(** The pieces of the IPv6 literal: [[0-9a-fA-F]{1,4}], that group
    followed by a colon, that group after a colon, and the octet as the
    literal spells it there, [25[0-5]|(2[0-4]|1{0,1}[0-9]){0,1}[0-9]]. *)
Definition h16 : Re.re := Re.RepRange 1 4 (Re.Cls hex_digit).
Definition h16_colon : Re.re := Re.Cat h16 (Re.Chr ":").
Definition colon_h16 : Re.re := Re.Cat (Re.Chr ":") h16.

Definition octet6_re : Re.re :=
  Re.Alt (Re.Cat (Re.Chr "2") (Re.Cat (Re.Chr "5") (Re.Cls (Re.between "0" "5"))))
         (Re.Cat (Re.Opt (Re.Alt (Re.Cat (Re.Chr "2") (Re.Cls (Re.between "0" "4")))
                            (Re.Cat (Re.Opt (Re.Chr "1")) digit)))
                 digit).

Definition dotted6_re : Re.re :=
  Re.Cat (Re.Rep 3 (Re.Cat octet6_re (Re.Chr "."))) octet6_re.

Definition v6_re : Re.re :=
  Re.Alt (Re.Cat (Re.Rep 7 h16_colon) h16)
 (Re.Alt (Re.Cat (Re.RepRange 1 7 h16_colon) (Re.Chr ":"))
 (Re.Alt (Re.Cat (Re.RepRange 1 6 h16_colon) colon_h16)
 (Re.Alt (Re.Cat (Re.RepRange 1 5 h16_colon) (Re.RepRange 1 2 colon_h16))
 (Re.Alt (Re.Cat (Re.RepRange 1 4 h16_colon) (Re.RepRange 1 3 colon_h16))
 (Re.Alt (Re.Cat (Re.RepRange 1 3 h16_colon) (Re.RepRange 1 4 colon_h16))
 (Re.Alt (Re.Cat (Re.RepRange 1 2 h16_colon) (Re.RepRange 1 5 colon_h16))
 (Re.Alt (Re.Cat h16_colon (Re.RepRange 1 6 colon_h16))
 (Re.Alt (Re.Cat (Re.Chr ":")
            (Re.Alt (Re.RepRange 1 7 colon_h16) (Re.Chr ":")))
 (Re.Alt (Re.Cat (Re.Chr "f") (Re.Cat (Re.Chr "e") (Re.Cat (Re.Chr "8")
            (Re.Cat (Re.Chr "0") (Re.Cat (Re.Chr ":")
            (Re.Cat (Re.RepRange 0 4
                       (Re.Cat (Re.Chr ":")
                          (Re.RepRange 0 4 (Re.Cls hex_digit))))
            (Re.Cat (Re.Chr "%")
               (Re.Plus (Re.Cls (fun c => is_digit c || Re.between "a" "z" c
                                          || Re.between "A" "Z" c))))))))))
 (Re.Alt (Re.Cat (Re.Chr ":") (Re.Cat (Re.Chr ":")
            (Re.Cat (Re.Opt
                       (Re.Cat (Re.Chr "f") (Re.Cat (Re.Chr "f")
                       (Re.Cat (Re.Chr "f") (Re.Cat (Re.Chr "f")
                       (Re.Cat (Re.Opt (Re.Cat (Re.Chr ":")
                                          (Re.RepRange 1 4 (Re.Chr "0"))))
                               (Re.Chr ":")))))))
                    dotted6_re)))
         (Re.Cat (Re.RepRange 1 4 h16_colon)
            (Re.Cat (Re.Chr ":") dotted6_re)))))))))))).

Definition v4_source : string :=
  "^(?:(?:25[0-5]|2[0-4][0-9]|[01]?[0-9][0-9]?)\.){3}(?:25[0-5]|2[0-4][0-9]|[01]?[0-9][0-9]?)$".

Definition v6_source : string :=
  "^(([0-9a-fA-F]{1,4}:){7,7}[0-9a-fA-F]{1,4}|([0-9a-fA-F]{1,4}:){1,7}:|([0-9a-fA-F]{1,4}:){1,6}:[0-9a-fA-F]{1,4}|([0-9a-fA-F]{1,4}:){1,5}(:[0-9a-fA-F]{1,4}){1,2}|([0-9a-fA-F]{1,4}:){1,4}(:[0-9a-fA-F]{1,4}){1,3}|([0-9a-fA-F]{1,4}:){1,3}(:[0-9a-fA-F]{1,4}){1,4}|([0-9a-fA-F]{1,4}:){1,2}(:[0-9a-fA-F]{1,4}){1,5}|[0-9a-fA-F]{1,4}:((:[0-9a-fA-F]{1,4}){1,6})|:((:[0-9a-fA-F]{1,4}){1,7}|:)|fe80:(:[0-9a-fA-F]{0,4}){0,4}%[0-9a-zA-Z]{1,}|::(ffff(:0{1,4}){0,1}:){0,1}((25[0-5]|(2[0-4]|1{0,1}[0-9]){0,1}[0-9])\.){3,3}(25[0-5]|(2[0-4]|1{0,1}[0-9]){0,1}[0-9])|([0-9a-fA-F]{1,4}:){1,4}:((25[0-5]|(2[0-4]|1{0,1}[0-9]){0,1}[0-9])\.){3,3}(25[0-5]|(2[0-4]|1{0,1}[0-9]){0,1}[0-9]))$".

Definition ipAddress_default (version : ip_version) : string :=
  match version with
  | V4 => "Введите IPv4 адрес"
  | V6 => "Введите IPv6 адрес"
  | AnyIp => "Введите IP адрес"
  end.

Definition ipAddress_ (version : ip_version) (error : option string)
  : t -> t :=
  match version with
  | AnyIp =>
      custom_ (fun value => CBool (Re.whole v4_re value || Re.whole v6_re value))
        (Some (or_falsy error (ipAddress_default AnyIp)))
  | V4 =>
      pattern_ (anchored v4_source v4_re)
        (Some (or_falsy error (ipAddress_default V4)))
  | V6 =>
      pattern_ (anchored v6_source v6_re)
        (Some (or_falsy error (ipAddress_default V6)))
  end.

(** [inn]: [^\d{10}$|^\d{12}$]; [snils]: [^\d{3}-\d{3}-\d{3}\s\d{2}$] *)
Definition inn_re : Re.re := Re.Alt (Re.Rep 10 digit) (Re.Rep 12 digit).

Definition inn_ (error : option string) : t -> t :=
  pattern_ (anchored "^\d{10}$|^\d{12}$" inn_re)
    (Some (or_default error "Введите корректный ИНН")).

Definition snils_re : Re.re :=
  Re.Cat (Re.Rep 3 digit) (Re.Cat (Re.Chr "-") (Re.Cat (Re.Rep 3 digit)
 (Re.Cat (Re.Chr "-") (Re.Cat (Re.Rep 3 digit)
 (Re.Cat white (Re.Rep 2 digit)))))).

Definition snils_ (error : option string) : t -> t :=
  pattern_ (anchored "^\d{3}-\d{3}-\d{3}\s\d{2}$" snils_re)
    (Some (or_default error "Введите корректный СНИЛС")).

(** [passwordStrong]: the length, then [/[A-Z]/], [/[a-z]/], [/\d/] and
    the class of special characters. *)
Definition special_char (c : ascii) : bool :=
  Re.one_of ["!"; "@"; "#"; "$"; "%"; "^"; "&"; "*"; "("; ")"; ","; ".";
             "?"; "034"; ":"; "{"; "}"; "|"; "<"; ">"]%char c.

Definition strong (minLength : nat) (value : string) : bool :=
  if string_length value <? minLength then false
  else
    let hasUpperCase := Re.somewhere (Re.between "A" "Z") value in
    let hasLowerCase := Re.somewhere (Re.between "a" "z") value in
    let hasNumbers := Re.somewhere is_digit value in
    let hasSpecialChar := Re.somewhere special_char value in
    hasUpperCase && hasLowerCase && hasNumbers && hasSpecialChar.

Definition passwordStrong_default (minLength : nat) : string :=
  "Пароль должен содержать минимум "
  ++ NilEmpty.string_of_uint (Nat.to_uint minLength)
  ++ " символов, включая заглавные и строчные буквы, цифры и специальные символы".

Definition passwordStrong_ (minLength : nat) (error : option string)
  : t -> t :=
  custom_ (fun value => CBool (strong minLength value))
    (Some (or_falsy error (passwordStrong_default minLength))).

(** A rule whose message is not empty. *)
Definition loud (rule : ValidationRule) : Prop := truthy (error rule) = true.





(** What the selector of [getValue] matches: an [input] whose [type]
    attribute is [radio] in any case of letters, whose [name] attribute
    is [name], and which is checked. *)
Definition is_checked_radio (name : string) (n : node) : bool :=
  match n with
  | Elem _ e _ =>
      is_tag "input" e
      && match getAttribute "type" e with
         | Some ty => String.eqb (ascii_lowercase ty) "radio"
         | None => false
         end
      && opt_eqb (getAttribute "name" e) name
      && checked (ctl e)
  | Text _ => false
  end.

(** The builder [b] appends one rule, and that rule satisfies [P]. *)
Definition pushes (b : t -> t) (v : t) (P : ValidationRule -> Prop) : Prop :=
  exists rule, rules (b v) = (rules v ++ [rule])%list /\ P rule.

(** [v'] is an engine of the same field as [v], with the same cached
    value. *)
Definition same_field (v v' : t) : Prop :=
  element v' = element v /\ form v' = form v
  /\ fieldName v' = fieldName v /\ value v' = value v.

End Validator.

(* ===================================================================== *)
(** * The [isArray] family of the sibling implementation, core/fields.ts  *)
(* ===================================================================== *)

Module Fields.
Import Js.

(** [v && typeof v.length === 'number'] *)
Definition hasLengthProp (x : value) : bool :=
  match x with
  | VString s => truthy s
  | VFileList _ | VArray _ | VArrayLike _ => true
  | _ => false
  end.

(** The [isArray] case of [checkRule] in core/fields.ts: [true] when
    the rule fails. *)
Definition isArray_fails (x : value) : bool :=
  match x with
  | VFileList n => negb (0 <? n)
  | _ => negb (Array_isArray x || hasLengthProp x)
  end.

End Fields.

(* ===================================================================== *)
(** * V: the orchestrator                                                 *)
(* ===================================================================== *)

Module V.
Import Js Dom Exn.
Definition FieldOptions := FormConnector.FieldOptions.

(** [errors] is a plain object: the model holds its own properties. *)
Record ValidationResult := {
  isValid : bool;
  errors : gmap string (option string)
}.

(** The orchestrator object.  An engine is an object of its own: the
    map [validators] holds its address in the [heap] of the state. *)
Record t := {
  form : FormConnector.t;
  validators : JsMap.t nat;
  options : FieldOptions
}.

(** The orchestrator, the DOM it works on, and the engines created so
    far. *)
Record state := {
  self : t;
  document : dom;
  heap : list Validator.t
}.

Definition with_document (d : dom) (s : state) : state :=
  {| self := self s; document := d; heap := heap s |}.

(** [new V(element, options)], [V.form(element, options)] *)
Definition new (d : dom) (element : nat) (o : option FieldOptions) : state :=
  let o' := match o with Some x => x | None => FormConnector.no_options end in
  {| self := {| form := FormConnector.new d element o';
                validators := JsMap.empty;
                options := o' |};
     document := d;
     heap := [] |}.

Definition form_ (d : dom) (element : nat) (o : option FieldOptions)
  : state := new d element o.

Definition createValidator (d : dom) (element : nat)
  (o : option FieldOptions) : state := form_ d element o.

Definition not_found (fieldName : string) : thrown :=
  Error ("Поле " ++ quote ++ fieldName ++ quote ++ " не найдено в форме").

Definition no_validator (fieldName : string) : thrown :=
  Error ("Валидатор для поля " ++ quote ++ fieldName ++ quote
         ++ " не найден").

(** [field(fieldName)]: the address of the engine of the field
    ([validators.get(fieldName)]). *)
Definition field (fieldName : string) (s : state)
  : state * result (option nat) :=
  match FormConnector.field (form (self s)) fieldName with
  | None => (s, Throw (not_found fieldName))
  | Some element =>
      if negb (JsMap.has fieldName (validators (self s))) then
        match
          Validator.new (document s) element
            (FormConnector.getFormElement (form (self s))) fieldName
        with
        | Return v =>
            let vs := JsMap.set fieldName (length (heap s))
                        (validators (self s)) in
            ({| self := {| form := form (self s); validators := vs;
                           options := options (self s) |};
                document := document s;
                heap := heap s ++ [v] |},
             Return (JsMap.get fieldName vs))
        | Throw e => (s, Throw e)
        end
      else (s, Return (JsMap.get fieldName (validators (self s))))
  end.

(** A builder call on the engine at address [l]. *)
Definition attach (l : nat) (builder : Validator.t -> Validator.t)
  (s : state) : state :=
  {| self := self s; document := document s;
     heap := alter builder l (heap s) |}.

(** ** showError and clearError *)

Definition remove_if_set (c : option string) (element : nat) (d : dom)
  : dom :=
  match c with
  | Some x => if truthy x then classList_remove element x d else d
  | None => d
  end.

Definition add_if_set (c : option string) (element : nat) (d : dom) : dom :=
  match c with
  | Some x => if truthy x then classList_add element x d else d
  | None => d
  end.

(** [options.x ? add(options.x) : add(fallback)], and the same with
    [remove]. *)
Definition add_or (c : option string) (fallback : string) (element : nat)
  (d : dom) : dom :=
  if truthy_opt c then add_if_set c element d
  else classList_add element fallback d.

Definition remove_or (c : option string) (fallback : string)
  (element : nat) (d : dom) : dom :=
  if truthy_opt c then remove_if_set c element d
  else classList_remove element fallback d.

(** The [div] that [showError] creates. *)
Definition new_container (i : nat) (fieldName : string) : node :=
  Elem i (plain "div" [("data-field", fieldName)] ["error-message"]) [].

(** Where a new container goes: under the parent of the label, right
    after the label, when the label has a parent and a next sibling;
    else at the end of the parent of the control; else nowhere. *)
Definition placement (c : FormConnector.t) (fieldName : string)
  (element : nat) (d : dom) : option (nat * option nat) :=
  let after_label :=
    match FormConnector.getLabel c fieldName with
    | Some label =>
        match parentElement d label, nextSibling d label with
        | Some p, Some _ => Some (node_id p, Some label)
        | _, _ => None
        end
    | None => None
    end in
  match after_label with
  | Some place => Some place
  | None =>
      match parentElement d element with
      | Some parent => Some (node_id parent, None)
      | None => None
      end
  end.

(** Creates the container and puts it in its place. *)
Definition create_container (c : FormConnector.t) (fieldName : string)
  (element : nat) (d : dom) : nat * dom :=
  let i := fresh d in
  let errorContainer := new_container i fieldName in
  match placement c fieldName element d with
  | Some (p, Some label) => (i, insertAfter p label errorContainer d)
  | Some (p, None) => (i, appendChild p errorContainer d)
  | None => (i, add_detached errorContainer d)
  end.

(** The class changes of [showError] and of [clearError]. *)
Definition mark_error (o : FieldOptions) (element : nat) (d : dom) : dom :=
  let d1 := remove_if_set (FormConnector.validClass o) element d in
  let d2 := add_if_set (FormConnector.invalidClass o) element d1 in
  add_or (FormConnector.errorClass o) "error" element d2.

Definition mark_valid (o : FieldOptions) (element : nat) (d : dom) : dom :=
  let d1 := remove_or (FormConnector.errorClass o) "error" element d in
  let d2 := remove_if_set (FormConnector.invalidClass o) element d1 in
  add_or (FormConnector.validClass o) "valid" element d2.

Definition showError (fieldName error : string) (s : state) : state :=
  match FormConnector.field (form (self s)) fieldName with
  | None => s
  | Some element =>
      let d3 := mark_error (options (self s)) element (document s) in
      let '(errorContainer, d4) :=
        match FormConnector.getErrorContainer d3 (form (self s)) fieldName with
        | Some c => (c, d3)
        | None => create_container (form (self s)) fieldName element d3
        end in
      let d5 := set_textContent errorContainer error d4 in
      with_document (set_style_display errorContainer "block" d5) s
  end.

Definition clearError (fieldName : string) (s : state) : state :=
  match FormConnector.field (form (self s)) fieldName with
  | None => s
  | Some element =>
      let d3 := mark_valid (options (self s)) element (document s) in
      match FormConnector.getErrorContainer d3 (form (self s)) fieldName with
      | Some errorContainer =>
          let d4 := set_textContent errorContainer "" d3 in
          with_document (set_style_display errorContainer "none" d4) s
      | None => with_document d3 s
      end
  end.

(** The nodes a presentation of the field can change: its control, and
    its error container or, when there is none, the node a new container
    would be put under. *)
Definition touched (fieldName : string) (s : state) : list nat :=
  match FormConnector.field (form (self s)) fieldName with
  | None => []
  | Some element =>
      element ::
      match
        FormConnector.getErrorContainer (document s) (form (self s)) fieldName
      with
      | Some c => [c]
      | None =>
          match placement (form (self s)) fieldName element (document s) with
          | Some (p, _) => [p]
          | None => []
          end
      end
  end.

(** [if (error) showError(fieldName, error) else clearError(fieldName)] *)
Definition present (fieldName : string) (error : option string) (s : state)
  : state :=
  match error with
  | Some e => if truthy e then showError fieldName e s
              else clearError fieldName s
  | None => clearError fieldName s
  end.

(** [validator.validate()] on the engine at address [l]: the engine
    keeps the value it has read. *)
Definition run_engine (l : nat) (s : state) : option (state * option string) :=
  match heap s !! l with
  | Some validator =>
      let '(validator', error) := Validator.validate (document s) validator in
      Some ({| self := self s; document := document s;
               heap := <[l := validator']> (heap s) |}, error)
  | None => None
  end.

(** ** validate *)

(** One turn of the loop over [validators]. *)
Definition validate_step (acc : state * ValidationResult)
  (entry : string * nat) : state * ValidationResult :=
  let '(s, r) := acc in
  let '(fieldName, l) := entry in
  match run_engine l s with
  | Some (s1, error) =>
      (present fieldName error s1,
       {| isValid := if truthy_opt error then false else isValid r;
          errors := obj_set fieldName error (errors r) |})
  | None => (s, r)
  end.

Definition validate (s : state) : state * ValidationResult :=
  fold_left validate_step (validators (self s))
    (s, {| isValid := true; errors := ∅ |}).

(** ** validateField *)

Definition validateField (fieldName : string) (s : state)
  : state * result (option string) :=
  match JsMap.get fieldName (validators (self s)) with
  | None => (s, Throw (no_validator fieldName))
  | Some l =>
      match run_engine l s with
      | Some (s1, error) => (present fieldName error s1, Return error)
      | None => (s, Return None)
      end
  end.

(** ** reset, getForm *)

Definition reset (s : state) : state :=
  fold_left (fun s' entry => clearError (fst entry) s')
    (validators (self s)) s.

Definition getForm (s : state) : nat :=
  FormConnector.getFormElement (form (self s)).

(** Every engine the orchestrator knows is in the heap. *)
Definition engines_ok (s : state) : Prop :=
  forall k l, JsMap.get k (validators (self s)) = Some l ->
              l < length (heap s).

(** The options [showError] and [clearError] can work with: each class
    name given is one token, and the [errorContainer] option of the
    registry is a selector the model reads as the platform does; with
    other options [classList] or [querySelector] throws. *)
Definition class_ok (c : option string) : bool :=
  match c with
  | Some x => negb (truthy x) || token x
  | None => true
  end.

Definition presentable (s : state) : bool :=
  class_ok (FormConnector.errorClass (options (self s)))
  && class_ok (FormConnector.validClass (options (self s)))
  && class_ok (FormConnector.invalidClass (options (self s)))
  && FormConnector.option_ok
       (FormConnector.errorContainer (FormConnector.options (form (self s)))).

(** The class names of the presentation: [options.x ? options.x :
    fallback], and a class list after the [remove] and the [add] that
    are done when the option is set. *)
Definition class_or (c : option string) (fallback : string) : string :=
  match c with
  | Some x => if truthy x then x else fallback
  | None => fallback
  end.

Definition remove_set (c : option string) (l : list string) : list string :=
  match c with
  | Some x => if truthy x then class_remove x l else l
  | None => l
  end.


End V.

(* ===================================================================== *)
(** * A session with one orchestrator                                     *)
(* ===================================================================== *)

Module Session.
Import Dom Exn.

(** What can happen to an orchestrator after it was built: the calls of
    its public methods, a rule-builder call on one of its engines, and
    the page changing the document (typing into a control, a script
    rewriting the form). *)
Inductive call :=
  | Field (fieldName : string)
  | Attach (l : nat) (rule : Validator.ValidationRule)
  | Validate
  | ValidateField (fieldName : string)
  | Reset
  | Page (change : dom -> dom).

Definition step (s : V.state) (c : call) : V.state :=
  match c with
  | Field fieldName => fst (V.field fieldName s)
  | Attach l rule => V.attach l (Validator.push rule) s
  | Validate => fst (V.validate s)
  | ValidateField fieldName => fst (V.validateField fieldName s)
  | Reset => V.reset s
  | Page change => V.with_document (change (V.document s)) s
  end.

Definition run (cs : list call) (s : V.state) : V.state :=
  fold_left step cs s.


(** [field(fieldName)] is among the calls. *)
Fixpoint touches (fieldName : string) (cs : list call) : bool :=
  match cs with
  | [] => false
  | Field n :: cs' => String.eqb fieldName n || touches fieldName cs'
  | _ :: cs' => touches fieldName cs'
  end.

(** The engines are the values of [validators], one name each, in the
    order of their creation. *)
Definition inv (s : V.state) : Prop :=
  NoDup (JsMap.keys (V.validators (V.self s)))
  /\ map snd (V.validators (V.self s)) = seq 0 (length (V.heap s)).

End Session.

(* ===================================================================== *)
(** * Sample pages                                                        *)
(* ===================================================================== *)

Module Sample.
Import Js Dom.

Definition input_control (ty v : string) : control :=
  {| type := ty; value := v; checked := false; valueAsNumber := NaN;
     files := VNull; required := false; minLength := (-1)%Z;
     maxLength := (-1)%Z; min := ""; max := ""; pattern := "";
     pattern_RegExp := None; validationMessage := "";
     validity_valid := true |}.

(** [<input type=ty ...a value=v>] *)
Definition input (ty : string) (a : list (string * string)) (v : string)
  : element :=
  {| tagName := "input"; attrs := ("type", ty) :: a; classList := [];
     style_display := ""; ctl := input_control ty v |}.

(** [<input type=text required ...a>], empty. *)
Definition required_input (a : list (string * string)) : element :=
  {| tagName := "input";
     attrs := ("type", "text") :: ("required", "") :: a;
     classList := []; style_display := "";
     ctl :=
       {| type := "text"; value := ""; checked := false;
          valueAsNumber := NaN; files := VNull; required := true;
          minLength := (-1)%Z; maxLength := (-1)%Z; min := ""; max := "";
          pattern := ""; pattern_RegExp := None;
          validationMessage := ""; validity_valid := true |} |}.

(** [<input type=file ...a>] holding [fs]. *)
Definition file_input (a : list (string * string)) (fs : Js.value)
  : element :=
  {| tagName := "input"; attrs := ("type", "file") :: a; classList := [];
     style_display := "";
     ctl :=
       {| type := "file"; value := ""; checked := false;
          valueAsNumber := NaN; files := fs; required := false;
          minLength := (-1)%Z; maxLength := (-1)%Z; min := ""; max := "";
          pattern := ""; pattern_RegExp := None;
          validationMessage := ""; validity_valid := true |} |}.

Definition page (form_children : list node) : dom :=
  {| root := Elem 0 (plain "html" [] [])
               [Elem 1 (plain "form" [] []) form_children];
     detached := [] |}.

(** [<form><input name=a></form>], the input empty. *)
Definition one_field : dom :=
  page [Elem 2 (input "text" [("name", "a")] "") []].

(** [<form><input type=file name=files></form>] with two files chosen. *)
Definition two_files : dom :=
  page [Elem 2 (file_input [("name", "files")] (VFileList 2)) []].

(** The same control holding the plain object [{ length: 2 }]. *)
Definition length_two : dom :=
  page [Elem 2 (file_input [("name", "files")] (VArrayLike 2)) []].

(** [<form><input type=text required name=a></form>] *)
Definition required_field : dom :=
  page [Elem 2 (required_input [("name", "a")]) []].

(** [<form><div class=field><span class=msg-error></span>
    <input name=age></div></form>] *)
Definition error_before_control : dom :=
  page [Elem 2 (plain "div" [] ["field"])
          [Elem 3 (plain "span" [] ["msg-error"]) [];
           Elem 4 (input "text" [("name", "age")] "") []]].

(** [<form><div class=msg-error><input name=age>
    <span class=hint></span></div></form>] *)
Definition error_around_control : dom :=
  page [Elem 2 (plain "div" [] ["msg-error"])
          [Elem 3 (input "text" [("name", "age")] "") [];
           Elem 4 (plain "span" [] ["hint"]) []]].

Definition msg_error_option : FormConnector.FieldOptions :=
  {| FormConnector.label := None;
     FormConnector.errorContainer := Some ".msg-error";
     FormConnector.errorClass := None;
     FormConnector.fieldClass := None;
     FormConnector.validClass := None;
     FormConnector.invalidClass := None |}.

(** [<form><input field-name=a name=x><input field-name=a name=y></form>] *)
Definition same_marker_twice : dom :=
  page [Elem 2 (input "text" [("field-name", "a"); ("name", "x")] "") [];
        Elem 3 (input "text" [("field-name", "a"); ("name", "y")] "") []].

(** [<form><input field-name=email name=email></form>] *)
Definition marker_equals_name : dom :=
  page [Elem 2 (input "text" [("field-name", "email"); ("name", "email")] "")
          []].

(** [<form><input field-name=user-email name=email id=email>
    <input name=email></form>] *)
Definition marker_and_name : dom :=
  page [Elem 2 (input "text" [("field-name", "user-email");
                              ("name", "email"); ("id", "email")] "") [];
        Elem 3 (input "text" [("name", "email")] "") []].

(** [<form><input name=a><input name=b><div id=errors></div></form>],
    to go with the option [errorContainer: '#errors']. *)
Definition global_container : dom :=
  page [Elem 2 (input "text" [("name", "a")] "") [];
        Elem 3 (input "text" [("name", "b")] "ok") [];
        Elem 4 (plain "div" [("id", "errors")] []) []].

Definition errors_option : FormConnector.FieldOptions :=
  {| FormConnector.label := None;
     FormConnector.errorContainer := Some "#errors";
     FormConnector.errorClass := None;
     FormConnector.fieldClass := None;
     FormConnector.validClass := None;
     FormConnector.invalidClass := None |}.

(** [<form><div><input name=a><div class=error-message></div></div>
    <div><input name=b><div class=error-message></div></div></form>] *)
Definition own_containers : dom :=
  page [Elem 2 (plain "div" [] [])
          [Elem 3 (input "text" [("name", "a")] "") [];
           Elem 4 (plain "div" [] ["error-message"]) []];
        Elem 5 (plain "div" [] [])
          [Elem 6 (input "text" [("name", "b")] "ok") [];
           Elem 7 (plain "div" [] ["error-message"]) []]].

(** The engine of [one_field] with the rules given. *)
Definition engine (rs : list Validator.ValidationRule) : Validator.t :=
  {| Validator.element := 2; Validator.form := 1; Validator.rules := rs;
     Validator.fieldName := "a"; Validator.value := VUndefined |}.

Definition rule (ty : Validator.rule_type) (msg : string)
  : Validator.ValidationRule :=
  {| Validator.rtype := ty; Validator.error := msg |}.

(** How many nodes of the document bear the class [c]. *)
Definition count_class (c : string) (d : dom) : nat :=
  length (List.filter (FormConnector.has_class c) (elements (root d))).

(** An orchestrator over [d] after [field(name).required()]. *)
Definition with_required (d : dom) (name : string) : V.state :=
  Session.run [Session.Field name;
               Session.Attach 0
                 (rule Validator.Required "Поле обязательно для заполнения")]
    (V.new d 1 None).


(** [validate()] on the one-field form with [required()], once and
    twice in a row. *)
Definition once : V.state * V.ValidationResult :=
  V.validate (with_required one_field "a").

Definition twice : V.state * V.ValidationResult := V.validate (fst once).

(** [<form><input type=number name=a></form>], empty. *)
Definition number_field : dom :=
  page [Elem 2 (input "number" [("name", "a")] "") []].

(** [<form><input type=checkbox name=agree value=on></form>], not
    checked. *)
Definition checkbox_field : dom :=
  page [Elem 2 (input "checkbox" [("name", "agree")] "on") []].

(** [<input type=radio ...a value=v>], checked or not. *)
Definition radio (a : list (string * string)) (v : string) (chk : bool)
  : element :=
  {| tagName := "input"; attrs := ("type", "radio") :: a; classList := [];
     style_display := "";
     ctl :=
       {| type := "radio"; value := v; checked := chk;
          valueAsNumber := NaN; files := VNull; required := false;
          minLength := (-1)%Z; maxLength := (-1)%Z; min := ""; max := "";
          pattern := ""; pattern_RegExp := None;
          validationMessage := ""; validity_valid := true |} |}.

(** [<form><input type=radio name=color value=red>
    <input type=radio name=color value=blue checked></form>] *)
Definition radio_group : dom :=
  page [Elem 2 (radio [("name", "color")] "red" false) [];
        Elem 3 (radio [("name", "color")] "blue" true) []].

(** [<form><input name=__proto__></form>], the input empty. *)
Definition proto_field : dom :=
  page [Elem 2 (input "text" [("name", "__proto__")] "") []].

(** [<form><input name=a id=x><input name=a id=y></form>] *)
Definition same_name_twice : dom :=
  page [Elem 2 (input "text" [("name", "a"); ("id", "x")] "") [];
        Elem 3 (input "text" [("name", "a"); ("id", "y")] "") []].

End Sample.

(* ===================================================================== *)
(** * The rule engine: evaluation order, [isArray], implicit rules        *)
(* ===================================================================== *)

Open Scope list_scope.

Module ValidatorFacts.
Import Js Dom Exn Validator.

Section loop.
Variables (d : dom) (v : Validator.t).
Implicit Types (rule : ValidationRule) (rs : list ValidationRule).

Lemma check_rules_log_result rs :
  snd (check_rules_log d v rs) = check_rules d v rs.
Proof.
  induction rs as [|rule rs IH]; simpl; [done|].
  destruct (checkRule d v rule) as [e|].
  - destruct (truthy e); [done|].
    destruct (check_rules_log d v rs); simpl in *; done.
  - destruct (check_rules_log d v rs); simpl in *; done.
Qed.

Lemma silent_step rule rs :
  silent d v rule = true ->
  check_rules_log d v (rule :: rs)
  = (rule :: fst (check_rules_log d v rs), snd (check_rules_log d v rs)).
Proof.
  unfold silent. simpl.
  destruct (checkRule d v rule) as [e|]; simpl.
  - destruct (truthy e); [done|].
    intros _. by destruct (check_rules_log d v rs).
  - intros _. by destruct (check_rules_log d v rs).
Qed.

(** The loop stops at the first rule that yields a non-empty
    message, and has called [checkRule] on the rules up to it. *)
Lemma check_rules_log_stop pre rule post m :
  forallb (silent d v) pre = true ->
  checkRule d v rule = Some m ->
  truthy m = true ->
  check_rules_log d v (pre ++ rule :: post) = (pre ++ [rule], Some m).
Proof.
  intros Hpre Hrule Hm.
  induction pre as [|p pre IH].
  - simpl. by rewrite Hrule, Hm.
  - simpl in Hpre. apply andb_true_iff in Hpre as [Hp Hpre].
    rewrite <- app_comm_cons, silent_step by done.
    by rewrite IH.
Qed.

(** What the loop returns is never the empty string. *)
Lemma check_rules_truthy rs m :
  check_rules d v rs = Some m -> truthy m = true.
Proof.
  induction rs as [|rule rs IH]; simpl; [done|].
  destruct (checkRule d v rule) as [e|]; [|done].
  destruct (truthy e) eqn:He; [|done].
  by intros [= <-].
Qed.

(** When every rule is silent the loop has called them all. *)
Lemma check_rules_log_all rs :
  forallb (silent d v) rs = true ->
  check_rules_log d v rs = (rs, None).
Proof.
  induction rs as [|rule rs IH]; simpl; [done|].
  intros [Hr Hrs]%andb_true_iff.
  pose proof (silent_step rule rs Hr) as E. simpl in E.
  rewrite E, IH by done. done.
Qed.

End loop.

Lemma validate_log_validate d v :
  (fst (fst (validate_log d v)), snd (validate_log d v)) = validate d v.
Proof.
  unfold validate_log, validate.
  pose proof (check_rules_log_result d (refresh d v) (rules (refresh d v))) as E.
  destruct (check_rules_log d (refresh d v) (rules (refresh d v))) as [l r].
  simpl in *. by rewrite E.
Qed.

Lemma or_else_truthy a b : truthy b = true -> truthy (or_else a b) = true.
Proof. unfold or_else. by destruct (truthy a) eqn:E. Qed.

(** [validate] returns [null] or a non-empty message. *)
Lemma validate_truthy d v m :
  snd (validate d v) = Some m -> truthy m = true.
Proof.
  unfold validate. simpl.
  destruct (check_rules d _ _) as [e|] eqn:E.
  - intros [= <-]. by eapply check_rules_truthy.
  - unfold native_validity.
    destruct (find_element d _) as [e|]; [|done].
    destruct (native_control e && negb (validity_valid (ctl e))); [|done].
    intros [= <-]. by apply or_else_truthy.
Qed.

Lemma rules_refresh d v : rules (refresh d v) = rules v.
Proof. done. Qed.

(** C1, amended.  [validate] first refreshes the cached value; the
    rules are then taken in insertion order against that value, and the
    first one whose check yields a non-empty message ends the loop:
    that message is returned and [checkRule] has been called on the
    rules before it and on it, on no later rule.  (A rule whose check
    yields the empty string counts as passing.) *)
Theorem validate_first_failure d v pre A post m :
  rules v = pre ++ A :: post ->
  forallb (silent d (refresh d v)) pre = true ->
  checkRule d (refresh d v) A = Some m ->
  truthy m = true ->
  validate d v = (refresh d v, Some m)
  /\ validate_log d v = (refresh d v, pre ++ [A], Some m)
  /\ value (refresh d v) = getValue d v.
Proof.
  intros Hrules Hpre HA Hm.
  assert (validate_log d v = (refresh d v, pre ++ [A], Some m)) as E.
  { unfold validate_log. rewrite rules_refresh, Hrules.
    by rewrite (check_rules_log_stop d _ pre A post m). }
  split; [|done].
  rewrite <- validate_log_validate, E. done.
Qed.

Lemma validate_first_failure_witness :
  validate Sample.one_field
    (Sample.engine [Sample.rule IsString "s"; Sample.rule Required "r";
                    Sample.rule (Min (of_nat 3)) "m"])
  = (refresh Sample.one_field (Sample.engine
       [Sample.rule IsString "s"; Sample.rule Required "r";
        Sample.rule (Min (of_nat 3)) "m"]), Some "r")
  /\ validate_log Sample.one_field
       (Sample.engine [Sample.rule IsString "s"; Sample.rule Required "r";
                       Sample.rule (Min (of_nat 3)) "m"])
     = (refresh Sample.one_field (Sample.engine
          [Sample.rule IsString "s"; Sample.rule Required "r";
           Sample.rule (Min (of_nat 3)) "m"]),
        [Sample.rule IsString "s"] ++ [Sample.rule Required "r"], Some "r")
  /\ value (refresh Sample.one_field (Sample.engine
              [Sample.rule IsString "s"; Sample.rule Required "r";
               Sample.rule (Min (of_nat 3)) "m"]))
     = getValue Sample.one_field (Sample.engine
         [Sample.rule IsString "s"; Sample.rule Required "r";
          Sample.rule (Min (of_nat 3)) "m"]).
Proof.
  apply (validate_first_failure Sample.one_field _
           [Sample.rule IsString "s"] (Sample.rule Required "r")
           [Sample.rule (Min (of_nat 3)) "m"] "r");
    reflexivity.
Defined.

(** C1 as stated fails.  On an empty text control with the rules
    [required('')] and [min(3, 'short')], both rules fail on the value,
    yet [validate] goes past the first, evaluates the second and
    returns the second's message. *)
Lemma validate_empty_message_counterexample :
  let A := Sample.rule Required "" in
  let B := Sample.rule (Min (of_nat 3)) "short" in
  let v := Sample.engine [A; B] in
  checkRule Sample.one_field (refresh Sample.one_field v) A = Some (error A)
  /\ checkRule Sample.one_field (refresh Sample.one_field v) B
     = Some (error B)
  /\ snd (validate Sample.one_field v) = Some (error B)
  /\ snd (fst (validate_log Sample.one_field v)) = [A; B]
  /\ String.eqb (error A) (error B) = false.
Proof. repeat split. Qed.

(** ** The [isArray] rule *)

Lemma checkRule_isArray d v msg :
  checkRule d v {| rtype := IsArray; error := msg |}
  = if Array_isArray (value v) then None else Some msg.
Proof. unfold checkRule, fails. simpl. by destruct (Array_isArray _). Qed.

(** C2.  In core/validator.ts the [isArray] rule passes on true arrays
    only.  A file control with two files chosen, and the same control
    holding [{ length: 2 }], both fail [array()], although each value
    has a numeric [length]; the [isArray] case of core/fields.ts lets
    both through. *)
Theorem isArray_rejects_array_like :
  snd (validate Sample.two_files (array_ None (Sample.engine [])))
  = Some "Поле должно быть массивом"
  /\ snd (validate Sample.length_two (array_ None (Sample.engine [])))
     = Some "Поле должно быть массивом"
  /\ Fields.isArray_fails (VFileList 2) = false
  /\ Fields.isArray_fails (VArrayLike 2) = false.
Proof. repeat split. Qed.

(** ** Implicit rules *)

Lemma rules_push rule v : rules (push rule v) = rules v ++ [rule].
Proof. done. Qed.

Lemma rules_when (b : bool) rule v :
  rules (when b (push rule) v) = rules v ++ (if b then [rule] else []).
Proof. destruct b; simpl; [done|]. by rewrite app_nil_r. Qed.

Lemma count_required_app rs rs' :
  count_required (rs ++ rs') = count_required rs + count_required rs'.
Proof. unfold count_required. by rewrite List.filter_app, length_app. Qed.

(** The rules a constructor derives come before whatever is attached
    later: a builder call appends. *)
Lemma implicit_rules_first rule v : exists l, rules (push rule v) = rules v ++ l.
Proof. by exists [rule]. Qed.

(** On every [required] input the constructor derives [Required] twice:
    once in [loadInputConstraints], once more at the end of
    [loadConstraintValidation]. *)
Lemma required_twice_on_inputs e v v' :
  is_tag "input" e = true ->
  required (ctl e) = true ->
  loadConstraintValidation e v = Return v' ->
  count_required (rules v') = 2 + count_required (rules v).
Proof.
  intros Hin Hreq. unfold loadConstraintValidation, native_control.
  rewrite Hin, Hreq. simpl.
  unfold loadInputConstraints. rewrite Hreq.
  unfold required_, min_, max_, minNumber_, maxNumber_, pattern_, email_.
  destruct (text_type e && truthy (pattern (ctl e))).
  - destruct (pattern_RegExp (ctl e)); simpl; [|done].
    intros [= <-].
    repeat (rewrite rules_push || rewrite rules_when).
    rewrite !count_required_app.
    repeat match goal with |- context [if ?b then _ else _] =>
      destruct b end; unfold count_required; simpl; lia.
  - simpl. intros [= <-].
    repeat (rewrite rules_push || rewrite rules_when).
    rewrite !count_required_app.
    repeat match goal with |- context [if ?b then _ else _] =>
      destruct b end; unfold count_required; simpl; lia.
Qed.

(** C3.  For [<input type=text required>] the constructor leaves two
    [Required] rules in the engine, not one. *)
Theorem required_is_derived_twice :
  Validator.new Sample.required_field 2 1 "a"
  = Return
      (refresh Sample.required_field
         (Sample.engine
            [Sample.rule Required "Поле обязательно для заполнения";
             Sample.rule Required "Поле обязательно для заполнения"])).
Proof. reflexivity. Qed.

End ValidatorFacts.

(* ===================================================================== *)
(** * The [Map]                                                           *)
(* ===================================================================== *)

Module JsMapFacts.
Import JsMap.

Section map.
Context {A : Type}.
Implicit Types (m : JsMap.t A) (k : string) (a : A).

Lemma get_set_eq k a m : get k (set k a m) = Some a.
Proof.
  induction m as [|[k' a'] m IH]; simpl.
  - by rewrite String.eqb_refl.
  - destruct (String.eqb k k') eqn:E; simpl; rewrite E; done.
Qed.

Lemma get_set_ne k k' a m : k <> k' -> get k (set k' a m) = get k m.
Proof.
  intros Hne. induction m as [|[k'' a'] m IH]; simpl.
  - destruct (String.eqb k k') eqn:E; [|done].
    by apply String.eqb_eq in E.
  - destruct (String.eqb k' k'') eqn:E; simpl.
    + apply String.eqb_eq in E as <-.
      destruct (String.eqb k k') eqn:E'; [|done].
      by apply String.eqb_eq in E'.
    + by rewrite IH.
Qed.

Lemma has_true k m : has k m = true <-> exists a, get k m = Some a.
Proof.
  unfold has. destruct (get k m); split; try done.
  - by eexists.
  - by intros [? ?].
Qed.

Lemma has_false k m : has k m = false <-> get k m = None.
Proof. unfold has. by destruct (get k m). Qed.

Lemma get_keys k m : get k m = None <-> k ∉ keys m.
Proof.
  unfold keys. induction m as [|[k' a'] m IH]; simpl.
  - split; [|done]. intros _ H. inversion H.
  - destruct (String.eqb k k') eqn:E.
    + apply String.eqb_eq in E as <-. split; [done|].
      intros H. exfalso. apply H. left.
    + rewrite IH. apply String.eqb_neq in E.
      split.
      * intros H [?|?]%elem_of_cons; done.
      * intros H ?. apply H. by right.
Qed.

(** A new key goes to the end; a known key keeps its place. *)
Lemma set_new k a m : get k m = None -> set k a m = m ++ [(k, a)].
Proof.
  induction m as [|[k' a'] m IH]; simpl; [done|].
  destruct (String.eqb k k'); [done|].
  intros H. by rewrite IH.
Qed.

Lemma keys_set_known k a m :
  get k m <> None -> keys (set k a m) = keys m.
Proof.
  unfold keys. induction m as [|[k' a'] m IH]; simpl; [done|].
  destruct (String.eqb k k'); simpl; [done|].
  intros H. by rewrite IH.
Qed.

End map.

End JsMapFacts.

(* ===================================================================== *)
(** * Lists and trees                                                     *)
(* ===================================================================== *)

Module ListFacts.

Lemma map_fmap {A B} (f : A -> B) (l : list A) : List.map f l = f <$> l.
Proof. reflexivity. Qed.

Lemma flat_map_bind {A B} (f : A -> list B) (l : list A) :
  flat_map f l = l ≫= f.
Proof. reflexivity. Qed.

Lemma elem_of_map {A B} (f : A -> B) (l : list A) (y : B) :
  y ∈ List.map f l <-> exists x, y = f x /\ x ∈ l.
Proof. rewrite map_fmap. apply list_elem_of_fmap. Qed.

Lemma elem_of_flat_map {A B} (f : A -> list B) (l : list A) (y : B) :
  y ∈ flat_map f l <-> exists x, y ∈ f x /\ x ∈ l.
Proof. rewrite flat_map_bind. apply list_elem_of_bind. Qed.

Lemma elem_of_filter_bool {A} (p : A -> bool) (l : list A) (x : A) :
  x ∈ List.filter p l <-> p x = true /\ x ∈ l.
Proof. rewrite !list_elem_of_In, filter_In. tauto. Qed.

(** In a list without repeated keys an element is known by its key. *)
Lemma key_unique {A} (key : A -> nat) (l : list A) (x y : A) :
  NoDup (List.map key l) -> x ∈ l -> y ∈ l -> key x = key y -> x = y.
Proof.
  induction l as [|a l IH]; simpl; intros Hnd Hx Hy E.
  - by apply elem_of_nil in Hx.
  - apply NoDup_cons in Hnd as [Ha Hnd].
    apply elem_of_cons in Hx as [->|Hx]; apply elem_of_cons in Hy as [->|Hy].
    + done.
    + exfalso. apply Ha. rewrite E. apply elem_of_map. eauto.
    + exfalso. apply Ha. rewrite <- E. apply elem_of_map. eauto.
    + by apply IH.
Qed.

(** The last element of a list that satisfies a decidable property. *)
Lemma last_such {A} (p : A -> bool) (l : list A) (x : A) :
  x ∈ l -> p x = true ->
  exists l1 y l2, l = l1 ++ y :: l2 /\ p y = true
                  /\ Forall (fun z => p z = false) l2.
Proof.
  revert x. induction l as [|a l IH]; intros x Hx Hp.
  - by apply elem_of_nil in Hx.
  - destruct (existsb p l) eqn:E.
    + apply existsb_exists in E as (z & Hz & Hpz).
      apply list_elem_of_In in Hz.
      destruct (IH z Hz Hpz) as (l1 & y & l2 & -> & Hy & Hl2).
      by exists (a :: l1), y, l2.
    + assert (Forall (fun z => p z = false) l) as Hall.
      { apply Forall_forall. intros z Hz.
        destruct (p z) eqn:Hpz; [|done].
        rewrite <- E. symmetry. apply existsb_exists.
        exists z. split; [by apply list_elem_of_In|done]. }
      apply elem_of_cons in Hx as [->|Hx].
      * by exists [], a, l.
      * rewrite Forall_forall in Hall. rewrite (Hall x Hx) in Hp. done.
Qed.

End ListFacts.

(* ===================================================================== *)
(** * The field registry: priority of the marker, error containers        *)
(* ===================================================================== *)

Module FormConnectorFacts.
Import Js Dom FormConnector JsMap JsMapFacts ListFacts.

Lemma matches_field_name_selector x k :
  marker x = Some k -> node_matches field_name_selector x = true.
Proof.
  destruct x as [i e cs|s]; simpl; [|done].
  unfold matches, hasAttribute. simpl. by intros ->.
Qed.

(** ** The first pass: markers *)

Lemma register_tagged_other m x k :
  marker x <> Some k -> get k (register_tagged m x) = get k m.
Proof.
  destruct x as [i e cs|s]; simpl; [|done].
  destruct (getAttribute "field-name" e) as [f|]; [|done].
  intros Hne. destruct (truthy f); [|done].
  apply get_set_ne. by intros ->.
Qed.

Lemma register_tagged_same m x k :
  marker x = Some k -> truthy k = true ->
  get k (register_tagged m x) = Some (node_id x).
Proof.
  destruct x as [i e cs|s]; simpl; [|done].
  intros -> ->. apply get_set_eq.
Qed.

Lemma tagged_others l m k :
  Forall (fun y => marker y <> Some k) l ->
  get k (fold_left register_tagged l m) = get k m.
Proof.
  revert m. induction l as [|y l IH]; intros m Hall; simpl; [done|].
  apply Forall_cons in Hall as [Hy Hall].
  rewrite IH by done. by apply register_tagged_other.
Qed.

(** The last node carrying a marker owns it after the first pass. *)
Lemma tagged_last l1 x l2 m k :
  marker x = Some k -> truthy k = true ->
  Forall (fun y => marker y <> Some k) l2 ->
  get k (fold_left register_tagged (l1 ++ x :: l2) m) = Some (node_id x).
Proof.
  intros Hx Hk Hl2. rewrite fold_left_app. simpl.
  rewrite tagged_others by done. by apply register_tagged_same.
Qed.

(** ** The second pass: names and ids *)

Lemma set_opt_keeps key i m k j :
  unclaimed key m = true -> get k m = Some j ->
  get k (set_opt key i m) = Some j.
Proof.
  destruct key as [n|]; simpl; [|done].
  intros [_ Hn%negb_true_iff%has_false]%andb_true_iff Hk.
  rewrite get_set_ne; [done|]. intros ->. congruence.
Qed.

(** A claimed name is never overwritten by a plain control. *)
Lemma register_control_keeps m x k j :
  get k m = Some j -> get k (register_control m x) = Some j.
Proof.
  destruct x as [i e cs|s]; simpl; [|done].
  intros Hk. destruct (hasAttribute "field-name" e); [done|].
  destruct (unclaimed (getAttribute "name" e) m) eqn:E1.
  { by apply set_opt_keeps. }
  destruct (unclaimed (getAttribute "id" e) m) eqn:E2; [|done].
  by apply set_opt_keeps.
Qed.

Lemma controls_keep l m k j :
  get k m = Some j -> get k (fold_left register_control l m) = Some j.
Proof.
  revert m. induction l as [|y l IH]; intros m Hk; simpl; [done|].
  apply IH. by apply register_control_keeps.
Qed.

(** ** Whom an entry of the table points at *)

Section entries.
Variable D : list node.

Lemma plain_key_mono (m m' : JsMap.t nat) e k :
  (forall n j, get n m = Some j -> exists j', get n m' = Some j') ->
  plain_key m e k -> plain_key m' e k.
Proof.
  intros Hmono [?|[? [?|(n & j & ? & Hn)]]]; [by left|right..].
  - split; [done|by left].
  - split; [done|]. right. destruct (Hmono n j Hn) as [j' ?].
    by exists n, j'.
Qed.

Lemma get_set_claimed k i (m : JsMap.t nat) n j :
  get n m = Some j -> exists j', get n (set k i m) = Some j'.
Proof.
  intros Hn. destruct (decide (n = k)) as [->|Hne].
  - exists i. apply get_set_eq.
  - exists j. by rewrite get_set_ne.
Qed.

(** Adding an entry that is in order keeps the table in order. *)
Lemma entries_set k i m e cs :
  Elem i e cs ∈ D ->
  getAttribute "field-name" e = Some k
  \/ (getAttribute "field-name" e = None /\ plain_key (set k i m) e k) ->
  entries_ok D m -> entries_ok D (set k i m).
Proof.
  intros Hin Hnew Hm k' j'. destruct (decide (k' = k)) as [->|Hne].
  - rewrite get_set_eq. intros [= <-]. by exists e, cs.
  - rewrite get_set_ne by done. intros Hget.
    destruct (Hm k' j' Hget) as (e' & cs' & Hin' & [?|[? Hplain]]).
    + exists e', cs'. auto.
    + exists e', cs'. split; [done|]. right. split; [done|].
      eapply plain_key_mono; [|exact Hplain].
      intros. by eapply get_set_claimed.
Qed.

Lemma register_tagged_entry m x :
  x ∈ D -> entries_ok D m -> entries_ok D (register_tagged m x).
Proof.
  intros Hx Hm. destruct x as [i e cs|s]; simpl; [|done].
  destruct (getAttribute "field-name" e) as [f|] eqn:Ef; [|done].
  destruct (truthy f); [|done].
  apply (entries_set f i m e cs); auto.
Qed.

Lemma register_control_entry m x :
  x ∈ D -> entries_ok D m -> entries_ok D (register_control m x).
Proof.
  intros Hx Hm. destruct x as [i e cs|s]; simpl; [|done].
  unfold hasAttribute.
  destruct (getAttribute "field-name" e) eqn:Ef; [done|].
  destruct (unclaimed (getAttribute "name" e) m) eqn:Ename.
  { destruct (getAttribute "name" e) as [n|] eqn:En; [|done]. simpl.
    apply (entries_set n i m e cs); [done| |done].
    right. split; [done|]. by left. }
  destruct (unclaimed (getAttribute "id" e) m) eqn:Eid; [|done].
  destruct (getAttribute "id" e) as [k|] eqn:Ek; [|done]. simpl.
  apply (entries_set k i m e cs); [done| |done].
  right. split; [done|]. right. split; [done|].
  destruct (getAttribute "name" e) as [n|] eqn:En; [|by left].
  simpl in Ename |- *. destruct (truthy n); [|by left]. right.
  simpl in Ename. apply negb_false_iff, has_true in Ename as [j Hj].
  destruct (get_set_claimed k i m n j Hj) as [j' ?]. by exists n, j'.
Qed.

Lemma fold_entry (f : JsMap.t nat -> node -> JsMap.t nat) l m :
  (forall m x, x ∈ D -> entries_ok D m -> entries_ok D (f m x)) ->
  (forall x, x ∈ l -> x ∈ D) ->
  entries_ok D m -> entries_ok D (fold_left f l m).
Proof.
  intros Hf. revert m. induction l as [|y l IH]; intros m Hl Hm; simpl; [done|].
  apply IH.
  - intros x Hx. apply Hl. by right.
  - apply Hf; [|done]. apply Hl. by left.
Qed.

End entries.

Lemma collect_entries formNode :
  entries_ok (descendants formNode) (collectFields_in formNode).
Proof.
  unfold collectFields_in, querySelectorAll_in.
  apply fold_entry.
  - apply register_control_entry.
  - by intros x [_ Hx]%elem_of_filter_bool.
  - apply fold_entry.
    + apply register_tagged_entry.
    + by intros x [_ Hx]%elem_of_filter_bool.
    + intros k j. done.
Qed.

(** The owner of a marker after both passes. *)
Lemma collect_marker formNode l1 x l2 k :
  descendants formNode = l1 ++ x :: l2 ->
  marker x = Some k -> truthy k = true ->
  Forall (fun y => marker y <> Some k) l2 ->
  get k (collectFields_in formNode) = Some (node_id x).
Proof.
  intros HD Hx Hk Hl2. unfold collectFields_in, querySelectorAll_in.
  apply controls_keep. rewrite HD, List.filter_app. simpl.
  rewrite (matches_field_name_selector x k) by done.
  apply tagged_last; [done..|].
  apply Forall_forall. intros y [_ Hy]%elem_of_filter_bool.
  rewrite Forall_forall in Hl2. by apply Hl2.
Qed.

Lemma field_new d form o formNode k :
  find_node d form = Some formNode ->
  field (new d form o) k = get k (collectFields_in formNode).
Proof.
  intros Hf. unfold field, new, collectFields. rewrite Hf.
  by destruct (collectLabelsAndErrorContainers _ _ _ _).
Qed.

Lemma inputElements_new d form o formNode :
  find_node d form = Some formNode ->
  inputElements (new d form o) = collectFields_in formNode.
Proof.
  intros Hf. unfold new, collectFields. rewrite Hf.
  by destruct (collectLabelsAndErrorContainers _ _ _ _).
Qed.

(** C7, amended.  In a form whose nodes are distinct, a control that
    carries a field-name marker [mk] is registered under no other key
    than [mk], so [field(k)] does not resolve it for any [k] different
    from [mk], its name and id included; [field(mk)] resolves it when
    [mk] is not empty and no later node of the form carries the same
    marker; a non-empty marker is always resolved to a node that carries
    it, never to a control that merely has it as name or id; and a
    control without marker is resolved by its name, or by its id while
    its name is empty or resolves to some control. *)
Theorem field_name_priority d form o formNode i e cs mk :
  find_node d form = Some formNode ->
  NoDup (List.map node_id (descendants formNode)) ->
  Elem i e cs ∈ descendants formNode ->
  getAttribute "field-name" e = Some mk ->
  (forall k, field (new d form o) k = Some i -> k = mk)
  /\ (forall l1 l2,
        descendants formNode = l1 ++ Elem i e cs :: l2 ->
        truthy mk = true ->
        Forall (fun y => marker y <> Some mk) l2 ->
        field (new d form o) mk = Some i)
  /\ (truthy mk = true ->
      exists j e' cs',
        field (new d form o) mk = Some j
        /\ Elem j e' cs' ∈ descendants formNode
        /\ getAttribute "field-name" e' = Some mk)
  /\ (forall j e' cs' k,
        Elem j e' cs' ∈ descendants formNode ->
        getAttribute "field-name" e' = None ->
        field (new d form o) k = Some j ->
        plain_key (inputElements (new d form o)) e' k).
Proof.
  intros Hform Hnd Hin He. split; [|split; [|split]].
  - intros k. rewrite (field_new _ _ _ _ _ Hform).
    intros (e' & cs' & Hin' & Hmark)%collect_entries.
    assert (Elem i e' cs' = Elem i e cs) as [= -> ->].
    { by apply (key_unique node_id (descendants formNode)). }
    destruct Hmark as [Hmark|[Hmark _]]; congruence.
  - intros l1 l2 HD Hmk Hl2. rewrite (field_new _ _ _ _ _ Hform).
    by rewrite (collect_marker formNode l1 (Elem i e cs) l2 mk).
  - intros Hmk.
    destruct (last_such (fun y => bool_decide (marker y = Some mk))
                (descendants formNode) (Elem i e cs))
      as (l1 & y & l2 & HD & Hy & Hl2); [done|by apply bool_decide_eq_true|].
    apply bool_decide_eq_true in Hy.
    destruct y as [j e' cs'|s]; [|done].
    exists j, e', cs'. split; [|split].
    + rewrite (field_new _ _ _ _ _ Hform).
      rewrite (collect_marker formNode l1 (Elem j e' cs') l2 mk); [done..|].
      eapply Forall_impl; [exact Hl2|].
      intros z Hz. by apply bool_decide_eq_false in Hz.
    + rewrite HD. apply elem_of_app. right. left.
    + done.
  - intros j e' cs' k Hin' He'.
    rewrite (field_new _ _ _ _ _ Hform), (inputElements_new _ _ _ _ Hform).
    intros (e'' & cs'' & Hin'' & Hmark)%collect_entries.
    assert (Elem j e'' cs'' = Elem j e' cs') as [= -> ->].
    { by apply (key_unique node_id (descendants formNode)). }
    destruct Hmark as [Hmark|[_ Hplain]]; [congruence|done].
Qed.

Lemma field_name_priority_witness :
  (forall k,
     field (new Sample.marker_and_name 1 no_options) k = Some 2 ->
     k = "user-email")
  /\ field (new Sample.marker_and_name 1 no_options) "user-email" = Some 2
  /\ field (new Sample.marker_and_name 1 no_options) "email" = Some 3.
Proof.
  destruct (field_name_priority Sample.marker_and_name 1 no_options
              (Elem 1 (plain "form" [] [])
                 [Elem 2 (Sample.input "text"
                            [("field-name", "user-email"); ("name", "email");
                             ("id", "email")] "") [];
                  Elem 3 (Sample.input "text" [("name", "email")] "") []])
              2 (Sample.input "text"
                   [("field-name", "user-email"); ("name", "email");
                    ("id", "email")] "") [] "user-email")
    as (H1 & H2 & _ & _).
  - reflexivity.
  - apply (bool_decide_unpack _). vm_compute. exact I.
  - simpl. left.
  - reflexivity.
  - split; [exact H1|]. split; reflexivity.
Defined.

(** C7 as stated fails.  Two controls carry the marker [a]: the first
    one has a marker and a name, and [field('a')] resolves the second.
    And where marker and name are the same string, [field(name)] does
    resolve the control. *)
Lemma field_name_priority_counterexample :
  attribute Sample.same_marker_twice 2 "field-name" = Some "a"
  /\ attribute Sample.same_marker_twice 2 "name" = Some "x"
  /\ field (new Sample.same_marker_twice 1 no_options) "a" = Some 3
  /\ attribute Sample.marker_equals_name 2 "field-name" = Some "email"
  /\ attribute Sample.marker_equals_name 2 "name" = Some "email"
  /\ field (new Sample.marker_equals_name 1 no_options) "email" = Some 2.
Proof. repeat split. Qed.

(** ** The error container *)

(** The configured, relative stage gives the next element sibling or
    nothing, whatever matched. *)
Lemma relative_container_next d element sel :
  relative_container d element sel = None
  \/ relative_container d element sel = nextElementSibling d element.
Proof.
  unfold relative_container.
  destruct (found _ || found _ || _); auto.
Qed.

(** C5.  With the selector [.msg-error]: a matching descendant of the
    parent that stands before the control is not resolved (no container
    at all is), and where an ancestor matches, the next sibling of the
    control is taken, although it does not match the selector. *)
Theorem configured_container_precedence :
  (node_id <$> parent_querySelector Sample.error_before_control 4
                 (parse_selector ".msg-error")) = Some 3
  /\ getErrorContainer Sample.error_before_control
       (new Sample.error_before_control 1 Sample.msg_error_option) "age"
     = None
  /\ (node_id <$> closest Sample.error_around_control
                    (parse_selector ".msg-error") 3) = Some 2
  /\ nextElementSibling_matches Sample.error_around_control 3
       (parse_selector ".msg-error") = false
  /\ getErrorContainer Sample.error_around_control
       (new Sample.error_around_control 1 Sample.msg_error_option) "age"
     = Some 4.
Proof. repeat split. Qed.

End FormConnectorFacts.

(* ===================================================================== *)
(** * The orchestrator: what each operation leaves alone                  *)
(* ===================================================================== *)

Module OrchestratorFacts.
Import Js Dom Exn JsMap JsMapFacts ListFacts Session.

(** ** Presentation touches the document only *)

Lemma showError_self fieldName error s :
  V.self (V.showError fieldName error s) = V.self s
  /\ V.heap (V.showError fieldName error s) = V.heap s.
Proof.
  unfold V.showError.
  destruct (FormConnector.field _ _); [|done].
  destruct (FormConnector.getErrorContainer _ _ _); [done|].
  by destruct (V.create_container _ _ _ _).
Qed.

Lemma clearError_self fieldName s :
  V.self (V.clearError fieldName s) = V.self s
  /\ V.heap (V.clearError fieldName s) = V.heap s.
Proof.
  unfold V.clearError.
  destruct (FormConnector.field _ _); [|done].
  by destruct (FormConnector.getErrorContainer _ _ _).
Qed.

Lemma present_self fieldName error s :
  V.self (V.present fieldName error s) = V.self s
  /\ V.heap (V.present fieldName error s) = V.heap s.
Proof.
  unfold V.present. destruct error as [e|].
  - destruct (truthy e); [apply showError_self|apply clearError_self].
  - apply clearError_self.
Qed.

Lemma run_engine_Some l s s1 error :
  V.run_engine l s = Some (s1, error) ->
  exists validator,
    V.heap s !! l = Some validator
    /\ error = snd (Validator.validate (V.document s) validator)
    /\ V.self s1 = V.self s
    /\ V.document s1 = V.document s
    /\ V.heap s1
       = <[l := fst (Validator.validate (V.document s) validator)]> (V.heap s).
Proof.
  unfold V.run_engine. destruct (V.heap s !! l) as [validator|]; [|done].
  destruct (Validator.validate _ _) as [v' e] eqn:E.
  intros [= <- <-]. exists validator. by rewrite E.
Qed.

Lemma run_engine_truthy l s s1 m :
  V.run_engine l s = Some (s1, Some m) -> truthy m = true.
Proof.
  intros (validator & _ & E & _)%run_engine_Some.
  by eapply ValidatorFacts.validate_truthy.
Qed.

Lemma rules_validate d v : Validator.rules (fst (Validator.validate d v)) = Validator.rules v.
Proof. done. Qed.

(** An engine run, then the presentation: the registry and the map of
    engines stay, each engine keeps its rules, no engine is added. *)
Lemma engine_then_present l s s1 error fieldName :
  V.run_engine l s = Some (s1, error) ->
  V.self (V.present fieldName error s1) = V.self s
  /\ length (V.heap (V.present fieldName error s1)) = length (V.heap s)
  /\ (forall l', Validator.rules <$> V.heap (V.present fieldName error s1) !! l'
                 = Validator.rules <$> V.heap s !! l')
  /\ (forall l', l' <> l ->
                 V.heap (V.present fieldName error s1) !! l' = V.heap s !! l').
Proof.
  intros (validator & Hl & _ & Hself & _ & Hheap)%run_engine_Some.
  destruct (present_self fieldName error s1) as [-> ->].
  rewrite Hself, Hheap, length_insert. repeat split.
  - intros l'. destruct (decide (l' = l)) as [->|Hne].
    + rewrite list_lookup_insert_eq by by eapply lookup_lt_Some.
      by rewrite Hl.
    + by rewrite list_lookup_insert_ne.
  - intros l' Hne. by rewrite list_lookup_insert_ne.
Qed.

Lemma validate_step_frame acc entry :
  V.self (fst (V.validate_step acc entry)) = V.self (fst acc)
  /\ length (V.heap (fst (V.validate_step acc entry)))
     = length (V.heap (fst acc))
  /\ (forall l', Validator.rules <$> V.heap (fst (V.validate_step acc entry)) !! l'
                 = Validator.rules <$> V.heap (fst acc) !! l').
Proof.
  destruct acc as [s r], entry as [fieldName l]. simpl.
  destruct (V.run_engine l s) as [[s1 error]|] eqn:E; [|done].
  simpl. destruct (engine_then_present l s s1 error fieldName E) as (? & ? & ? & _).
  done.
Qed.

Lemma validate_fold_frame vs acc :
  V.self (fst (fold_left V.validate_step vs acc)) = V.self (fst acc)
  /\ length (V.heap (fst (fold_left V.validate_step vs acc)))
     = length (V.heap (fst acc))
  /\ (forall l', Validator.rules <$> V.heap (fst (fold_left V.validate_step vs acc)) !! l'
                 = Validator.rules <$> V.heap (fst acc) !! l').
Proof.
  revert acc. induction vs as [|entry vs IH]; intros acc; simpl; [done|].
  destruct (IH (V.validate_step acc entry)) as (-> & -> & IH3).
  destruct (validate_step_frame acc entry) as (-> & -> & H3).
  repeat split. intros l'. by rewrite IH3, H3.
Qed.

Lemma validate_frame s :
  V.self (fst (V.validate s)) = V.self s
  /\ length (V.heap (fst (V.validate s))) = length (V.heap s)
  /\ (forall l', Validator.rules <$> V.heap (fst (V.validate s)) !! l'
                 = Validator.rules <$> V.heap s !! l').
Proof. apply (validate_fold_frame _ (s, _)). Qed.

Lemma validateField_engines fieldName s :
  V.self (fst (V.validateField fieldName s)) = V.self s
  /\ length (V.heap (fst (V.validateField fieldName s))) = length (V.heap s)
  /\ (forall l', Validator.rules <$> V.heap (fst (V.validateField fieldName s)) !! l'
                 = Validator.rules <$> V.heap s !! l').
Proof.
  unfold V.validateField.
  destruct (get fieldName _) as [l|]; [|done].
  destruct (V.run_engine l s) as [[s1 error]|] eqn:E; [|done].
  simpl. destruct (engine_then_present l s s1 error fieldName E) as (? & ? & ? & _).
  done.
Qed.

Lemma reset_frame s :
  V.self (V.reset s) = V.self s /\ V.heap (V.reset s) = V.heap s.
Proof.
  unfold V.reset. generalize (V.validators (V.self s)).
  intros vs. revert s. induction vs as [|entry vs IH]; intros s; simpl; [done|].
  destruct (IH (V.clearError entry.1 s)) as [-> ->].
  apply clearError_self.
Qed.

(** ** [field] *)

(** The constructor of an engine throws nothing but the [SyntaxError] of
    a pattern. *)
Lemma new_throws d element form fieldName e :
  Validator.new d element form fieldName = Throw e ->
  exists msg, e = SyntaxError msg.
Proof.
  unfold Validator.new.
  destruct (find_element d element) as [el|]; [|done].
  unfold Validator.loadConstraintValidation.
  destruct (Validator.is_tag "input" el).
  - unfold Validator.loadInputConstraints.
    destruct (Validator.text_type el && truthy (pattern (ctl el))).
    + destruct (pattern_RegExp (ctl el)); simpl; [done|].
      intros [= <-]. by eexists.
    + done.
  - by destruct (Validator.is_tag "textarea" el).
Qed.

(** The four ways a call of [field] can go. *)
Lemma field_cases fieldName s :
  (FormConnector.field (V.form (V.self s)) fieldName = None
   /\ V.field fieldName s = (s, Throw (V.not_found fieldName)))
  \/ (exists element l,
        FormConnector.field (V.form (V.self s)) fieldName = Some element
        /\ get fieldName (V.validators (V.self s)) = Some l
        /\ V.field fieldName s = (s, Return (Some l)))
  \/ (exists element msg,
        FormConnector.field (V.form (V.self s)) fieldName = Some element
        /\ get fieldName (V.validators (V.self s)) = None
        /\ V.field fieldName s = (s, Throw (SyntaxError msg)))
  \/ (exists element v,
        FormConnector.field (V.form (V.self s)) fieldName = Some element
        /\ get fieldName (V.validators (V.self s)) = None
        /\ V.field fieldName s
           = ({| V.self :=
                   {| V.form := V.form (V.self s);
                      V.validators :=
                        V.validators (V.self s)
                        ++ [(fieldName, length (V.heap s))];
                      V.options := V.options (V.self s) |};
                 V.document := V.document s;
                 V.heap := V.heap s ++ [v] |},
              Return (Some (length (V.heap s))))).
Proof.
  unfold V.field.
  destruct (FormConnector.field _ _) as [element|]; [|by left].
  right. unfold has.
  destruct (get fieldName (V.validators (V.self s))) as [l|] eqn:Hget; simpl.
  { left. by exists element, l. }
  right.
  destruct (Validator.new _ _ _ _) as [v|e] eqn:Hnew.
  - right. exists element, v. rewrite get_set_eq, set_new by done. done.
  - left. apply new_throws in Hnew as [msg ->]. by exists element, msg.
Qed.

(** ** One step of a session *)


(** Whether the engine of a name exists after a step. *)
Lemma step_get s c fieldName :
  get fieldName (V.validators (V.self (step s c))) = None
  <-> get fieldName (V.validators (V.self s)) = None
      /\ (c = Field fieldName ->
          is_Throw (snd (V.field fieldName s)) = true).
Proof.
  destruct c as [n|l r| |n| |f]; simpl.
  - destruct (decide (n = fieldName)) as [->|Hne].
    + destruct (field_cases fieldName s) as
        [[_ E]|[(? & l & _ & Hl & E)|[(? & ? & _ & Hl & E)|(? & ? & _ & Hl & E)]]];
        rewrite E; simpl.
      * tauto.
      * rewrite Hl. split; [done|]. by intros [? _].
      * tauto.
      * split.
        -- intros H. exfalso. revert H.
           replace (V.validators (V.self s) ++ [(fieldName, length (V.heap s))])
             with (set fieldName (length (V.heap s)) (V.validators (V.self s)))
             by by apply set_new.
           by rewrite get_set_eq.
        -- intros [_ H]. by specialize (H eq_refl).
    + assert (get fieldName (V.validators (V.self (V.field n s).1))
              = get fieldName (V.validators (V.self s))) as ->.
      { destruct (field_cases n s) as
          [[_ E]|[(? & l & _ & Hl & E)|[(? & ? & _ & Hl & E)|(? & ? & _ & Hl & E)]]];
          rewrite E; simpl; try done.
        rewrite <- (set_new n (length (V.heap s))) by done.
        apply get_set_ne. congruence. }
      split; [|tauto]. intros H. split; [done|]. intros [= ?]. done.
  - split; [|tauto]. done.
  - destruct (validate_frame s) as [-> _]. split; [|tauto]. done.
  - destruct (validateField_engines n s) as [-> _]. split; [|tauto]. done.
  - destruct (reset_frame s) as [-> _]. split; [|tauto]. done.
  - split; [|tauto]. done.
Qed.

Lemma run_snoc cs c s : run (cs ++ [c]) s = step (run cs s) c.
Proof. unfold run. by rewrite fold_left_app. Qed.


(** No engine for a name exists exactly when every [field] call for it
    so far has thrown (among them: when there was none). *)
Lemma no_engine_iff d form o cs fieldName :
  get fieldName (V.validators (V.self (run cs (V.new d form o)))) = None
  <-> forall cs1 cs2,
        cs = cs1 ++ Field fieldName :: cs2 ->
        is_Throw (snd (V.field fieldName (run cs1 (V.new d form o)))) = true.
Proof.
  induction cs as [|c cs IH] using rev_ind.
  - split; [|done]. intros _ [|??] ? ?; done.
  - rewrite run_snoc, step_get, IH. split.
    + intros [Hcs Hc] cs1 cs2 E.
      destruct cs2 as [|c2 cs2 _] using rev_ind.
      * apply app_inj_tail in E as [-> ->]. by apply Hc.
      * rewrite app_comm_cons, app_assoc in E.
        apply app_inj_tail in E as [-> ->]. by eapply Hcs.
    + intros H. split.
      * intros cs1 cs2 ->. apply (H cs1 (cs2 ++ [c])).
        by rewrite <- app_assoc.
      * intros ->. by apply (H cs []).
Qed.

(** C6.  [field(name)] throws its lookup error exactly when the
    registry does not resolve [name]; [validateField(name)] throws its
    lookup error exactly when the orchestrator has no engine for [name],
    which in any session is the case exactly when no earlier
    [field(name)] call has returned (a call that threw has made no
    engine); when either of them throws its lookup error, and whenever
    [field] throws at all, the state is the one before the call, and
    the error is the outcome of the call. *)
Theorem lookup_errors s fieldName :
  (snd (V.field fieldName s) = Throw (V.not_found fieldName)
   <-> FormConnector.field (V.form (V.self s)) fieldName = None)
  /\ (snd (V.validateField fieldName s) = Throw (V.no_validator fieldName)
      <-> get fieldName (V.validators (V.self s)) = None)
  /\ (forall e, snd (V.field fieldName s) = Throw e ->
                fst (V.field fieldName s) = s)
  /\ (snd (V.validateField fieldName s) = Throw (V.no_validator fieldName) ->
      fst (V.validateField fieldName s) = s)
  /\ (forall d form o cs,
        s = run cs (V.new d form o) ->
        (get fieldName (V.validators (V.self s)) = None
         <-> forall cs1 cs2,
               cs = cs1 ++ Field fieldName :: cs2 ->
               is_Throw (snd (V.field fieldName (run cs1 (V.new d form o))))
               = true)).
Proof.
  repeat split.
  - destruct (field_cases fieldName s) as
      [[H _]|[(? & ? & _ & _ & E)|[(? & ? & _ & _ & E)|(? & ? & _ & _ & E)]]];
      [done|rewrite E; done..].
  - intros H. destruct (field_cases fieldName s) as
      [[_ ->]|[(? & ? & H' & _)|[(? & ? & H' & _)|(? & ? & H' & _)]]];
      [done|congruence..].
  - unfold V.validateField. destruct (get fieldName _) as [l|]; [|done].
    by destruct (V.run_engine l s) as [[??]|].
  - unfold V.validateField. by intros ->.
  - intros e. destruct (field_cases fieldName s) as
      [[_ ->]|[(? & ? & _ & _ & ->)|[(? & ? & _ & _ & ->)|(? & ? & _ & _ & ->)]]];
      done.
  - unfold V.validateField.
    destruct (get fieldName _) as [l|]; [|done].
    by destruct (V.run_engine l s) as [[??]|].
  - subst s. by apply no_engine_iff.
  - subst s. by apply no_engine_iff.
Qed.

(** C6, as stated, at [field('nope')] followed by
    [validateField('nope')] on [<form><input name=a></form>]:
    [field('nope')] has been called, and [validateField('nope')] throws
    its lookup error all the same, since the call threw and made no
    engine. *)
Lemma lookup_errors_counterexample :
  touches "nope" [Field "nope"] = true
  /\ snd (V.field "nope" (V.new Sample.one_field 1 None))
     = Throw (V.not_found "nope")
  /\ snd (V.validateField "nope"
            (run [Field "nope"] (V.new Sample.one_field 1 None)))
     = Throw (V.no_validator "nope").
Proof. repeat split; vm_compute; reflexivity. Qed.

(** ** The invariant of a session *)

Lemma inv_new d form o : inv (V.new d form o).
Proof. split; [constructor|done]. Qed.

Lemma inv_step s c : inv s -> inv (step s c).
Proof.
  intros [Hkeys Hlocs]. destruct c as [n|l r| |n| |f]; unfold inv; simpl.
  - destruct (field_cases n s) as
      [[_ ->]|[(? & ? & _ & _ & ->)|[(? & ? & _ & _ & ->)
                                    |(? & v & _ & Hn & ->)]]];
      [done..|]. simpl. split.
    + unfold keys. rewrite map_app. apply NoDup_app. split; [done|]. split.
      * intros k Hk [->|[]%elem_of_nil]%elem_of_cons. by apply get_keys in Hn.
      * apply NoDup_singleton.
    + rewrite map_app, length_app, Hlocs. simpl.
      by rewrite Nat.add_1_r, seq_S.
  - by rewrite length_alter.
  - by destruct (validate_frame s) as (-> & -> & _).
  - by destruct (validateField_engines n s) as (-> & -> & _).
  - by destruct (reset_frame s) as (-> & ->).
  - done.
Qed.

Lemma inv_run cs s : inv s -> inv (run cs s).
Proof.
  intros H. induction cs as [|c cs IH] using rev_ind; [done|].
  rewrite run_snoc. by apply inv_step.
Qed.

Lemma get_Some_elem {A} k (a : A) (m : JsMap.t A) :
  get k m = Some a -> (k, a) ∈ m.
Proof.
  induction m as [|[k' a'] m IH]; simpl; [done|].
  destruct (String.eqb k k') eqn:E.
  - apply String.eqb_eq in E as <-. intros [= ->]. left.
  - intros H. right. by apply IH.
Qed.


(** An engine the orchestrator knows is in the heap. *)
Lemma inv_engines_ok s : inv s -> V.engines_ok s.
Proof.
  intros [_ Hlocs] k l Hget.
  assert (l ∈ seq 0 (length (V.heap s))) as Hl.
  { rewrite <- Hlocs. apply elem_of_map. exists (k, l).
    split; [done|]. by apply get_Some_elem. }
  apply elem_of_seq in Hl. lia.
Qed.

(** ** One engine for each name *)



Lemma step_heap_length s c : length (V.heap s) <= length (V.heap (step s c)).
Proof.
  destruct c as [n|l' r| |n| |f]; simpl.
  - destruct (field_cases n s) as
      [[_ ->]|[(? & ? & _ & _ & ->)|[(? & ? & _ & _ & ->)
                                    |(? & v & _ & Hn & ->)]]];
      [done..|]. simpl. rewrite length_app. lia.
  - by rewrite length_alter.
  - by destruct (validate_frame s) as (_ & -> & _).
  - by destruct (validateField_engines n s) as (_ & -> & _).
  - by destruct (reset_frame s) as (_ & ->).
  - done.
Qed.








(** ** The result of [validate] *)

Lemma obj_set_insert {A} k (x : A) (o : gmap string A) :
  k <> "__proto__" -> obj_set k x o = <[k := x]> o.
Proof.
  intros Hk. unfold obj_set.
  destruct (String.eqb k "__proto__") eqn:E; [|done].
  by apply String.eqb_eq in E.
Qed.

Lemma obj_set_proto {A} (x : A) (o : gmap string A) :
  obj_set "__proto__" x o = o.
Proof. done. Qed.

(** [seen] are the names whose turn of the loop is over. *)
Lemma validate_fold_isValid vs s r (seen : list string) :
  NoDup (keys vs) ->
  "__proto__" ∉ keys vs ->
  (forall k, k ∈ keys vs -> k ∉ seen) ->
  (V.isValid r = true <-> forall k e, V.errors r !! k = Some e -> e = None) ->
  (forall k, V.errors r !! k <> None -> k ∈ seen) ->
  V.isValid (snd (fold_left V.validate_step vs (s, r))) = true
  <-> forall k e,
        V.errors (snd (fold_left V.validate_step vs (s, r))) !! k = Some e ->
        e = None.
Proof.
  revert s r seen. induction vs as [|[fieldName l] vs IH];
    intros s r seen Hnd Hproto Hfresh Hr Hseen; simpl; [done|].
  apply NoDup_cons in Hnd as [Hk Hnd].
  unfold keys in Hproto. cbn [List.map fst] in Hproto.
  apply not_elem_of_cons in Hproto as [Hne0 Hproto].
  assert (fieldName ∉ seen) as Hks by (apply Hfresh; left).
  destruct (V.run_engine l s) as [[s1 error]|] eqn:E.
  - rewrite obj_set_insert by done.
    apply (IH _ _ (fieldName :: seen)); [done|done|..]; simpl.
    + intros k Hkin [->|?]%elem_of_cons; [done|].
      eapply Hfresh; [by right|done].
    + destruct error as [m|]; simpl.
      * rewrite (run_engine_truthy _ _ _ _ E). split; [done|].
        intros H. specialize (H fieldName (Some m)).
        rewrite lookup_insert_eq in H. by specialize (H eq_refl).
      * rewrite Hr. split.
        -- intros H k e. destruct (decide (k = fieldName)) as [->|Hne].
           ++ rewrite lookup_insert_eq. by intros [= <-].
           ++ rewrite lookup_insert_ne by done. apply H.
        -- intros H k e Hke. apply (H k e).
           rewrite lookup_insert_ne; [done|].
           intros <-. apply Hks, Hseen. by rewrite Hke.
    + intros k. destruct (decide (k = fieldName)) as [->|Hne]; [by left|].
      rewrite lookup_insert_ne by done. intros H. right. by apply Hseen.
  - apply (IH _ _ seen); [done|done| |done..].
    intros k Hkin. apply Hfresh. by right.
Qed.

Lemma validate_isValid_inv s :
  inv s ->
  get "__proto__" (V.validators (V.self s)) = None ->
  V.isValid (snd (V.validate s)) = true
  <-> forall k e, V.errors (snd (V.validate s)) !! k = Some e -> e = None.
Proof.
  intros [Hnd _] Hproto. apply (validate_fold_isValid _ _ _ []); simpl.
  - done.
  - by apply get_keys.
  - intros k _ []%elem_of_nil.
  - split; [|done]. intros _ k e. by rewrite lookup_empty.
  - intros k. by rewrite lookup_empty.
Qed.

Lemma touches_app fieldName cs cs' :
  touches fieldName (cs ++ cs') = touches fieldName cs || touches fieldName cs'.
Proof.
  induction cs as [|c cs IH]; simpl; [done|].
  destruct c; simpl; try done. by rewrite IH, orb_assoc.
Qed.

(** Without a [field] call there is no engine. *)
Lemma untouched_no_engines d form o cs :
  (forall fieldName, touches fieldName cs = false) ->
  V.validators (V.self (run cs (V.new d form o))) = [].
Proof.
  induction cs as [|c cs IH] using rev_ind; intros H; [done|].
  rewrite run_snoc.
  assert (forall fieldName, touches fieldName cs = false) as Hcs.
  { intros n. specialize (H n). rewrite touches_app in H.
    by apply orb_false_iff in H as [-> _]. }
  destruct c as [n|l r| |n| |f]; simpl.
  - specialize (H n). rewrite touches_app in H. simpl in H.
    rewrite String.eqb_refl in H. by apply orb_false_iff in H as [_ ?].
  - by apply IH.
  - destruct (validate_frame (run cs (V.new d form o))) as [-> _]. by apply IH.
  - destruct (validateField_engines n (run cs (V.new d form o))) as [-> _].
    by apply IH.
  - destruct (reset_frame (run cs (V.new d form o))) as [-> _]. by apply IH.
  - by apply IH.
Qed.

(** C9.  On [<form><input name=__proto__></form>], the control empty,
    after [field('__proto__').required()]: the engine reports the field
    as missing and [validate()] returns [isValid = false], but [errors]
    has no entry at all, the assignment [errors['__proto__'] = error]
    having made no property; so every entry of [errors] is [null]
    while [isValid] is false. *)
Theorem validate_loses_the_proto_entry :
  snd (V.validateField "__proto__"
         (Sample.with_required Sample.proto_field "__proto__"))
  = Return (Some "Поле обязательно для заполнения")
  /\ V.isValid
       (snd (V.validate (Sample.with_required Sample.proto_field "__proto__")))
     = false
  /\ V.errors
       (snd (V.validate (Sample.with_required Sample.proto_field "__proto__")))
     = ∅.
Proof. repeat split; vm_compute; reflexivity. Qed.

(** C4.  On [<form><input name=a></form>] with [field('a').required()]
    and the control empty, two [validate()] calls in a row return the
    same result, and each of them adds an error container to the
    document: none before, one after the first call, two after the
    second. *)
Theorem validate_twice_adds_a_container :
  snd Sample.once = snd Sample.twice
  /\ V.isValid (snd Sample.once) = false
  /\ Sample.count_class "error-message"
       (V.document (Sample.with_required Sample.one_field "a")) = 0
  /\ Sample.count_class "error-message" (V.document (fst Sample.once)) = 1
  /\ Sample.count_class "error-message" (V.document (fst Sample.twice)) = 2.
Proof. repeat split; vm_compute; reflexivity. Qed.

End OrchestratorFacts.

(* ===================================================================== *)
(** * The DOM: what a change leaves alone                                 *)
(* ===================================================================== *)

Module DomFacts.
Import Js Dom ListFacts.

(** Induction on a tree, with the property known of the children. *)
Lemma node_ind (P : node -> Prop) :
  (forall s, P (Text s)) ->
  (forall i e cs, Forall P cs -> P (Elem i e cs)) ->
  forall n, P n.
Proof.
  intros HT HE. fix IH 1. intros [i e cs|s]; [|apply HT].
  apply HE. induction cs as [|c cs IHcs]; constructor; [apply IH|exact IHcs].
Qed.

(** ** Searching a list *)


Lemma find_map {A B} (f : A -> B) (p : B -> bool) (l : list A) :
  List.find p (List.map f l) = f <$> List.find (fun x => p (f x)) l.
Proof.
  induction l as [|a l IH]; simpl; [done|]. by destruct (p (f a)).
Qed.

Lemma find_ext {A} (p q : A -> bool) (l : list A) :
  (forall x, p x = q x) -> List.find p l = List.find q l.
Proof.
  intros H. induction l as [|a l IH]; simpl; [done|]. by rewrite H, IH.
Qed.

Lemma find_elem {A} (p : A -> bool) (l : list A) (x : A) :
  List.find p l = Some x -> x ∈ l /\ p x = true.
Proof. intros [??]%find_some. by rewrite list_elem_of_In. Qed.

Lemma flat_map_map {A B C} (f : B -> list C) (g : A -> B) (l : list A) :
  flat_map f (List.map g l) = flat_map (fun x => f (g x)) l.
Proof. induction l as [|a l IH]; simpl; [done|]. by rewrite IH. Qed.

Lemma flat_map_Forall_ext {A B} (f g : A -> list B) (l : list A) :
  Forall (fun x => f x = g x) l -> flat_map f l = flat_map g l.
Proof. induction 1 as [|a l E _ IH]; simpl; [done|]. by rewrite E, IH. Qed.

Lemma map_Forall_ext {A B} (f g : A -> B) (l : list A) :
  Forall (fun x => f x = g x) l -> List.map f l = List.map g l.
Proof. induction 1 as [|a l E _ IH]; simpl; [done|]. by rewrite E, IH. Qed.

Lemma map_flat_map {A B C} (f : B -> C) (g : A -> list B) (l : list A) :
  List.map f (flat_map g l) = flat_map (fun x => List.map f (g x)) l.
Proof.
  induction l as [|a l IH]; simpl; [done|]. by rewrite map_app, IH.
Qed.

(** ** The elements of a tree *)

Lemma elements_Elem k e cs :
  elements (Elem k e cs) = Elem k e cs :: flat_map elements cs.
Proof. done. Qed.

Lemma elements_is_elem n x : x ∈ elements n -> is_elem x = true.
Proof.
  revert x. induction n as [s|i e cs IH] using node_ind; intros x; simpl.
  - by intros ?%elem_of_nil.
  - intros [->|Hx]%elem_of_cons; [done|].
    apply elem_of_flat_map in Hx as (c & Hx & Hc).
    rewrite Forall_forall in IH. by apply (IH c).
Qed.

Lemma elements_self_id n : is_elem n = true -> node_id n ∈ subtree_ids n.
Proof. destruct n; [|done]. intros _. left. Qed.


Lemma has_id_true j x : has_id j x = true <-> is_elem x = true /\ node_id x = j.
Proof.
  destruct x as [k e cs|s]; simpl; [|by split; [|intros []]].
  rewrite Nat.eqb_eq. split; [by intros ->|by intros [_ ->]].
Qed.

(** A change at a node that is not in the tree changes nothing. *)
Lemma update_node_notin i f n : i ∉ subtree_ids n -> update_node i f n = n.
Proof.
  unfold subtree_ids.
  induction n as [s|k e cs IH] using node_ind; simpl; [done|].
  intros Hi. apply not_elem_of_cons in Hi as [Hne Hi].
  destruct (Nat.eqb i k) eqn:E; [by apply Nat.eqb_eq in E|].
  f_equal. rewrite <- (map_id cs) at 2. apply map_Forall_ext.
  rewrite Forall_forall in IH |- *. intros c Hc. apply IH; [done|].
  intros Hin. apply Hi. rewrite map_flat_map.
  apply elem_of_flat_map. by exists c.
Qed.

(** ** Changes of the data of a node *)

Section data.
Variables (i : nat) (g : element -> element).

Lemma update_data_node k e cs :
  update_node i (on_element g) (Elem k e cs)
  = Elem k (if Nat.eqb i k then g e else e)
      (List.map (update_node i (on_element g)) cs).
Proof. simpl. by destruct (Nat.eqb i k). Qed.

Lemma update_data_id n : node_id (update_node i (on_element g) n) = node_id n.
Proof. destruct n; [|done]. by rewrite update_data_node. Qed.

Lemma update_data_has_id j n :
  has_id j (update_node i (on_element g) n) = has_id j n.
Proof. destruct n; [|done]. by rewrite update_data_node. Qed.

Lemma update_data_is_elem n :
  is_elem (update_node i (on_element g) n) = is_elem n.
Proof. destruct n; [|done]. by rewrite update_data_node. Qed.


Lemma update_data_element n :
  node_element (update_node i (on_element g) n)
  = (if decide (node_id n = i) then g else fun e => e) <$> node_element n.
Proof.
  destruct n as [k e cs|s]; [|done]. rewrite update_data_node. simpl.
  destruct (Nat.eqb i k) eqn:E.
  - apply Nat.eqb_eq in E as ->. by rewrite decide_True.
  - apply Nat.eqb_neq in E. by rewrite decide_False.
Qed.

(** The elements are the same ones, each changed in place. *)
Lemma update_data_elements n :
  elements (update_node i (on_element g) n)
  = List.map (update_node i (on_element g)) (elements n).
Proof.
  induction n as [s|k e cs IH] using node_ind; [done|].
  rewrite update_data_node, !elements_Elem, map_cons, update_data_node.
  f_equal.
  rewrite flat_map_map, map_flat_map. by apply flat_map_Forall_ext.
Qed.

Lemma update_data_all d :
  all_elements (update i (on_element g) d)
  = List.map (update_node i (on_element g)) (all_elements d).
Proof.
  unfold all_elements, update. simpl.
  rewrite map_app, update_data_elements. f_equal.
  rewrite flat_map_map, map_flat_map.
  apply flat_map_Forall_ext, Forall_forall. intros c _.
  apply update_data_elements.
Qed.

Lemma update_data_ids d : ids (update i (on_element g) d) = ids d.
Proof.
  unfold ids. rewrite update_data_all, map_map.
  apply map_ext. apply update_data_id.
Qed.

Lemma update_data_wf d : wf d -> wf (update i (on_element g) d).
Proof. unfold wf. by rewrite update_data_ids. Qed.

Lemma update_data_fresh d : fresh (update i (on_element g) d) = fresh d.
Proof. unfold fresh. by rewrite update_data_ids. Qed.

Lemma update_data_find_node d j :
  find_node (update i (on_element g) d) j
  = update_node i (on_element g) <$> find_node d j.
Proof.
  unfold find_node. rewrite update_data_all, find_map.
  f_equal. apply find_ext. intros x. apply update_data_has_id.
Qed.

Lemma update_data_find_element d j :
  find_element (update i (on_element g) d) j
  = (if decide (j = i) then g else fun e => e) <$> find_element d j.
Proof.
  unfold find_element. rewrite update_data_find_node.
  destruct (find_node d j) as [x|] eqn:E; [|done]. simpl.
  rewrite update_data_element.
  apply find_elem in E as [_ [_ ->]%has_id_true]. done.
Qed.

End data.

(** ** Paths, parents and siblings under a change of data *)

Lemma path_to_Elem j k e cs :
  path_to j (Elem k e cs)
  = if Nat.eqb j k then Some [Elem k e cs]
    else match path_in j cs with
         | Some p => Some (Elem k e cs :: p)
         | None => None
         end.
Proof.
  simpl. destruct (Nat.eqb j k); [done|].
  match goal with |- match ?go cs with _ => _ end = _ =>
    assert (go cs = path_in j cs) as ->; [|done] end.
  induction cs as [|c cs IH]; simpl; [done|]. by destruct (path_to j c).
Qed.

Section data_paths.
Variables (i : nat) (g : element -> element).

Lemma update_data_path j n :
  path_to j (update_node i (on_element g) n)
  = List.map (update_node i (on_element g)) <$> path_to j n.
Proof.
  induction n as [s|k e cs IH] using node_ind; [done|].
  rewrite update_data_node, !path_to_Elem.
  destruct (Nat.eqb j k); [by rewrite <- update_data_node|].
  assert (path_in j (List.map (update_node i (on_element g)) cs)
          = List.map (update_node i (on_element g)) <$> path_in j cs) as ->.
  { induction IH as [|c cs Hc _ IHcs]; simpl; [done|].
    rewrite Hc. destruct (path_to j c); simpl; [done|apply IHcs]. }
  destruct (path_in j cs); [|done]. by rewrite <- update_data_node.
Qed.

Lemma update_data_path_in j l :
  path_in j (List.map (update_node i (on_element g)) l)
  = List.map (update_node i (on_element g)) <$> path_in j l.
Proof.
  induction l as [|c l IH]; simpl; [done|].
  rewrite update_data_path. by destruct (path_to j c).
Qed.

Lemma update_data_ancestors d j :
  ancestors_or_self (update i (on_element g) d) j
  = List.map (update_node i (on_element g)) (ancestors_or_self d j).
Proof.
  unfold ancestors_or_self.
  assert (path_in j (root (update i (on_element g) d)
                     :: detached (update i (on_element g) d))
          = List.map (update_node i (on_element g))
              <$> path_in j (root d :: detached d)) as ->.
  { apply (update_data_path_in j (root d :: detached d)). }
  destruct (path_in j (root d :: detached d)) as [p|]; [|done].
  simpl. by rewrite map_rev.
Qed.


Lemma update_data_closest d sel j :
  (forall e, matches sel (g e) = matches sel e) ->
  closest (update i (on_element g) d) sel j
  = update_node i (on_element g) <$> closest d sel j.
Proof.
  intros Hsel. unfold closest. rewrite update_data_ancestors, find_map.
  f_equal. apply find_ext. intros [k e cs|s]; [|done].
  rewrite update_data_node. simpl. by destruct (Nat.eqb i k).
Qed.




Lemma update_data_document_querySelector d sel :
  (forall e, matches sel (g e) = matches sel e) ->
  document_querySelector (update i (on_element g) d) sel
  = update_node i (on_element g) <$> document_querySelector d sel.
Proof.
  intros Hsel. unfold document_querySelector, update. simpl.
  rewrite update_data_elements, find_map.
  f_equal. apply find_ext. intros [k e cs|s]; [|done].
  rewrite update_data_node. simpl. by destruct (Nat.eqb i k).
Qed.

End data_paths.

(** ** Restyling *)

Lemma restyled_op i d1 d2 op :
  restyled i d1 d2 ->
  (forall d, op d = d \/ exists f, op d = update i (on_element (with_classList f)) d) ->
  restyled i d1 (op d2).
Proof.
  intros H Hop. destruct (Hop d2) as [->|[f ->]]; [done|by constructor].
Qed.

Lemma restyled_ids i d d' : restyled i d d' -> ids d' = ids d.
Proof. induction 1 as [|d' f _ IH]; [done|]. by rewrite update_data_ids. Qed.

Lemma restyled_wf i d d' : restyled i d d' -> wf d -> wf d'.
Proof. intros H. unfold wf. by rewrite (restyled_ids _ _ _ H). Qed.


(** A subtree that does not hold the node is found again, unchanged. *)
Lemma restyled_find_node i d d' j x :
  restyled i d d' ->
  find_node d j = Some x -> i ∉ subtree_ids x -> find_node d' j = Some x.
Proof.
  intros H Hx Hi. induction H as [|d' f _ IH]; [done|].
  rewrite update_data_find_node, IH. simpl. by rewrite update_node_notin.
Qed.

(** Every node keeps its data, the restyled one all but its classes. *)
Lemma restyled_find_element i d d' j e :
  restyled i d d' ->
  find_element d j = Some e ->
  exists e',
    find_element d' j = Some e'
    /\ tagName e' = tagName e /\ attrs e' = attrs e
    /\ style_display e' = style_display e /\ ctl e' = ctl e
    /\ (j <> i -> e' = e).
Proof.
  intros H He. induction H as [|d' f _ (e' & IH & ? & ? & ? & ? & Hne)].
  - by exists e.
  - rewrite update_data_find_element, IH. simpl.
    destruct (decide (j = i)) as [->|?].
    + eexists. split; [done|]. simpl. repeat split; try done.
    + by exists e'.
Qed.



Lemma restyled_document_querySelector i d d' r :
  restyled i d d' ->
  node_id <$> document_querySelector d' [[SelId r]]
  = node_id <$> document_querySelector d [[SelId r]].
Proof.
  induction 1 as [|d' f _ IH]; [done|].
  rewrite update_data_document_querySelector by done. rewrite <- IH.
  destruct (document_querySelector d' _); simpl; [|done].
  by rewrite update_data_id.
Qed.

(** ** Putting a new node into the tree *)

Section insertion.
Variables (p : nat) (c : node) (f : node -> node).

(** [c] is an element without children, and [f] puts it among the
    children of a node, or leaves the node as it is. *)
Hypothesis c_leaf : exists e, c = Elem (node_id c) e [].
Hypothesis f_inserts :
  forall k e cs, exists cs',
    f (Elem k e cs) = Elem k e cs'
    /\ (cs' = cs \/ exists a b, cs = a ++ b /\ cs' = a ++ c :: b).


Lemma insert_node k e cs :
  exists cs',
    update_node p f (Elem k e cs) = Elem k e cs'
    /\ (cs' = List.map (update_node p f) cs
        \/ exists a b, List.map (update_node p f) cs = a ++ b
                       /\ cs' = a ++ c :: b).
Proof.
  simpl. destruct (Nat.eqb p k).
  - apply f_inserts.
  - eexists. split; [done|by left].
Qed.

Lemma insert_id n : node_id (update_node p f n) = node_id n.
Proof.
  destruct n as [k e cs|s]; [|done].
  by destruct (insert_node k e cs) as (cs' & -> & _).
Qed.


Lemma insert_has_id j n : has_id j (update_node p f n) = has_id j n.
Proof.
  destruct n as [k e cs|s]; [|done].
  by destruct (insert_node k e cs) as (cs' & -> & _).
Qed.






End insertion.




(** ** A new node left outside the document *)




(** ** Finding a node and being in the forest *)

Lemma all_elements_is_elem d x : x ∈ all_elements d -> is_elem x = true.
Proof.
  unfold all_elements.
  intros [?|(t & ? & _)%elem_of_flat_map]%elem_of_app;
    by eapply elements_is_elem.
Qed.

Lemma find_node_elem d j x :
  find_node d j = Some x -> x ∈ all_elements d /\ node_id x = j.
Proof. by intros [? [_ ?]%has_id_true]%find_elem. Qed.

Lemma find_unique j l x :
  NoDup (List.map node_id l) ->
  x ∈ l -> has_id j x = true -> List.find (has_id j) l = Some x.
Proof.
  intros Hnd Hx Hj. induction l as [|a l IH]; [by apply elem_of_nil in Hx|].
  simpl. destruct (has_id j a) eqn:Ea.
  - f_equal. apply (key_unique node_id (a :: l)); [done|left|done|].
    apply has_id_true in Hj as [_ ->]. by apply has_id_true in Ea as [_ ->].
  - apply elem_of_cons in Hx as [->|Hx]; [congruence|].
    apply IH; [|done]. simpl in Hnd. by apply NoDup_cons in Hnd as [_ ?].
Qed.

Lemma find_node_unique d j x :
  wf d -> x ∈ all_elements d -> node_id x = j -> find_node d j = Some x.
Proof.
  intros Hnd Hx Hj. apply find_unique; [done..|].
  apply has_id_true. split; [|done]. by eapply all_elements_is_elem.
Qed.



(** ** Replacing the children of a node by text *)

Lemma flat_elements_text l :
  Forall (fun t => is_elem t = false) l -> flat_map elements l = [].
Proof.
  induction 1 as [|t l Ht _ IH]; simpl; [done|]. by destruct t.
Qed.

Section text.
Variables (i : nat) (tc : list node).
Hypothesis tc_text : Forall (fun t => is_elem t = false) tc.

Lemma elements_text : flat_map elements tc = [].
Proof. by apply flat_elements_text. Qed.

Lemma elements_filter_is_elem cs :
  flat_map elements (List.filter is_elem cs) = flat_map elements cs.
Proof.
  induction cs as [|x cs IH]; simpl; [done|].
  destruct x; simpl; by rewrite IH.
Qed.

Lemma set_children_node k e cs :
  update_node i (set_children tc) (Elem k e cs)
  = if Nat.eqb i k then Elem k e tc
    else Elem k e (List.map (update_node i (set_children tc)) cs).
Proof. simpl. by destruct (Nat.eqb i k). Qed.

(** The elements left in place together with those cut off are, up to
    their order, the elements there were. *)
Lemma text_ids n :
  List.map node_id
    (elements (update_node i (set_children tc) n)
     ++ flat_map elements (cut i n))
  ≡ₚ subtree_ids n.
Proof.
  unfold subtree_ids.
  induction n as [s|k e cs IH] using node_ind; [done|].
  rewrite set_children_node. simpl cut.
  destruct (Nat.eqb i k).
  - rewrite !elements_Elem, elements_text, elements_filter_is_elem. done.
  - rewrite !elements_Elem. simpl. f_equiv.
    induction IH as [|x cs Hx _ IHcs]; simpl; [done|].
    rewrite flat_map_app, !map_app in *. rewrite <- IHcs, <- Hx.
    rewrite <- !app_assoc. f_equiv. rewrite !app_assoc. f_equiv.
    apply Permutation_app_comm.
Qed.

Lemma text_ids_list l :
  List.map node_id
    (flat_map elements (List.map (update_node i (set_children tc)) l)
     ++ flat_map elements (flat_map (cut i) l))
  ≡ₚ List.map node_id (flat_map elements l).
Proof.
  induction l as [|x l IH]; simpl; [done|].
  pose proof (text_ids x) as Hx. unfold subtree_ids in Hx.
  rewrite flat_map_app, !map_app in *. rewrite <- IH, <- Hx.
  rewrite <- !app_assoc. f_equiv. rewrite !app_assoc. f_equiv.
  apply Permutation_app_comm.
Qed.

(** Every element is still there, with its data, and unchanged when the
    node [i] is not in its subtree. *)
Lemma text_member n x :
  x ∈ elements n ->
  exists y,
    y ∈ elements (update_node i (set_children tc) n)
        ++ flat_map elements (cut i n)
    /\ node_id y = node_id x
    /\ node_element y = node_element x
    /\ (i ∉ subtree_ids x -> y = x).
Proof.
  revert x. induction n as [s|k e cs IH] using node_ind; intros x.
  { by intros ?%elem_of_nil. }
  rewrite elements_Elem. intros [->|Hx]%elem_of_cons.
  - exists (update_node i (set_children tc) (Elem k e cs)).
    split; [|split; [|split]].
    + apply elem_of_app. left. rewrite set_children_node.
      destruct (Nat.eqb i k); left.
    + rewrite set_children_node. by destruct (Nat.eqb i k).
    + rewrite set_children_node. by destruct (Nat.eqb i k).
    + apply update_node_notin.
  - apply elem_of_flat_map in Hx as (c & Hx & Hc).
    rewrite set_children_node. simpl cut. destruct (Nat.eqb i k).
    + exists x. split; [|done]. apply elem_of_app. right.
      rewrite elements_filter_is_elem. apply elem_of_flat_map. by exists c.
    + rewrite Forall_forall in IH.
      destruct (IH c Hc x Hx) as (y & Hy & ? & ? & ?).
      exists y. split; [|done].
      apply elem_of_app in Hy as [Hy|Hy]; apply elem_of_app.
      * left. rewrite elements_Elem. right. rewrite flat_map_map.
        apply elem_of_flat_map. by exists c.
      * right. apply elem_of_flat_map in Hy as (t & Hy & Ht).
        apply elem_of_flat_map. exists t. split; [done|].
        apply elem_of_flat_map. by exists c.
Qed.

Lemma text_member_list l x :
  x ∈ flat_map elements l ->
  exists y,
    y ∈ flat_map elements (List.map (update_node i (set_children tc)) l)
        ++ flat_map elements (flat_map (cut i) l)
    /\ node_id y = node_id x
    /\ node_element y = node_element x
    /\ (i ∉ subtree_ids x -> y = x).
Proof.
  intros (t & Hx & Ht)%elem_of_flat_map.
  destruct (text_member t x Hx) as (y & Hy & ? & ? & ?).
  exists y. split; [|done].
  apply elem_of_app in Hy as [Hy|Hy]; apply elem_of_app.
  - left. rewrite flat_map_map. apply elem_of_flat_map. by exists t.
  - right. apply elem_of_flat_map in Hy as (u & Hy & Hu).
    apply elem_of_flat_map. exists u. split; [done|].
    apply elem_of_flat_map. by exists t.
Qed.

End text.

Lemma text_children_text s : Forall (fun t => is_elem t = false) (text_children s).
Proof. unfold text_children. destruct (truthy s); by repeat constructor. Qed.

Lemma set_textContent_all i s d :
  all_elements (set_textContent i s d)
  = flat_map elements
      (List.map (update_node i (set_children (text_children s)))
         (root d :: detached d))
    ++ flat_map elements (flat_map (cut i) (root d :: detached d)).
Proof.
  unfold all_elements, set_textContent. simpl.
  by rewrite flat_map_app, <- !app_assoc.
Qed.

Lemma set_textContent_wf i s d : wf d -> wf (set_textContent i s d).
Proof.
  unfold wf, ids. rewrite set_textContent_all.
  rewrite (text_ids_list i (text_children s) (text_children_text s)).
  done.
Qed.

(** A node that was found is found again, with its data, and unchanged
    when the node [i] is not in its subtree. *)
Lemma set_textContent_find_node i s d j x :
  wf d ->
  find_node d j = Some x ->
  exists y,
    find_node (set_textContent i s d) j = Some y
    /\ node_element y = node_element x
    /\ (i ∉ subtree_ids x -> y = x).
Proof.
  intros Hwf [Hx Hj]%find_node_elem.
  destruct (text_member_list i (text_children s) (root d :: detached d) x Hx)
    as (y & Hy & Hid & ? & ?).
  exists y. split; [|done].
  apply find_node_unique; [by apply set_textContent_wf| |congruence].
  by rewrite set_textContent_all.
Qed.

End DomFacts.


(* ===================================================================== *)
(** * Presentation: what showing or clearing an error leaves alone        *)
(* ===================================================================== *)

Module PresentationFacts.
Import Js Dom Exn JsMap ListFacts DomFacts.

(** ** Keeping the nodes *)

Lemma keeps_refl cls disp sub d : keeps cls disp sub d d.
Proof. intros j x Hx. exists x. split; [done|]. split; [|done]. eauto. Qed.

Lemma keeps_trans c1 d1 s1 c2 d2 s2 d d' d'' :
  keeps c1 d1 s1 d d' -> keeps c2 d2 s2 d' d'' ->
  keeps (c1 ++ c2) (d1 ++ d2) (s1 ++ s2) d d''.
Proof.
  intros H1 H2 j x Hx.
  destruct (H1 j x Hx) as (y & Hy & Hdata1 & Hsub1).
  destruct (H2 j y Hy) as (z & Hz & Hdata2 & Hsub2).
  exists z. split; [done|]. split.
  - intros e He. destruct (Hdata1 e He) as (e' & He' & Hc1 & Hd1).
    destruct (Hdata2 e' He') as (e'' & He'' & Hc2 & Hd2).
    exists e''. split; [done|]. split.
    + intros [??]%not_elem_of_app. rewrite Hc2, Hc1; done.
    + intros [??]%not_elem_of_app. rewrite Hd2, Hd1; done.
  - intros Hsub.
    assert (y = x) as -> by (apply Hsub1; intros t Ht; apply Hsub, elem_of_app; by left).
    apply Hsub2. intros t Ht. apply Hsub, elem_of_app. by right.
Qed.

Lemma keeps_weaken c1 d1 s1 c2 d2 s2 d d' :
  keeps c1 d1 s1 d d' ->
  (forall j, j ∈ c1 -> j ∈ c2) -> (forall j, j ∈ d1 -> j ∈ d2) ->
  (forall j, j ∈ s1 -> j ∈ s2) ->
  keeps c2 d2 s2 d d'.
Proof.
  intros H Hc Hd Hs j x Hx. destruct (H j x Hx) as (y & Hy & Hdata & Hsub).
  exists y. split; [done|]. split.
  - intros e He. destruct (Hdata e He) as (e' & He' & Hc1 & Hd1).
    exists e'. split; [done|]. split.
    + intros Hj. apply Hc1. intros ?. by apply Hj, Hc.
    + intros Hj. apply Hd1. intros ?. by apply Hj, Hd.
  - intros H'. apply Hsub. intros t Ht. by apply H', Hs.
Qed.

(** The stages of a presentation. *)

Lemma keeps_classes i f d :
  keeps [i] [] [i] d (update i (on_element (with_classList f)) d).
Proof.
  intros j x Hx. exists (update_node i (on_element (with_classList f)) x).
  split; [by rewrite update_data_find_node, Hx|]. split.
  - intros e He. rewrite update_data_element, He. simpl.
    apply find_node_elem in Hx as [_ ->].
    destruct (decide (j = i)) as [->|Hne]; eexists; (split; [done|]).
    + split; [|done]. intros Hi. exfalso. apply Hi. left.
    + done.
  - intros H. apply update_node_notin, H. left.
Qed.

Lemma keeps_display i v d :
  keeps [] [i] [i] d (update i (on_element (with_display v)) d).
Proof.
  intros j x Hx. exists (update_node i (on_element (with_display v)) x).
  split; [by rewrite update_data_find_node, Hx|]. split.
  - intros e He. rewrite update_data_element, He. simpl.
    apply find_node_elem in Hx as [_ ->].
    destruct (decide (j = i)) as [->|Hne]; eexists; (split; [done|]).
    + split; [done|]. intros Hi. exfalso. apply Hi. left.
    + done.
  - intros H. apply update_node_notin, H. left.
Qed.

Lemma keeps_restyled i d d' : restyled i d d' -> keeps [i] [] [i] d d'.
Proof.
  induction 1 as [|d' f _ IH]; [apply keeps_refl|].
  eapply keeps_weaken.
  - eapply keeps_trans; [exact IH|apply keeps_classes].
  - by intros j [?|?]%elem_of_app.
  - by intros j [?|?]%elem_of_app.
  - by intros j [?|?]%elem_of_app.
Qed.



Lemma keeps_set_textContent i s d :
  wf d -> keeps [] [] [i] d (set_textContent i s d).
Proof.
  intros Hwf j x Hx.
  destruct (set_textContent_find_node i s d j x Hwf Hx) as (y & Hy & He & Hsub).
  exists y. split; [done|]. split.
  - intros e Hxe. rewrite He, Hxe. by exists e.
  - intros H. apply Hsub, H. left.
Qed.

(** ** The class changes *)

Lemma remove_if_set_op c element d :
  V.remove_if_set c element d = d
  \/ exists f, V.remove_if_set c element d
               = update element (on_element (with_classList f)) d.
Proof.
  unfold V.remove_if_set. destruct c as [x|]; [|by left].
  destruct (truthy x); [|by left]. right. by eexists.
Qed.

Lemma add_if_set_op c element d :
  V.add_if_set c element d = d
  \/ exists f, V.add_if_set c element d
               = update element (on_element (with_classList f)) d.
Proof.
  unfold V.add_if_set. destruct c as [x|]; [|by left].
  destruct (truthy x); [|by left]. right. by eexists.
Qed.

Lemma add_or_op c fallback element d :
  V.add_or c fallback element d = d
  \/ exists f, V.add_or c fallback element d
               = update element (on_element (with_classList f)) d.
Proof.
  unfold V.add_or. destruct (truthy_opt c); [apply add_if_set_op|].
  right. by eexists.
Qed.

Lemma remove_or_op c fallback element d :
  V.remove_or c fallback element d = d
  \/ exists f, V.remove_or c fallback element d
               = update element (on_element (with_classList f)) d.
Proof.
  unfold V.remove_or. destruct (truthy_opt c); [apply remove_if_set_op|].
  right. by eexists.
Qed.


Lemma mark_valid_restyled o element d :
  restyled element d (V.mark_valid o element d).
Proof.
  unfold V.mark_valid.
  apply restyled_op; [|apply add_or_op].
  apply restyled_op; [|apply remove_if_set_op].
  apply restyled_op; [|apply remove_or_op].
  constructor.
Qed.

(** ** What the restyling does not change *)

Lemma startsWith_hash_true s :
  startsWith_hash s = true -> exists r, s = String "#" r.
Proof.
  destruct s as [|a r]; [done|].
  destruct a as [[] [] [] [] [] [] [] []]; try done. by exists r.
Qed.

Lemma getErrorContainer_restyled i d d' c fieldName :
  restyled i d d' ->
  FormConnector.getErrorContainer d' c fieldName
  = FormConnector.getErrorContainer d c fieldName.
Proof.
  intros H. unfold FormConnector.getErrorContainer.
  destruct (get fieldName _); [done|].
  destruct (FormConnector.errorContainer _) as [s|]; [|done].
  destruct (truthy s && startsWith_hash s) eqn:E; [|done].
  apply andb_true_iff in E as [_ [r ->]%startsWith_hash_true].
  apply (restyled_document_querySelector _ _ _ r H).
Qed.


(** ** Creating a container *)



(** ** showError and clearError *)

Ltac list_incl :=
  intros ?;
  rewrite ?elem_of_app, ?elem_of_cons, ?elem_of_app, ?elem_of_cons,
    ?elem_of_nil;
  tauto.


Lemma clearError_keeps fieldName s element :
  wf (V.document s) ->
  FormConnector.field (V.form (V.self s)) fieldName = Some element ->
  keeps [element]
    (match
       FormConnector.getErrorContainer (V.document s) (V.form (V.self s))
         fieldName
     with
     | Some c => [c]
     | None => [fresh (V.document s)]
     end)
    (V.touched fieldName s ++ [fresh (V.document s)])
    (V.document s) (V.document (V.clearError fieldName s)).
Proof.
  intros Hwf Hreg. unfold V.clearError, V.touched. rewrite Hreg.
  pose proof (mark_valid_restyled (V.options (V.self s)) element (V.document s))
    as Hr.
  set (d3 := V.mark_valid (V.options (V.self s)) element (V.document s)) in *.
  assert (wf d3) as Hwf3 by by eapply restyled_wf.
  rewrite (getErrorContainer_restyled _ _ _ _ _ Hr).
  destruct (FormConnector.getErrorContainer (V.document s) _ _) as [c|].
  - simpl. eapply keeps_weaken.
    + eapply keeps_trans; [apply (keeps_restyled _ _ _ Hr)|].
      eapply keeps_trans; [by apply keeps_set_textContent|].
      apply keeps_display.
    + list_incl.
    + list_incl.
    + list_incl.
  - simpl. eapply keeps_weaken; [apply (keeps_restyled _ _ _ Hr)|..].
    + list_incl.
    + list_incl.
    + list_incl.
Qed.



(** ** validateField *)







End PresentationFacts.

(* ===================================================================== *)
(** * Regular expressions: the matcher and the language                   *)
(* ===================================================================== *)

Module ReFacts.
Import Re.

Lemma lang_Void s : lang Void s <-> False.
Proof. split; [inversion 1|done]. Qed.

Lemma lang_Eps_iff s : lang Eps s <-> s = [].
Proof. split; [by inversion 1|intros ->; constructor]. Qed.

Lemma lang_Cls_iff p s : lang (Cls p) s <-> exists c, s = [c] /\ p c = true.
Proof.
  split.
  - inversion 1; subst. by eexists.
  - intros (c & -> & ?). by constructor.
Qed.

Lemma lang_Cat_iff r1 r2 s :
  lang (Cat r1 r2) s
  <-> exists s1 s2, s = s1 ++ s2 /\ lang r1 s1 /\ lang r2 s2.
Proof.
  split.
  - inversion 1; subst. by eexists _, _.
  - intros (s1 & s2 & -> & ? & ?). by constructor.
Qed.

Lemma lang_Alt_iff r1 r2 s : lang (Alt r1 r2) s <-> lang r1 s \/ lang r2 s.
Proof.
  split.
  - inversion 1; subst; [by left|by right].
  - intros [?|?]; [by apply lang_Alt_l|by apply lang_Alt_r].
Qed.

Lemma nullable_lang r : nullable r = true <-> lang r [].
Proof.
  induction r as [| |p|r1 IH1 r2 IH2|r1 IH1 r2 IH2|r IH]; simpl.
  - by rewrite lang_Void.
  - by rewrite lang_Eps_iff.
  - rewrite lang_Cls_iff. split; [done|]. by intros (c & ? & _).
  - rewrite andb_true_iff, IH1, IH2, lang_Cat_iff. split.
    + intros [H1 H2]. by exists [], [].
    + intros (s1 & s2 & E & H1 & H2). symmetry in E.
      apply app_eq_nil in E as [-> ->]. done.
  - by rewrite orb_true_iff, IH1, IH2, lang_Alt_iff.
  - split; [constructor|done].
Qed.

(** A match of [r*] that starts with [c] starts with a match of [r]
    that starts with [c]. *)
Lemma lang_Star_cons_inv r c s :
  lang (Star r) (c :: s) ->
  exists s1 s2, s = s1 ++ s2 /\ lang r (c :: s1) /\ lang (Star r) s2.
Proof.
  intros H. remember (Star r) as r' eqn:Er. remember (c :: s) as t eqn:Et.
  revert s Et.
  induction H as [| | | | | |r0 t1 t2 H1 _ H2 IH2]; intros u Et; try done.
  injection Er as ->.
  destruct t1 as [|c' t1]; simpl in Et.
  - by apply IH2.
  - injection Et as -> <-. by exists t1, t2.
Qed.

Lemma lang_Cat_cons r1 r2 c s :
  lang (Cat r1 r2) (c :: s)
  <-> (exists s1 s2, s = s1 ++ s2 /\ lang r1 (c :: s1) /\ lang r2 s2)
      \/ (lang r1 [] /\ lang r2 (c :: s)).
Proof.
  rewrite lang_Cat_iff. split.
  - intros (s1 & s2 & E & H1 & H2). destruct s1 as [|c' s1]; simpl in E.
    + subst. by right.
    + injection E as -> ->. left. by exists s1, s2.
  - intros [(s1 & s2 & -> & H1 & H2)|[H1 H2]].
    + by exists (c :: s1), s2.
    + by exists [], (c :: s).
Qed.

Lemma deriv_lang c r s : lang (deriv c r) s <-> lang r (c :: s).
Proof.
  revert s. induction r as [| |p|r1 IH1 r2 IH2|r1 IH1 r2 IH2|r IH];
    intros s; simpl.
  - by rewrite !lang_Void.
  - rewrite lang_Void, lang_Eps_iff. done.
  - rewrite lang_Cls_iff. destruct (p c) eqn:E.
    + rewrite lang_Eps_iff. split.
      * intros ->. by exists c.
      * by intros (c' & [= -> ->] & _).
    + rewrite lang_Void. split; [done|].
      intros (c' & [= -> ->] & ?). congruence.
  - assert (lang (Cat (deriv c r1) r2) s
            <-> exists s1 s2, s = s1 ++ s2 /\ lang r1 (c :: s1) /\ lang r2 s2)
      as Hcat.
    { rewrite lang_Cat_iff. split.
      - intros (s1 & s2 & -> & H1 & H2). exists s1, s2. by rewrite <- IH1.
      - intros (s1 & s2 & -> & H1 & H2). exists s1, s2. by rewrite IH1. }
    rewrite lang_Cat_cons. destruct (nullable r1) eqn:En.
    + rewrite lang_Alt_iff, Hcat, IH2, <- nullable_lang, En. tauto.
    + rewrite Hcat, <- nullable_lang, En. split; [by left|].
      by intros [?|[? _]].
  - by rewrite !lang_Alt_iff, IH1, IH2.
  - rewrite lang_Cat_iff. split.
    + intros (s1 & s2 & -> & H1 & H2).
      apply (lang_Star_cons r (c :: s1) s2); [by apply IH|done].
    + intros (s1 & s2 & -> & H1 & H2)%lang_Star_cons_inv.
      exists s1, s2. by rewrite IH.
Qed.

(** The matcher decides the language. *)
Lemma accepts_lang r s : accepts r s = true <-> lang r s.
Proof.
  revert r. induction s as [|c s IH]; intros r; simpl.
  - apply nullable_lang.
  - rewrite IH. apply deriv_lang.
Qed.

End ReFacts.

(* ===================================================================== *)
(** * The rule engine: what each rule tests                               *)
(* ===================================================================== *)

Module EngineFacts.
Import Js Dom Exn Validator.





(** ** Comparisons *)

Lemma num_lt_Q (x y : Q) : num_lt (Num x) (Num y) = true <-> (x < y)%Q.
Proof.
  unfold num_lt. rewrite negb_true_iff.
  split.
  - intros H. apply Qnot_le_lt. intros Hle.
    apply Qle_bool_iff in Hle. congruence.
  - intros H. destruct (Qle_bool y x) eqn:E; [|done].
    apply Qle_bool_iff in E. exfalso. by apply (Qlt_not_le x y).
Qed.

Lemma num_lt_nat (a b : nat) : num_lt (of_nat a) (of_nat b) = true <-> a < b.
Proof.
  unfold of_nat. rewrite num_lt_Q, <- Zlt_Qlt. lia.
Qed.

Lemma fails_Some b rule msg :
  error rule = msg -> (fails b rule = Some msg <-> b = true).
Proof. intros <-. unfold fails. destruct b; split; done. Qed.

(** ** The length of a string *)

Lemma units_at_byte (n : N) :
  (n < 256)%N ->
  units_at (ascii_of_N n)
  = if (n <? 128)%N then 1
    else if (n <? 192)%N then 0 else if (n <? 240)%N then 1 else 2.
Proof. intros H. unfold units_at. by rewrite N_ascii_embedding. Qed.

Ltac byte_cases :=
  repeat match goal with
         | |- context [N.modulo ?a ?b] =>
             let x := fresh "x" in set (x := N.modulo a b) in *; clearbody x
         | |- context [N.div ?a ?b] =>
             let x := fresh "x" in set (x := N.div a b) in *; clearbody x
         end;
  repeat match goal with
         | |- context [N.ltb ?a ?b] => destruct (N.ltb_spec a b); try lia
         end;
  reflexivity.

(** The bytes of one character add up to its code units. *)
Lemma units_utf8_char c :
  (c < 1114112)%N -> list_sum (map units_at (utf8_char c)) = utf16_units c.
Proof.
  intros Hc. unfold utf8_char, utf16_units.
  destruct (N.ltb_spec c 128) as [H1|H1].
  { cbn [map list_sum]. rewrite units_at_byte by lia. byte_cases. }
  destruct (N.ltb_spec c 2048) as [H2|H2].
  { cbn [map list_sum].
    assert (c / 64 < 32)%N by (apply N.Div0.div_lt_upper_bound; lia).
    assert (c mod 64 < 64)%N by (apply N.mod_lt; lia).
    rewrite !units_at_byte by lia. byte_cases. }
  destruct (N.ltb_spec c 65536) as [H3|H3].
  { cbn [map list_sum].
    assert (c / 4096 < 16)%N by (apply N.Div0.div_lt_upper_bound; lia).
    assert ((c / 64) mod 64 < 64)%N by (apply N.mod_lt; lia).
    assert (c mod 64 < 64)%N by (apply N.mod_lt; lia).
    rewrite !units_at_byte by lia. byte_cases. }
  cbn [map list_sum].
  assert (c / 262144 < 5)%N by (apply N.Div0.div_lt_upper_bound; lia).
  assert ((c / 4096) mod 64 < 64)%N by (apply N.mod_lt; lia).
  assert ((c / 64) mod 64 < 64)%N by (apply N.mod_lt; lia).
  assert (c mod 64 < 64)%N by (apply N.mod_lt; lia).
  rewrite !units_at_byte by lia. byte_cases.
Qed.

Lemma string_length_utf8 cps :
  Forall (fun c => (c < 1114112)%N) cps ->
  string_length (utf8 cps) = list_sum (map utf16_units cps).
Proof.
  unfold string_length, utf8. rewrite list_ascii_of_string_of_list_ascii.
  induction 1 as [|c cps Hc _ IH]; [done|].
  cbn [flat_map map list_sum]. rewrite map_app, list_sum_app, IH.
  by rewrite units_utf8_char.
Qed.

(** The length rules count UTF-16 code units, not bytes and not
    characters.  On the string made of the code points [cps], a code
    point below 65536 counts for one and any other for two; [min(n)]
    fails exactly when that count is below [n] and [max(n)] exactly when
    it is above, so a string of [n] units passes both; a bound that is
    [NaN] never fails. *)
Theorem length_bounds d v cps (n : nat) msg :
  value v = VString (utf8 cps) ->
  Forall (fun c => (c < 1114112)%N) cps ->
  (checkRule d v {| rtype := Min (of_nat n); error := msg |} = Some msg
   <-> list_sum (map utf16_units cps) < n)
  /\ (checkRule d v {| rtype := Max (of_nat n); error := msg |} = Some msg
      <-> n < list_sum (map utf16_units cps))
  /\ checkRule d v {| rtype := Min NaN; error := msg |} = None
  /\ checkRule d v {| rtype := Max NaN; error := msg |} = None.
Proof.
  intros Hv Hcps. unfold checkRule. rewrite Hv. cbn [rtype].
  rewrite !fails_Some by done. unfold num_gt.
  rewrite !num_lt_nat, string_length_utf8 by done. done.
Qed.

Lemma length_bounds_witness :
  (checkRule Sample.one_field
     (with_value (VString (utf8 [1076; 1072; 128512]%N)) (Sample.engine []))
     {| rtype := Min (of_nat 5); error := "short" |} = Some "short"
   <-> list_sum (map utf16_units [1076; 1072; 128512]%N) < 5)
  /\ (checkRule Sample.one_field
        (with_value (VString (utf8 [1076; 1072; 128512]%N))
           (Sample.engine []))
        {| rtype := Max (of_nat 5); error := "short" |} = Some "short"
      <-> 5 < list_sum (map utf16_units [1076; 1072; 128512]%N))
  /\ checkRule Sample.one_field
       (with_value (VString (utf8 [1076; 1072; 128512]%N)) (Sample.engine []))
       {| rtype := Min NaN; error := "short" |} = None
  /\ checkRule Sample.one_field
       (with_value (VString (utf8 [1076; 1072; 128512]%N)) (Sample.engine []))
       {| rtype := Max NaN; error := "short" |} = None.
Proof.
  apply (length_bounds Sample.one_field
           (with_value (VString (utf8 [1076; 1072; 128512]%N))
              (Sample.engine []))
           [1076; 1072; 128512]%N 5 "short").
  - reflexivity.
  - repeat constructor.
Defined.

(** ** What a control yields *)

Lemma is_type_inj ty ty' e :
  is_type ty e = true -> is_type ty' e = String.eqb ty ty'.
Proof.
  unfold is_type. intros ->%String.eqb_eq. done.
Qed.

Lemma getValue_number d v e :
  find_element d (element v) = Some e ->
  is_tag "input" e = true ->
  is_type "number" e || is_type "range" e = true ->
  getValue d v = VNumber (valueAsNumber (ctl e)).
Proof.
  intros He Hin Hty. unfold getValue. rewrite He, Hin.
  assert (is_type "checkbox" e = false) as ->.
  { apply orb_true_iff in Hty as [H|H];
      by rewrite (is_type_inj _ "checkbox" _ H). }
  assert (is_type "radio" e = false) as ->.
  { apply orb_true_iff in Hty as [H|H];
      by rewrite (is_type_inj _ "radio" _ H). }
  by rewrite Hty.
Qed.

(** A number or range input is judged by its [valueAsNumber], never by
    the text typed.  [number()] fails exactly when that is [NaN] (an
    empty field, or one the platform cannot read as a number); the
    bounds are strict and need a number: when it is [NaN], [minNumber]
    and [maxNumber] never fail, and when it is the number [q],
    [minNumber(b)] fails exactly when [q < b] and [maxNumber(b)] exactly
    when [q > b], a bound that is [NaN] never failing. *)
Theorem number_bounds d v e msg :
  find_element d (element v) = Some e ->
  is_tag "input" e = true ->
  is_type "number" e || is_type "range" e = true ->
  (checkRule d (refresh d v) {| rtype := IsNumber; error := msg |} = Some msg
   <-> valueAsNumber (ctl e) = NaN)
  /\ (forall b,
        valueAsNumber (ctl e) = NaN ->
        checkRule d (refresh d v) {| rtype := MinNumber b; error := msg |}
        = None
        /\ checkRule d (refresh d v) {| rtype := MaxNumber b; error := msg |}
           = None)
  /\ (forall q,
        valueAsNumber (ctl e) = Num q ->
        (forall b,
           (checkRule d (refresh d v)
              {| rtype := MinNumber (Num b); error := msg |} = Some msg
            <-> (q < b)%Q)
           /\ (checkRule d (refresh d v)
                 {| rtype := MaxNumber (Num b); error := msg |} = Some msg
               <-> (b < q)%Q))
        /\ checkRule d (refresh d v) {| rtype := MinNumber NaN; error := msg |}
           = None
        /\ checkRule d (refresh d v) {| rtype := MaxNumber NaN; error := msg |}
           = None).
Proof.
  intros He Hin Hty. unfold checkRule, refresh.
  cbn [rtype value with_value]. rewrite (getValue_number d v e) by done.
  cbn [numeric]. split; [|split].
  - rewrite fails_Some by done.
    destruct (valueAsNumber (ctl e)); simpl; split; done.
  - intros b ->. done.
  - intros q ->. split; [|done]. intros b. cbn [isNaN negb andb].
    rewrite !fails_Some by done. unfold num_gt. by rewrite !num_lt_Q.
Qed.

Lemma number_bounds_witness :
  (checkRule Sample.number_field
     (refresh Sample.number_field (Sample.engine []))
     {| rtype := IsNumber; error := "n" |} = Some "n"
   <-> valueAsNumber (ctl (Sample.input "number" [("name", "a")] "")) = NaN)
  /\ (forall b,
        valueAsNumber (ctl (Sample.input "number" [("name", "a")] "")) = NaN ->
        checkRule Sample.number_field
          (refresh Sample.number_field (Sample.engine []))
          {| rtype := MinNumber b; error := "n" |} = None
        /\ checkRule Sample.number_field
             (refresh Sample.number_field (Sample.engine []))
             {| rtype := MaxNumber b; error := "n" |} = None)
  /\ (forall q,
        valueAsNumber (ctl (Sample.input "number" [("name", "a")] ""))
        = Num q ->
        (forall b,
           (checkRule Sample.number_field
              (refresh Sample.number_field (Sample.engine []))
              {| rtype := MinNumber (Num b); error := "n" |} = Some "n"
            <-> (q < b)%Q)
           /\ (checkRule Sample.number_field
                 (refresh Sample.number_field (Sample.engine []))
                 {| rtype := MaxNumber (Num b); error := "n" |} = Some "n"
               <-> (b < q)%Q))
        /\ checkRule Sample.number_field
             (refresh Sample.number_field (Sample.engine []))
             {| rtype := MinNumber NaN; error := "n" |} = None
        /\ checkRule Sample.number_field
             (refresh Sample.number_field (Sample.engine []))
             {| rtype := MaxNumber NaN; error := "n" |} = None).
Proof.
  apply (number_bounds Sample.number_field (Sample.engine [])
           (Sample.input "number" [("name", "a")] "") "n"); reflexivity.
Defined.

(** The string rules on a control that does not yield a string.  On a
    checkbox, a number or a range input, [min], [max], [email] and
    [pattern] never fail, while [string()] and [custom()] always fail,
    the custom predicate not being called. *)
Theorem string_rules_on_other_controls d v e rule :
  find_element d (element v) = Some e ->
  is_tag "input" e = true ->
  is_type "checkbox" e || is_type "number" e || is_type "range" e = true ->
  is_string (getValue d v) = false
  /\ match rtype rule with
     | Min _ | Max _ | Email | Pattern _ =>
         checkRule d (refresh d v) rule = None
     | IsString | Custom _ =>
         checkRule d (refresh d v) rule = Some (error rule)
     | _ => True
     end.
Proof.
  intros He Hin Hty.
  assert (exists x, getValue d v = x /\ is_string x = false) as (x & Hx & Hs).
  { unfold getValue. rewrite He, Hin.
    destruct (is_type "checkbox" e) eqn:Hc; [by eexists|].
    simpl in Hty.
    assert (is_type "radio" e = false) as ->.
    { apply orb_true_iff in Hty as [H|H];
        by rewrite (is_type_inj _ "radio" _ H). }
    rewrite Hty. by eexists. }
  split; [by rewrite Hx|].
  unfold checkRule, refresh. simpl. rewrite Hx.
  destruct (rtype rule); try done; destruct x; done.
Qed.

Lemma string_rules_on_other_controls_witness :
  is_string
    (getValue Sample.checkbox_field
       (Sample.engine [])) = false
  /\ checkRule Sample.checkbox_field
       (refresh Sample.checkbox_field
          (Sample.engine []))
       (Sample.rule (Min (of_nat 3)) "short") = None.
Proof.
  apply (string_rules_on_other_controls
           Sample.checkbox_field
           (Sample.engine []) (Sample.input "checkbox" [("name", "agree")] "on")
           (Sample.rule (Min (of_nat 3)) "short")); reflexivity.
Defined.


Lemma is_tag_inj tag tag' e :
  is_tag tag e = true -> is_tag tag' e = String.eqb tag tag'.
Proof.
  unfold is_tag. intros ->%String.eqb_eq. done.
Qed.

(** What [required()] tests on each kind of control: a checkbox must be
    checked; an input of another type than checkbox, radio, number,
    range and file, a textarea and a select must hold a non-empty
    string; a number or range input always passes, empty or not; an
    element that is no form control always fails. *)
Theorem required_by_control d v e msg :
  find_element d (element v) = Some e ->
  let r := {| rtype := Required; error := msg |} in
  (is_tag "input" e = true -> is_type "checkbox" e = true ->
   checkRule d (refresh d v) r = if checked (ctl e) then None else Some msg)
  /\ (is_tag "input" e = true ->
      is_type "number" e || is_type "range" e = true ->
      checkRule d (refresh d v) r = None)
  /\ (is_tag "input" e = true ->
      is_type "checkbox" e || is_type "radio" e || is_type "number" e
      || is_type "range" e || is_type "file" e = false ->
      checkRule d (refresh d v) r
      = if truthy (Dom.value (ctl e)) then None else Some msg)
  /\ (is_tag "textarea" e || is_tag "select" e = true ->
      checkRule d (refresh d v) r
      = if truthy (Dom.value (ctl e)) then None else Some msg)
  /\ (native_control e = false -> checkRule d (refresh d v) r = Some msg).
Proof.
  intros He r. unfold checkRule, refresh, r. simpl.
  unfold getValue. rewrite He. repeat split.
  - intros -> ->. by destruct (checked (ctl e)).
  - intros -> Hty.
    assert (is_type "checkbox" e = false) as ->.
    { apply orb_true_iff in Hty as [H|H];
        by rewrite (is_type_inj _ "checkbox" _ H). }
    assert (is_type "radio" e = false) as ->.
    { apply orb_true_iff in Hty as [H|H];
        by rewrite (is_type_inj _ "radio" _ H). }
    by rewrite Hty.
  - intros ->.
    intros [[[[-> ->]%orb_false_iff ->]%orb_false_iff ->]%orb_false_iff
              ->]%orb_false_iff.
    simpl. by destruct (truthy _).
  - intros [H|H]%orb_true_iff.
    + rewrite (is_tag_inj _ "input" _ H), H. simpl. by destruct (truthy _).
    + rewrite (is_tag_inj _ "input" _ H), (is_tag_inj _ "textarea" _ H), H.
      simpl. by destruct (truthy _).
  - unfold native_control.
    intros [[-> ->]%orb_false_iff ->]%orb_false_iff. done.
Qed.

Lemma required_by_control_witness :
  checkRule Sample.one_field (refresh Sample.one_field (Sample.engine []))
    {| rtype := Required; error := "r" |}
  = (if truthy (Dom.value (ctl (Sample.input "text" [("name", "a")] "")))
     then None else Some "r").
Proof.
  destruct (required_by_control Sample.one_field (Sample.engine [])
              (Sample.input "text" [("name", "a")] "") "r" eq_refl)
    as (_ & _ & H & _).
  apply H; reflexivity.
Defined.

(** ** Radio groups *)

Lemma head_filter_find {A} (f : A -> bool) (l : list A) :
  head (List.filter f l) = List.find f l.
Proof.
  induction l as [|x l IH]; simpl; [done|]. by destruct (f x).
Qed.

Lemma checked_radio_matches name n :
  node_matches (checked_radio name) n = is_checked_radio name n.
Proof.
  destruct n as [i e cs|s]; [|done]. simpl.
  unfold attr_is, is_tag. rewrite orb_false_r, andb_true_r.
  destruct (getAttribute "type" e) as [ty|];
    destruct (getAttribute "name" e) as [nm|]; simpl;
    rewrite ?andb_false_r, ?andb_assoc; done.
Qed.

(** Every radio input of a group reads the same value.  For a group
    whose name can be quoted, it is the value of the first element
    below the form, in document order, that is an [input] with the
    type attribute [radio] (in any case of letters), the group's name
    and the checked state, whichever radio the engine was created on;
    and [null] when there is no such element. *)
Theorem radio_group_value d v e name formNode :
  find_element d (element v) = Some e ->
  is_tag "input" e = true ->
  is_type "radio" e = true ->
  getAttribute "name" e = Some name ->
  quotable name = true ->
  find_node d (form v) = Some formNode ->
  getValue d v
  = match List.find (is_checked_radio name) (descendants formNode) with
    | Some checkedRadio => VString (control_value checkedRadio)
    | None => VNull
    end
  /\ (forall v' e',
        find_element d (element v') = Some e' ->
        is_tag "input" e' = true ->
        is_type "radio" e' = true ->
        getAttribute "name" e' = Some name ->
        form v' = form v ->
        getValue d v' = getValue d v).
Proof.
  intros He Hin Hty Hname _ Hform.
  assert (forall v' e',
            find_element d (element v') = Some e' ->
            is_tag "input" e' = true ->
            is_type "radio" e' = true ->
            getAttribute "name" e' = Some name ->
            getValue d v'
            = match querySelector d (form v') (checked_radio name) with
              | Some checkedRadio => VString (control_value checkedRadio)
              | None => VNull
              end) as H.
  { intros v' e' He' Hin' Hty' Hname'. unfold getValue.
    rewrite He', Hin', (is_type_inj _ "checkbox" _ Hty'), Hty', Hname'.
    done. }
  split.
  - rewrite (H v e) by done. unfold querySelector, querySelectorAll.
    rewrite Hform. unfold querySelectorAll_in.
    rewrite head_filter_find.
    rewrite (DomFacts.find_ext _ (is_checked_radio name)); [done|].
    intros n. apply checked_radio_matches.
  - intros v' e' He' Hin' Hty' Hname' Hform'.
    rewrite (H v' e'), (H v e), Hform' by done. done.
Qed.

Lemma radio_group_value_witness :
  getValue Sample.radio_group (Sample.engine []) = VString "blue".
Proof.
  destruct (radio_group_value Sample.radio_group (Sample.engine [])
              (Sample.radio [("name", "color")] "red" false) "color"
              (Elem 1 (plain "form" [] [])
                 [Elem 2 (Sample.radio [("name", "color")] "red" false) [];
                  Elem 3 (Sample.radio [("name", "color")] "blue" true) []]))
    as [H _]; [reflexivity..|].
  exact H.
Defined.


(** ** The constructor *)

Lemma message_truthy e dflt m :
  truthy dflt = true -> message e dflt = Some m -> truthy m = true.
Proof.
  unfold message. intros Hd [= <-]. by apply ValidatorFacts.or_else_truthy.
Qed.

Lemma Forall_rules_when (P : ValidationRule -> Prop) (b : bool) rule v :
  P rule -> Forall P (rules v) -> Forall P (rules (when b (push rule) v)).
Proof.
  intros Hr Hv. rewrite ValidatorFacts.rules_when. apply Forall_app.
  split; [done|]. destruct b; [by constructor|constructor].
Qed.


Lemma loadConstraintValidation_loud e v v' :
  Forall loud (rules v) ->
  loadConstraintValidation e v = Return v' ->
  Forall loud (rules v').
Proof.
  intros Hv. unfold loadConstraintValidation.
  assert (forall v1, Forall loud (rules v1) ->
            Forall loud
              (rules (when (native_control e && required (ctl e))
                        (required_
                           (message e "Поле обязательно для заполнения")) v1)))
    as Hlast.
  { intros v1 H1. apply Forall_rules_when; [|done].
    unfold loud. simpl. by apply ValidatorFacts.or_else_truthy. }
  destruct (is_tag "input" e).
  - unfold loadInputConstraints.
    set (v5 := when _ _ (when _ _ (when _ _ (when _ _ (when _ _ v))))).
    assert (Forall loud (rules v5)) as H5.
    { unfold v5, required_, min_, max_, minNumber_, maxNumber_.
      repeat (apply Forall_rules_when;
              [unfold loud; simpl; by apply ValidatorFacts.or_else_truthy|]).
      done. }
    assert (forall v6, Forall loud (rules v6) ->
              Forall loud
                (rules (when (is_type "email" e)
                          (email_ (message e "Некорректный email")) v6)))
      as Hemail.
    { intros v6 H6. apply Forall_rules_when; [|done].
      unfold loud. simpl. by apply ValidatorFacts.or_else_truthy. }
    destruct (text_type e && truthy (pattern (ctl e))).
    + destruct (pattern_RegExp (ctl e)) as [re|]; simpl; [|done].
      intros [= <-]. apply Hlast, Hemail.
      unfold pattern_. rewrite ValidatorFacts.rules_push.
      apply Forall_app. split; [done|]. constructor; [|constructor].
      unfold loud. simpl. by apply ValidatorFacts.or_else_truthy.
    + simpl. intros [= <-]. by apply Hlast, Hemail.
  - destruct (is_tag "textarea" e); simpl.
    + intros [= <-]. apply Hlast.
      unfold loadTextAreaConstraints, required_, min_, max_.
      repeat (apply Forall_rules_when;
              [unfold loud; simpl; by apply ValidatorFacts.or_else_truthy|]).
      done.
    + intros [= <-]. by apply Hlast.
Qed.

Lemma same_when (b : bool) rule v0 v :
  same_field v0 v -> same_field v0 (when b (push rule) v).
Proof. by destruct b. Qed.

Lemma loadConstraintValidation_identity e v v' :
  loadConstraintValidation e v = Return v' -> same_field v v'.
Proof.
  unfold loadConstraintValidation.
  destruct (is_tag "input" e).
  - unfold loadInputConstraints.
    destruct (text_type e && truthy (pattern (ctl e))).
    + destruct (pattern_RegExp (ctl e)); simpl; [|done].
      intros [= <-].
      unfold required_, min_, max_, minNumber_, maxNumber_, email_.
      do 2 apply same_when. unfold pattern_.
      assert (forall rule v1, same_field v v1 -> same_field v (push rule v1))
        as Hpush by done.
      apply Hpush. by repeat apply same_when.
    + simpl. intros [= <-].
      unfold required_, min_, max_, minNumber_, maxNumber_, email_.
      by repeat apply same_when.
  - destruct (is_tag "textarea" e); simpl; intros [= <-];
      unfold loadTextAreaConstraints, required_, min_, max_;
      by repeat apply same_when.
Qed.

(** The engine a constructor returns is the one of the field asked for,
    holds the value read at construction, and every rule it derived from
    the native constraints carries a non-empty message (the control's
    own validation message or the library's default), so that none of
    them is passed over by the evaluation loop. *)
Theorem constructor_outcome d element form fieldName v :
  Validator.new d element form fieldName = Return v ->
  Forall (fun rule => truthy (error rule) = true) (rules v)
  /\ Validator.fieldName v = fieldName
  /\ Validator.element v = element
  /\ Validator.form v = form
  /\ value v = getValue d v.
Proof.
  unfold Validator.new. intros H.
  destruct (find_element d element) as [e|] eqn:He.
  - split.
    + eapply (loadConstraintValidation_loud e); [|exact H]. constructor.
    + apply loadConstraintValidation_identity in H as (H1 & H2 & H3 & H4).
      cbn [Validator.element Validator.form Validator.fieldName value with_value]
        in H1, H2, H3, H4.
      repeat split; try done.
      rewrite H4. unfold getValue. by rewrite H1, H2.
  - injection H as <-. repeat split. constructor.
Qed.

Lemma constructor_outcome_witness :
  Forall (fun rule => truthy (error rule) = true)
    (rules (refresh Sample.required_field
         (Sample.engine
            [Sample.rule Required "Поле обязательно для заполнения";
             Sample.rule Required "Поле обязательно для заполнения"]))).
Proof.
  apply (constructor_outcome Sample.required_field 2 1 "a"). reflexivity.
Defined.




(** ** The e-mail test *)

Lemma split_at_app c a b :
  forallb (fun x => negb (Ascii.eqb x c)) a = true ->
  split_at c (a ++ c :: b) = Some (a, b).
Proof.
  induction a as [|x a IH]; simpl.
  - by rewrite Ascii.eqb_refl.
  - intros [Hx Ha]%andb_true_iff. apply negb_true_iff in Hx.
    by rewrite Hx, IH.
Qed.

Lemma split_at_Some c l a b :
  split_at c l = Some (a, b) -> l = a ++ c :: b.
Proof.
  revert a. induction l as [|x l IH]; intros a; simpl; [done|].
  destruct (Ascii.eqb x c) eqn:E.
  - apply Ascii.eqb_eq in E as ->. by intros [= <- <-].
  - destruct (split_at c l) as [[a' b']|]; [|done].
    intros [= <- <-]. simpl. f_equal. by apply IH.
Qed.

Lemma dot_before_end_app p q :
  q <> [] -> dot_before_end (p ++ "."%char :: q) = true.
Proof.
  intros Hq. induction p as [|x p IH]; simpl.
  - by destruct q.
  - destruct (p ++ "."%char :: q) eqn:E; [by destruct p|].
    rewrite IH. apply orb_true_r.
Qed.

Lemma dot_before_end_split l :
  dot_before_end l = true ->
  exists p q, l = p ++ "."%char :: q /\ q <> [].
Proof.
  induction l as [|x l IH]; simpl; [done|].
  destruct l as [|y l]; [done|].
  intros [Hx|Hl]%orb_true_iff.
  - apply Ascii.eqb_eq in Hx as ->. by exists [], (y :: l).
  - destruct (IH Hl) as (p & q & -> & Hq). by exists (x :: p), q.
Qed.

Lemma list_ascii_app (a b : string) :
  list_ascii_of_string (a ++ b)%string
  = list_ascii_of_string a ++ list_ascii_of_string b.
Proof. induction a as [|x a IH]; simpl; [done|]. by rewrite IH. Qed.

Lemma string_of_list_app (a b : list ascii) :
  string_of_list_ascii (a ++ b)
  = (string_of_list_ascii a ++ string_of_list_ascii b)%string.
Proof. induction a as [|x a IH]; simpl; [done|]. by rewrite IH. Qed.

Lemma list_ascii_nil (a : string) : list_ascii_of_string a = [] -> a = "".
Proof. by destruct a. Qed.

(** White space at the head of a list, and what follows the list. *)
Lemma starts_with_app w l r :
  starts_with w l = true -> starts_with w (l ++ r) = true.
Proof.
  revert l. induction w as [|a w IH]; intros [|b l]; simpl; try done.
  intros [-> H]%andb_true_iff. by apply IH.
Qed.

Lemma starts_with_sep w l x r :
  forallb (fun c => negb (Ascii.eqb c x)) w = true ->
  starts_with w (l ++ x :: r) = starts_with w l.
Proof.
  revert l. induction w as [|a w IH]; intros l; simpl; [by destruct l|].
  intros [Ha Hw]%andb_true_iff. destruct l as [|b l]; simpl.
  - apply negb_true_iff in Ha. by rewrite Ha.
  - by rewrite IH.
Qed.

Lemma ws_prefix_app l r : ws_prefix l = true -> ws_prefix (l ++ r) = true.
Proof.
  unfold ws_prefix. rewrite !existsb_exists.
  intros (w & ? & ?). exists w. split; [done|]. by apply starts_with_app.
Qed.

Lemma ws_prefix_sep x l r :
  apart x = true -> ws_prefix (l ++ x :: r) = ws_prefix l.
Proof.
  unfold apart, ws_prefix. generalize white_space as ws.
  induction ws as [|w ws IH]; simpl; [done|].
  intros [Hw Hws]%andb_true_iff. by rewrite starts_with_sep, IH.
Qed.

Lemma ws_prefix_apart x r : apart x = true -> ws_prefix (x :: r) = false.
Proof.
  intros Hx. change (x :: r) with ([] ++ x :: r).
  by rewrite ws_prefix_sep.
Qed.

Lemma plain_run_app_r a b : plain_run (a ++ b) = true -> plain_run b = true.
Proof.
  induction a as [|x a IH]; simpl; [done|].
  by intros [_ ?]%andb_true_iff; auto.
Qed.

Lemma plain_run_app_l a b : plain_run (a ++ b) = true -> plain_run a = true.
Proof.
  induction a as [|x a IH]; [done|].
  change ((x :: a) ++ b) with (x :: a ++ b). cbn [plain_run].
  intros H. apply andb_true_iff in H as [H Ha].
  apply andb_true_iff in H as [Hw Hx]. rewrite (IH Ha), Hx, !andb_true_r.
  destruct (ws_prefix (x :: a)) eqn:E; [|done].
  apply (ws_prefix_app _ b) in E.
  change ((x :: a) ++ b) with (x :: a ++ b) in E. by rewrite E in Hw.
Qed.

Lemma plain_run_sep a x b :
  apart x = true ->
  plain_run a = true -> plain_run (x :: b) = true ->
  plain_run (a ++ x :: b) = true.
Proof.
  intros Hx. induction a as [|y a IH]; [done|].
  intros Hya Hb. change ((y :: a) ++ x :: b) with (y :: a ++ x :: b).
  cbn [plain_run] in Hya |- *.
  apply andb_true_iff in Hya as [Hya Ha].
  apply andb_true_iff in Hya as [Hw Hy].
  rewrite (IH Ha Hb), Hy, !andb_true_r.
  change (y :: a ++ x :: b) with ((y :: a) ++ x :: b).
  by rewrite ws_prefix_sep.
Qed.

Lemma plain_not_at a :
  plain_run a = true ->
  forallb (fun x => negb (Ascii.eqb x "@")) a = true.
Proof.
  induction a as [|x a IH]; [done|]. cbn [plain_run forallb].
  intros H. apply andb_true_iff in H as [H Ha].
  apply andb_true_iff in H as [_ Hx]. rewrite Hx. by apply IH.
Qed.

Lemma apart_dot : apart "." = true.
Proof. reflexivity. Qed.

Lemma plain_run_dot q : plain_run ("."%char :: q) = plain_run q.
Proof.
  cbn [plain_run]. by rewrite (ws_prefix_apart _ _ apart_dot).
Qed.

(** The e-mail rule accepts a string exactly when it reads [a@b.c]
    with [a], [b] and [c] not empty and holding no [@] and none of the
    white-space characters, those outside ASCII included ([b] and [c]
    may hold further dots). *)
Theorem email_shape s :
  emailRegex_test s = true
  <-> exists a b c : string,
        s = (a ++ "@" ++ b ++ "." ++ c)%string
        /\ a <> "" /\ b <> "" /\ c <> ""
        /\ plain_run (list_ascii_of_string a) = true
        /\ plain_run (list_ascii_of_string b) = true
        /\ plain_run (list_ascii_of_string c) = true.
Proof.
  unfold emailRegex_test. split.
  - destruct (split_at "@" (list_ascii_of_string s)) as [[local rest]|] eqn:E;
      [|done].
    apply split_at_Some in E.
    destruct local as [|l0 local]; [done|].
    destruct rest as [|r0 tl]; [done|].
    intros [[Hl Hr]%andb_true_iff Hd]%andb_true_iff.
    destruct (dot_before_end_split tl Hd) as (p & q & -> & Hq).
    exists (string_of_list_ascii (l0 :: local)),
           (string_of_list_ascii (r0 :: p)), (string_of_list_ascii q).
    rewrite !list_ascii_of_string_of_list_ascii.
    change (r0 :: p ++ "."%char :: q) with ((r0 :: p) ++ "."%char :: q) in Hr.
    pose proof (plain_run_app_l _ _ Hr) as Hb.
    pose proof (plain_run_app_r _ _ Hr) as Hc. rewrite plain_run_dot in Hc.
    split; [|split; [done|split; [done|split; [|done]]]].
    + rewrite <- (string_of_list_ascii_of_string s), E.
      change ("@"%char :: r0 :: p ++ "."%char :: q)
        with (["@"%char] ++ (r0 :: p) ++ ["."%char] ++ q).
      by rewrite !string_of_list_app.
    + intros Hq'. apply Hq.
      by rewrite <- (list_ascii_of_string_of_list_ascii q), Hq'.
  - intros (a & b & c & -> & Ha & Hb & Hc & Hpa & Hpb & Hpc).
    rewrite (list_ascii_app a), (list_ascii_app "@"), (list_ascii_app b),
      (list_ascii_app ".").
    destruct (list_ascii_of_string a) as [|a0 la] eqn:Ea;
      [by apply list_ascii_nil in Ea|].
    destruct (list_ascii_of_string b) as [|b0 lb] eqn:Eb;
      [by apply list_ascii_nil in Eb|].
    assert (list_ascii_of_string c <> []) as Hc'.
    { intros Hn. by apply list_ascii_nil in Hn. }
    generalize dependent (list_ascii_of_string c). intros lc Hpc Hc'.
    change ((a0 :: la) ++ list_ascii_of_string "@"
            ++ (b0 :: lb) ++ list_ascii_of_string "." ++ lc)
      with ((a0 :: la) ++ "@"%char :: b0 :: (lb ++ "."%char :: lc)).
    rewrite split_at_app by by apply plain_not_at.
    rewrite Hpa.
    change (b0 :: lb ++ "."%char :: lc) with ((b0 :: lb) ++ "."%char :: lc).
    rewrite plain_run_sep; [|apply apart_dot|done|by rewrite plain_run_dot].
    by rewrite dot_before_end_app.
Qed.


(** ** The array rules *)

(** The array rules on what a control yields.  No control yields a
    true array ([files] is a file list or [null]), so [array()] fails on
    every field, and [minLength] and [maxLength] fail on none. *)
Theorem array_rules_on_controls d v msg n :
  (forall e, find_element d (element v) = Some e ->
             Array_isArray (files (ctl e)) = false) ->
  Array_isArray (getValue d v) = false
  /\ checkRule d (refresh d v) {| rtype := IsArray; error := msg |}
     = Some msg
  /\ checkRule d (refresh d v) {| rtype := MinLength n; error := msg |}
     = None
  /\ checkRule d (refresh d v) {| rtype := MaxLength n; error := msg |}
     = None.
Proof.
  intros Hfiles.
  assert (Array_isArray (getValue d v) = false) as Hx.
  { unfold getValue.
    destruct (find_element d (element v)) as [e|] eqn:He; [|done].
    specialize (Hfiles e eq_refl).
    repeat match goal with
           | |- context [if ?b then _ else _] => destruct b
           | |- context [match ?o with Some _ => _ | None => _ end] =>
               destruct o
           end; done. }
  split; [done|]. unfold checkRule, refresh. simpl.
  destruct (getValue d v); done.
Qed.

Lemma array_rules_on_controls_witness :
  Array_isArray (getValue Sample.two_files (Sample.engine [])) = false
  /\ checkRule Sample.two_files
       (refresh Sample.two_files (Sample.engine []))
       {| rtype := IsArray; error := "a" |} = Some "a"
  /\ checkRule Sample.two_files
       (refresh Sample.two_files (Sample.engine []))
       {| rtype := MinLength (of_nat 3); error := "a" |} = None
  /\ checkRule Sample.two_files
       (refresh Sample.two_files (Sample.engine []))
       {| rtype := MaxLength (of_nat 3); error := "a" |} = None.
Proof.
  apply (array_rules_on_controls Sample.two_files (Sample.engine []) "a"
           (of_nat 3)).
  intros e H. vm_compute in H. injection H as <-. reflexivity.
Defined.

End EngineFacts.

(* ===================================================================== *)
(** * The field registry: what is registered, and under which name        *)
(* ===================================================================== *)

Module RegistryFacts.
Import Js Dom JsMap JsMapFacts ListFacts FormConnector FormConnectorFacts.

Lemma fold_left_invariant {A B} (P : A -> Prop) (Q : B -> Prop)
    (f : A -> B -> A) (l : list B) (a : A) :
  (forall a x, Q x -> P a -> P (f a x)) ->
  Forall Q l -> P a -> P (fold_left f l a).
Proof.
  intros Hf. revert a. induction l as [|x l IH]; intros a Hl Ha; simpl; [done|].
  apply Forall_cons in Hl as [Hx Hl]. apply IH; [done|]. by apply Hf.
Qed.

Lemma formElements_matches e : matches formElements e = is_control e.
Proof.
  unfold matches, formElements, is_control.
  cbn [existsb forallb matches_simple]. unfold attr_is.
  destruct (getAttribute "type" e) as [ty|].
  - unfold attr_eqb.
    change (existsb (String.eqb "type") case_insensitive_attributes) with true.
    cbv iota.
    change (ascii_lowercase "submit") with "submit".
    change (ascii_lowercase "button") with "button".
    change (ascii_lowercase "reset") with "reset".
    destruct (String.eqb (tagName e) "input"),
      (String.eqb (ascii_lowercase ty) "submit"),
      (String.eqb (ascii_lowercase ty) "button"),
      (String.eqb (ascii_lowercase ty) "reset"),
      (String.eqb (tagName e) "textarea"),
      (String.eqb (tagName e) "select"),
      (String.eqb (tagName e) "output"); reflexivity.
  - destruct (String.eqb (tagName e) "input"),
      (String.eqb (tagName e) "textarea"),
      (String.eqb (tagName e) "select"),
      (String.eqb (tagName e) "output"); reflexivity.
Qed.

Lemma listed_set D k i (m : JsMap.t nat) e cs :
  truthy k = true ->
  Elem i e cs ∈ D ->
  getAttribute "field-name" e = Some k
  \/ (getAttribute "field-name" e = None /\ is_control e = true
      /\ (getAttribute "name" e = Some k \/ getAttribute "id" e = Some k)) ->
  listed D m -> listed D (set k i m).
Proof.
  intros Hk Hin Hnew Hm k' j'. destruct (decide (k' = k)) as [->|Hne].
  - rewrite get_set_eq. intros [= <-]. split; [done|]. by exists e, cs.
  - rewrite get_set_ne by done. apply Hm.
Qed.

Lemma register_tagged_listed D m x :
  x ∈ D -> listed D m -> listed D (register_tagged m x).
Proof.
  intros Hx Hm. destruct x as [i e cs|s]; simpl; [|done].
  destruct (getAttribute "field-name" e) as [f|] eqn:Ef; [|done].
  destruct (truthy f) eqn:Hf; [|done].
  apply (listed_set D f i m e cs); auto.
Qed.

Lemma register_control_listed D m x :
  x ∈ D /\ node_matches formElements x = true ->
  listed D m -> listed D (register_control m x).
Proof.
  intros [Hx Hsel] Hm. destruct x as [i e cs|s]; simpl; [|done].
  change (matches formElements e = true) in Hsel.
  rewrite formElements_matches in Hsel.
  unfold hasAttribute.
  destruct (getAttribute "field-name" e) eqn:Ef; [done|].
  destruct (unclaimed (getAttribute "name" e) m) eqn:Ename.
  { destruct (getAttribute "name" e) as [n|] eqn:En; [|done]. simpl.
    simpl in Ename. apply andb_true_iff in Ename as [Hn _].
    apply (listed_set D n i m e cs); auto. }
  destruct (unclaimed (getAttribute "id" e) m) eqn:Eid; [|done].
  destruct (getAttribute "id" e) as [k|] eqn:Ek; [|done]. simpl.
  simpl in Eid. apply andb_true_iff in Eid as [Hk _].
  apply (listed_set D k i m e cs); auto.
Qed.

Lemma collect_listed formNode :
  listed (descendants formNode) (collectFields_in formNode).
Proof.
  unfold collectFields_in, querySelectorAll_in.
  apply (fold_left_invariant _
           (fun x => x ∈ descendants formNode
                     /\ node_matches formElements x = true)).
  - intros m x. apply register_control_listed.
  - apply Forall_forall. intros x [? ?]%elem_of_filter_bool. done.
  - apply (fold_left_invariant _ (fun x => x ∈ descendants formNode)).
    + intros m x. apply register_tagged_listed.
    + apply Forall_forall. by intros x [? ?]%elem_of_filter_bool.
    + intros k j. done.
Qed.

(** What a field can be.  On a form whose registry can be built, a
    name that [field] resolves is never empty, and the node it resolves
    to is a descendant of the form that carries the name as its
    field-name marker, or else a control without marker that has the
    name as its [name] or as its [id] and is an [input] whose type
    attribute is not submit, button or reset (in any case of letters),
    a [textarea], a [select] or an [output]: a button is registered
    under its marker only.  On a form that is not in the document
    nothing is resolved. *)
Theorem registered_fields d form o k j :
  constructible d form o = true ->
  field (new d form o) k = Some j ->
  truthy k = true
  /\ exists formNode e cs,
       find_node d form = Some formNode
       /\ Elem j e cs ∈ descendants formNode
       /\ (getAttribute "field-name" e = Some k
           \/ (getAttribute "field-name" e = None
               /\ is_control e = true
               /\ (getAttribute "name" e = Some k
                   \/ getAttribute "id" e = Some k))).
Proof.
  intros _.
  destruct (find_node d form) as [formNode|] eqn:Hform.
  - rewrite (field_new _ _ _ _ _ Hform).
    intros [Hk (e & cs & ? & ?)]%collect_listed.
    split; [done|]. by exists formNode, e, cs.
  - unfold field, new, collectFields. rewrite Hform.
    destruct (collectLabelsAndErrorContainers _ _ _ _). done.
Qed.

Lemma registered_fields_witness :
  truthy "a" = true
  /\ exists formNode e cs,
       find_node Sample.one_field 1 = Some formNode
       /\ Elem 2 e cs ∈ descendants formNode
       /\ (getAttribute "field-name" e = Some "a"
           \/ (getAttribute "field-name" e = None
               /\ is_control e = true
               /\ (getAttribute "name" e = Some "a"
                   \/ getAttribute "id" e = Some "a"))).
Proof.
  apply (registered_fields Sample.one_field 1 no_options "a" 2); reflexivity.
Defined.


(** ** Names and ids of plain controls *)

Lemma register_control_claims m i e cs :
  getAttribute "field-name" e = None ->
  (forall n, getAttribute "name" e = Some n -> truthy n = true ->
             exists j, get n (register_control m (Elem i e cs)) = Some j)
  /\ (forall k, truthy_opt (getAttribute "name" e) = false ->
                getAttribute "id" e = Some k -> truthy k = true ->
                exists j, get k (register_control m (Elem i e cs)) = Some j).
Proof.
  intros Ef. simpl. unfold hasAttribute. rewrite Ef. split.
  - intros n Hn Ht. rewrite Hn. simpl. rewrite Ht. simpl.
    destruct (has n m) eqn:Hhas; simpl.
    + apply has_true in Hhas as [j Hj].
      destruct (unclaimed (getAttribute "id" e) m) eqn:Eid; [|by exists j].
      destruct (getAttribute "id" e) as [k|]; [|done]. simpl.
      by apply (get_set_claimed k i m n j).
    + exists i. apply get_set_eq.
  - intros k Hname Hid Hk.
    assert (unclaimed (getAttribute "name" e) m = false) as ->.
    { destruct (getAttribute "name" e) as [n|]; [|done].
      simpl in *. by rewrite Hname. }
    rewrite Hid. simpl. rewrite Hk. simpl.
    destruct (has k m) eqn:Hhas; simpl.
    + by apply has_true in Hhas.
    + exists i. apply get_set_eq.
Qed.

Lemma controls_claimed l m x k :
  x ∈ l ->
  (forall m', exists j, get k (register_control m' x) = Some j) ->
  exists j, get k (fold_left register_control l m) = Some j.
Proof.
  intros [l1 [l2 ->]]%list_elem_of_split Hx.
  rewrite fold_left_app. simpl.
  destruct (Hx (fold_left register_control l1 m)) as [j Hj].
  exists j. by apply controls_keep.
Qed.

(** Every named control can be reached.  On a form whose registry can
    be built, for an [input] (not of type submit, button or reset), a
    [textarea], a [select] or an [output] of the form that carries no
    marker, a non-empty [name] is a name [field] resolves, and so is a
    non-empty [id] when the control has no name (the control that
    answers may be another one that claimed the name first). *)
Theorem named_controls_resolve d form o formNode i e cs :
  constructible d form o = true ->
  find_node d form = Some formNode ->
  Elem i e cs ∈ descendants formNode ->
  is_control e = true ->
  getAttribute "field-name" e = None ->
  (forall n, getAttribute "name" e = Some n -> truthy n = true ->
             exists j, field (new d form o) n = Some j)
  /\ (forall k, truthy_opt (getAttribute "name" e) = false ->
                getAttribute "id" e = Some k -> truthy k = true ->
                exists j, field (new d form o) k = Some j).
Proof.
  intros _ Hform Hin Hsel Ef.
  assert (Elem i e cs ∈ querySelectorAll_in formNode formElements) as Hx.
  { apply elem_of_filter_bool. split; [|done].
    change (matches formElements e = true).
    by rewrite formElements_matches. }
  split.
  - intros n Hn Ht. rewrite (field_new _ _ _ _ _ Hform).
    unfold collectFields_in. eapply controls_claimed; [exact Hx|].
    intros m'. destruct (register_control_claims m' i e cs Ef) as [H _].
    by apply H.
  - intros k Hname Hid Hk. rewrite (field_new _ _ _ _ _ Hform).
    unfold collectFields_in. eapply controls_claimed; [exact Hx|].
    intros m'. destruct (register_control_claims m' i e cs Ef) as [_ H].
    by apply H.
Qed.

Lemma named_controls_resolve_witness :
  exists j, field (new Sample.same_name_twice 1 no_options) "a" = Some j.
Proof.
  destruct (named_controls_resolve Sample.same_name_twice 1 no_options
              (Elem 1 (plain "form" [] [])
                 [Elem 2 (Sample.input "text" [("name", "a"); ("id", "x")] "")
                    [];
                  Elem 3 (Sample.input "text" [("name", "a"); ("id", "y")] "")
                    []])
              3 (Sample.input "text" [("name", "a"); ("id", "y")] "") [])
    as [H _].
  - reflexivity.
  - reflexivity.
  - simpl. right. left.
  - reflexivity.
  - reflexivity.
  - apply (H "a"); reflexivity.
Defined.

Lemma register_control_other m x k :
  (forall i e cs, x = Elem i e cs ->
     getAttribute "field-name" e = None ->
     getAttribute "name" e <> Some k /\ getAttribute "id" e <> Some k) ->
  get k (register_control m x) = get k m.
Proof.
  intros Hx. destruct x as [i e cs|s]; simpl; [|done].
  unfold hasAttribute.
  destruct (getAttribute "field-name" e) eqn:Ef; [done|].
  destruct (Hx i e cs eq_refl Ef) as [Hname Hid].
  destruct (unclaimed (getAttribute "name" e) m).
  { destruct (getAttribute "name" e) as [n|]; [|done]. simpl.
    apply get_set_ne. congruence. }
  destruct (unclaimed (getAttribute "id" e) m); [|done].
  destruct (getAttribute "id" e) as [n|]; [|done]. simpl.
  apply get_set_ne. congruence.
Qed.

Lemma controls_other l m k :
  (forall i e cs, Elem i e cs ∈ l ->
     getAttribute "field-name" e = None ->
     getAttribute "name" e <> Some k /\ getAttribute "id" e <> Some k) ->
  get k (fold_left register_control l m) = get k m.
Proof.
  revert m. induction l as [|x l IH]; intros m Hl; simpl; [done|].
  rewrite IH.
  - apply register_control_other. intros i e cs ->.
    apply (Hl i e cs). left.
  - intros i e cs Hin. apply (Hl i e cs). by right.
Qed.

(** Among plain controls the first one wins a name.  On a form whose
    registry can be built, when no element of the form carries [n] as
    its marker, [field(n)] resolves the first control without marker,
    in document order, whose [name] is [n], provided no control before
    it has [n] as its name or id.  The controls are the elements
    [is_control] describes, in document order. *)
Theorem first_name_wins d form o formNode l1 i e cs l2 n :
  constructible d form o = true ->
  find_node d form = Some formNode ->
  List.filter
    (fun x => match x with Elem _ e' _ => is_control e' | Text _ => false end)
    (descendants formNode)
  = l1 ++ Elem i e cs :: l2 ->
  getAttribute "field-name" e = None ->
  getAttribute "name" e = Some n ->
  truthy n = true ->
  Forall (fun y => marker y <> Some n) (descendants formNode) ->
  (forall j e' cs', Elem j e' cs' ∈ l1 ->
     getAttribute "field-name" e' = None ->
     getAttribute "name" e' <> Some n /\ getAttribute "id" e' <> Some n) ->
  field (new d form o) n = Some i.
Proof.
  intros _ Hform Hsplit Ef Hname Hn Hmark Hl1.
  rewrite (field_new _ _ _ _ _ Hform). unfold collectFields_in.
  assert (querySelectorAll_in formNode formElements = l1 ++ Elem i e cs :: l2)
    as ->.
  { rewrite <- Hsplit. unfold querySelectorAll_in.
    apply filter_ext. intros [j e' cs'|t]; [|done].
    apply formElements_matches. }
  rewrite fold_left_app. simpl fold_left at 1.
  apply controls_keep.
  set (m0 := fold_left register_tagged _ _).
  assert (get n m0 = None) as H0.
  { unfold m0. rewrite tagged_others; [done|].
    unfold querySelectorAll_in. rewrite Forall_forall in Hmark.
    apply Forall_forall. intros y [_ Hy]%elem_of_filter_bool. by apply Hmark. }
  assert (get n (fold_left register_control l1 m0) = None) as H1.
  { by rewrite controls_other. }
  simpl. unfold hasAttribute. rewrite Ef, Hname. simpl.
  apply has_false in H1. rewrite Hn, H1. simpl. apply get_set_eq.
Qed.

Lemma first_name_wins_witness :
  field (new Sample.same_name_twice 1 no_options) "a" = Some 2.
Proof.
  apply (first_name_wins Sample.same_name_twice 1 no_options
           (Elem 1 (plain "form" [] [])
              [Elem 2 (Sample.input "text" [("name", "a"); ("id", "x")] "") [];
               Elem 3 (Sample.input "text" [("name", "a"); ("id", "y")] "") []])
           [] 2 (Sample.input "text" [("name", "a"); ("id", "x")] "") []
           [Elem 3 (Sample.input "text" [("name", "a"); ("id", "y")] "") []]).
  - reflexivity.
  - reflexivity.
  - reflexivity.
  - reflexivity.
  - reflexivity.
  - reflexivity.
  - repeat constructor; discriminate.
  - intros j e' cs' H. by apply elem_of_nil in H.
Defined.


(** ** The three tables *)

Lemma keys_set_NoDup {A} k (a : A) (m : JsMap.t A) :
  NoDup (keys m) -> NoDup (keys (set k a m)).
Proof.
  intros Hm. destruct (get k m) eqn:E.
  - rewrite keys_set_known; [done|]. by rewrite E.
  - rewrite set_new by done. unfold keys in *. rewrite map_app. simpl.
    apply NoDup_app. split; [done|]. split.
    + intros x Hx [->|[]%elem_of_nil]%elem_of_cons.
      by apply get_keys in E.
    + apply NoDup_singleton.
Qed.

Lemma register_tagged_NoDup m x :
  NoDup (keys m) -> NoDup (keys (register_tagged m x)).
Proof.
  intros Hm. destruct x as [i e cs|s]; simpl; [|done].
  destruct (getAttribute "field-name" e) as [f|]; [|done].
  destruct (truthy f); [|done]. by apply keys_set_NoDup.
Qed.

Lemma register_control_NoDup m x :
  NoDup (keys m) -> NoDup (keys (register_control m x)).
Proof.
  intros Hm. destruct x as [i e cs|s]; simpl; [|done].
  destruct (hasAttribute "field-name" e); [done|].
  destruct (unclaimed (getAttribute "name" e) m).
  { destruct (getAttribute "name" e); [|done]. by apply keys_set_NoDup. }
  destruct (unclaimed (getAttribute "id" e) m); [|done].
  destruct (getAttribute "id" e); [|done]. by apply keys_set_NoDup.
Qed.

Lemma collectFields_NoDup d form : NoDup (keys (collectFields d form)).
Proof.
  unfold collectFields. destruct (find_node d form) as [formNode|].
  - unfold collectFields_in.
    apply (fold_left_invariant (fun m => NoDup (keys m)) (fun _ => True)).
    + intros m x _. apply register_control_NoDup.
    + by apply Forall_forall.
    + apply (fold_left_invariant (fun m => NoDup (keys m)) (fun _ => True)).
      * intros m x _. apply register_tagged_NoDup.
      * by apply Forall_forall.
      * constructor.
  - constructor.
Qed.

Lemma collect_tables d form o inputs ls0 ecs0 k :
  NoDup (keys inputs) ->
  let r := fold_left (collect_one d form o) inputs (ls0, ecs0) in
  get k (fst r)
  = match get k inputs with
    | Some j => Some (resolve_label d form j)
    | None => get k ls0
    end
  /\ get k (snd r)
     = match get k inputs with
       | Some j =>
           match resolve_errorContainer d o j with
           | Some c => Some c
           | None => get k ecs0
           end
       | None => get k ecs0
       end.
Proof.
  revert ls0 ecs0. induction inputs as [|[k0 j0] inputs IH];
    intros ls0 ecs0 Hnd; simpl; [done|].
  unfold keys in Hnd. simpl in Hnd. apply NoDup_cons in Hnd as [Hk0 Hnd].
  destruct (IH (set k0 (resolve_label d form j0) ls0)
              (match resolve_errorContainer d o j0 with
               | Some c => set k0 c ecs0
               | None => ecs0
               end) Hnd) as [IH1 IH2].
  simpl in IH1, IH2. rewrite IH1, IH2. clear IH IH1 IH2.
  destruct (String.eqb k k0) eqn:E.
  - apply String.eqb_eq in E as ->.
    apply (get_keys k0 inputs) in Hk0. rewrite Hk0.
    rewrite get_set_eq. split; [done|].
    destruct (resolve_errorContainer d o j0); [|done]. by rewrite get_set_eq.
  - apply String.eqb_neq in E.
    rewrite get_set_ne by done.
    destruct (resolve_errorContainer d o j0); [|done].
    by rewrite get_set_ne.
Qed.

Lemma tables_new d form o k :
  get k (labels (new d form o))
  = match field (new d form o) k with
    | Some j => Some (resolve_label d form j)
    | None => None
    end
  /\ get k (errorContainers (new d form o))
     = match field (new d form o) k with
       | Some j => resolve_errorContainer d (with_defaults o) j
       | None => None
       end.
Proof.
  unfold field, new, collectLabelsAndErrorContainers.
  pose proof (collect_tables d form (with_defaults o) (collectFields d form)
                empty empty k (collectFields_NoDup d form)) as [H1 H2].
  simpl in H1, H2.
  destruct (fold_left _ _ _) as [ls ecs]. simpl in *.
  rewrite H1, H2.
  destruct (get k (collectFields d form)); [|done].
  split; [done|]. by destruct (resolve_errorContainer _ _ _).
Qed.

(** The three tables of a registry agree.  The label and the error
    container recorded under a field name are the ones resolved from
    the control that the name resolves to, and nothing is recorded under
    a name that resolves to no control. *)
Theorem tables_agree d form o k :
  getLabel (new d form o) k
  = match field (new d form o) k with
    | Some j => resolve_label d form j
    | None => None
    end
  /\ get k (errorContainers (new d form o))
     = match field (new d form o) k with
       | Some j => resolve_errorContainer d (with_defaults o) j
       | None => None
       end.
Proof.
  destruct (tables_new d form o k) as [Hl He]. split; [|done].
  unfold getLabel. rewrite Hl. by destruct (field (new d form o) k).
Qed.

Lemma startsWith_hash_truthy s : startsWith_hash s = true -> truthy s = true.
Proof. by destruct s. Qed.

(** The global error container.  With the option [errorContainer]
    set to [#id], [id] an identifier, on a document that holds an
    element of that id when the registry is built: the first such
    element is recorded for every registered field, and is the
    container of the field whatever becomes of the document
    afterwards; for a name that is not registered nothing is recorded,
    and the container is looked up by [#id] in the document as it is at
    the time of the call. *)
Theorem global_container_shared d form o r g :
  errorContainer o = Some (String "#" r) ->
  constructible d form o = true ->
  document_querySelector d [[SelId r]] = Some g ->
  (forall k j d',
     field (new d form o) k = Some j ->
     getErrorContainer d' (new d form o) k = Some (node_id g))
  /\ (forall k d',
        field (new d form o) k = None ->
        getErrorContainer d' (new d form o) k
        = node_id <$> document_querySelector d' [[SelId r]]).
Proof.
  intros Ho _ Hg.
  assert (errorContainer (options (new d form o)) = Some (String "#" r))
    as Hopt.
  { unfold new. destruct (collectLabelsAndErrorContainers _ _ _ _).
    simpl. by rewrite Ho. }
  split.
  - intros k j d' Hk. unfold getErrorContainer.
    destruct (tables_new d form o k) as [_ ->]. rewrite Hk.
    unfold resolve_errorContainer, configured_container. simpl.
    rewrite Ho. simpl. by rewrite Hg.
  - intros k d' Hk. unfold getErrorContainer.
    destruct (tables_new d form o k) as [_ ->]. rewrite Hk, Hopt. done.
Qed.

Lemma global_container_shared_witness :
  (forall k j d',
     field (new Sample.global_container 1 Sample.errors_option) k = Some j ->
     getErrorContainer d'
       (new Sample.global_container 1 Sample.errors_option) k
     = Some (node_id (Elem 4 (plain "div" [("id", "errors")] []) [])))
  /\ (forall k d',
        field (new Sample.global_container 1 Sample.errors_option) k = None ->
        getErrorContainer d'
          (new Sample.global_container 1 Sample.errors_option) k
        = node_id <$> document_querySelector d' [[SelId "errors"]]).
Proof.
  apply (global_container_shared Sample.global_container 1
           Sample.errors_option "errors"
           (Elem 4 (plain "div" [("id", "errors")] []) []));
    reflexivity.
Defined.

End RegistryFacts.

(* ===================================================================== *)
(** * Presentation: what a validation leaves behind                       *)
(* ===================================================================== *)

Module EffectFacts.
Import Js Dom Exn JsMap JsMapFacts ListFacts DomFacts PresentationFacts.

(** ** Class lists *)

Lemma contains_add_same c l : contains c (class_add c l) = true.
Proof.
  unfold class_add. destruct (contains c l) eqn:E; [done|].
  unfold contains. rewrite existsb_app. simpl.
  rewrite String.eqb_refl. by rewrite orb_true_r.
Qed.

Lemma contains_add_other c x l :
  x <> c -> contains x (class_add c l) = contains x l.
Proof.
  intros Hne. unfold class_add. destruct (contains c l); [done|].
  unfold contains. rewrite existsb_app. simpl.
  apply String.eqb_neq in Hne. rewrite Hne. by rewrite !orb_false_r.
Qed.

Lemma contains_add_mono c x l :
  contains x l = true -> contains x (class_add c l) = true.
Proof.
  intros H. unfold class_add. destruct (contains c l); [done|].
  unfold contains in *. rewrite existsb_app, H. done.
Qed.

Lemma contains_remove_same c l : contains c (class_remove c l) = false.
Proof.
  unfold contains, class_remove. induction l as [|x l IH]; simpl; [done|].
  destruct (String.eqb c x) eqn:E; simpl; [done|]. by rewrite E.
Qed.

Lemma contains_remove_false c x l :
  contains x l = false -> contains x (class_remove c l) = false.
Proof.
  unfold contains, class_remove. induction l as [|y l IH]; simpl; [done|].
  intros [Hy Hl]%orb_false_iff.
  destruct (negb (String.eqb c y)); simpl; [|by apply IH].
  rewrite Hy. by apply IH.
Qed.

Lemma contains_remove_other c x l :
  x <> c -> contains x (class_remove c l) = contains x l.
Proof.
  intros Hne. unfold contains, class_remove.
  induction l as [|y l IH]; simpl; [done|].
  destruct (String.eqb c y) eqn:E; simpl.
  - apply String.eqb_eq in E as <-.
    apply String.eqb_neq in Hne. by rewrite Hne.
  - by rewrite IH.
Qed.

(** ** The class list of the control after the class changes *)

Lemma classes_find i f d e :
  find_element d i = Some e ->
  exists e',
    find_element (update i (on_element (with_classList f)) d) i = Some e'
    /\ classList e' = f (classList e).
Proof.
  intros He. rewrite update_data_find_element, He. simpl.
  rewrite decide_True by done. by eexists.
Qed.

Lemma remove_if_set_find c i d e :
  find_element d i = Some e ->
  exists e',
    find_element (V.remove_if_set c i d) i = Some e'
    /\ classList e' = V.remove_set c (classList e).
Proof.
  intros He. unfold V.remove_if_set, V.remove_set.
  destruct c as [x|]; [|by exists e].
  destruct (truthy x); [|by exists e]. by apply classes_find.
Qed.


Lemma add_or_find c fallback i d e :
  find_element d i = Some e ->
  exists e',
    find_element (V.add_or c fallback i d) i = Some e'
    /\ classList e' = class_add (V.class_or c fallback) (classList e).
Proof.
  intros He. unfold V.add_or, V.class_or, V.add_if_set.
  destruct c as [x|]; simpl; [|by apply classes_find].
  destruct (truthy x); by apply classes_find.
Qed.

Lemma remove_or_find c fallback i d e :
  find_element d i = Some e ->
  exists e',
    find_element (V.remove_or c fallback i d) i = Some e'
    /\ classList e' = class_remove (V.class_or c fallback) (classList e).
Proof.
  intros He. unfold V.remove_or, V.class_or, V.remove_if_set.
  destruct c as [x|]; simpl; [|by apply classes_find].
  destruct (truthy x); by apply classes_find.
Qed.


Lemma mark_valid_find o i d e :
  find_element d i = Some e ->
  exists e',
    find_element (V.mark_valid o i d) i = Some e'
    /\ classList e'
       = class_add (V.class_or (FormConnector.validClass o) "valid")
           (V.remove_set (FormConnector.invalidClass o)
              (class_remove (V.class_or (FormConnector.errorClass o) "error")
                 (classList e))).
Proof.
  intros He. unfold V.mark_valid.
  destruct (remove_or_find (FormConnector.errorClass o) "error" i d e He)
    as (e1 & H1 & E1).
  destruct (remove_if_set_find (FormConnector.invalidClass o) i _ e1 H1)
    as (e2 & H2 & E2).
  destruct (add_or_find (FormConnector.validClass o) "valid" i _ e2 H2)
    as (e3 & H3 & E3).
  exists e3. split; [done|]. by rewrite E3, E2, E1.
Qed.


(** ** The container after its text was set *)






Lemma set_text_and_display_classes i s v d j e :
  wf d ->
  find_element d j = Some e ->
  exists e',
    find_element (set_style_display i v (set_textContent i s d)) j = Some e'
    /\ classList e' = classList e.
Proof.
  intros Hwf He. unfold find_element in He.
  destruct (find_node d j) as [x|] eqn:Hx; [|done].
  destruct (set_textContent_find_node i s d j x Hwf Hx) as (y & Hy & Hel & _).
  unfold set_style_display. rewrite update_data_find_element.
  unfold find_element at 1. rewrite Hy, Hel, He. simpl.
  eexists. split; [done|]. by destruct (decide (j = i)).
Qed.



(** ** What [showError] and [clearError] leave behind *)




Lemma clearError_control fieldName s element e :
  wf (V.document s) ->
  FormConnector.field (V.form (V.self s)) fieldName = Some element ->
  find_element (V.document s) element = Some e ->
  exists e',
    find_element (V.document (V.clearError fieldName s)) element = Some e'
    /\ classList e'
       = class_add
           (V.class_or (FormConnector.validClass (V.options (V.self s))) "valid")
           (V.remove_set (FormConnector.invalidClass (V.options (V.self s)))
              (class_remove
                 (V.class_or (FormConnector.errorClass (V.options (V.self s)))
                    "error")
                 (classList e))).
Proof.
  intros Hwf Hfield He. unfold V.clearError. rewrite Hfield.
  destruct (mark_valid_find (V.options (V.self s)) element _ e He)
    as (e3 & H3 & E3).
  pose proof (restyled_wf _ _ _
                (mark_valid_restyled (V.options (V.self s)) element
                   (V.document s)) Hwf) as Hwf3.
  set (d3 := V.mark_valid _ _ _) in *.
  destruct (FormConnector.getErrorContainer d3 _ fieldName) as [c|].
  - destruct (set_text_and_display_classes c "" "none" d3 element e3
                Hwf3 H3) as (e' & He' & E').
    exists e'. split; [done|]. by rewrite E', E3.
  - exists e3. done.
Qed.








(** ** [reset] *)

Lemma cleared_classes o l :
  contains (V.class_or (FormConnector.validClass o) "valid")
    (class_add (V.class_or (FormConnector.validClass o) "valid")
       (V.remove_set (FormConnector.invalidClass o)
          (class_remove (V.class_or (FormConnector.errorClass o) "error") l)))
  = true
  /\ (V.class_or (FormConnector.errorClass o) "error"
      <> V.class_or (FormConnector.validClass o) "valid" ->
      contains (V.class_or (FormConnector.errorClass o) "error")
        (class_add (V.class_or (FormConnector.validClass o) "valid")
           (V.remove_set (FormConnector.invalidClass o)
              (class_remove (V.class_or (FormConnector.errorClass o) "error")
                 l)))
      = false).
Proof.
  split; [apply contains_add_same|].
  intros Hne. rewrite contains_add_other by done.
  unfold V.remove_set.
  destruct (FormConnector.invalidClass o) as [x|];
    [|apply contains_remove_same].
  destruct (truthy x); [|apply contains_remove_same].
  apply contains_remove_false, contains_remove_same.
Qed.

Lemma clearError_wf fieldName s :
  wf (V.document s) -> wf (V.document (V.clearError fieldName s)).
Proof.
  intros Hwf. unfold V.clearError.
  destruct (FormConnector.field _ _) as [element|]; [|done].
  pose proof (restyled_wf _ _ _
                (mark_valid_restyled (V.options (V.self s)) element
                   (V.document s)) Hwf) as Hwf3.
  destruct (FormConnector.getErrorContainer _ _ _) as [c|]; [|done].
  simpl. unfold set_style_display. by apply update_data_wf, set_textContent_wf.
Qed.

Lemma clearError_found fieldName s j e :
  wf (V.document s) ->
  find_element (V.document s) j = Some e ->
  exists e',
    find_element (V.document (V.clearError fieldName s)) j = Some e'
    /\ (FormConnector.field (V.form (V.self s)) fieldName <> Some j ->
        classList e' = classList e).
Proof.
  intros Hwf He.
  destruct (FormConnector.field (V.form (V.self s)) fieldName)
    as [element|] eqn:Hfield.
  - pose proof (clearError_keeps fieldName s element Hwf Hfield) as Hk.
    unfold find_element in *.
    destruct (find_node (V.document s) j) as [x|] eqn:Hx; [|done].
    destruct (Hk j x Hx) as (y & Hy & Hdata & _).
    destruct (Hdata e He) as (e' & He' & Hcl & _).
    exists e'. rewrite Hy. split; [done|].
    intros Hne. apply Hcl. intros ->%list_elem_of_singleton. done.
  - unfold V.clearError. rewrite Hfield. by exists e.
Qed.

Lemma reset_fold_found vs s j e :
  wf (V.document s) ->
  find_element (V.document s) j = Some e ->
  let s' :=
    fold_left (fun s' (entry : string * nat) => V.clearError (fst entry) s')
      vs s in
  wf (V.document s') /\ V.self s' = V.self s
  /\ exists e', find_element (V.document s') j = Some e'.
Proof.
  revert s e. induction vs as [|[k l] vs IH]; intros s e Hwf He; simpl.
  { split; [done|]. split; [done|]. by exists e. }
  destruct (clearError_found k s j e Hwf He) as (e1 & He1 & _).
  destruct (IH (V.clearError k s) e1 (clearError_wf k s Hwf) He1)
    as (? & Hself & ?).
  split; [done|]. split; [|done].
  rewrite Hself. apply (OrchestratorFacts.clearError_self k s).
Qed.

Lemma reset_fold_cleared vs s j e :
  wf (V.document s) ->
  find_element (V.document s) j = Some e ->
  contains
    (V.class_or (FormConnector.validClass (V.options (V.self s))) "valid")
    (classList e) = true ->
  (V.class_or (FormConnector.errorClass (V.options (V.self s))) "error"
   <> V.class_or (FormConnector.validClass (V.options (V.self s))) "valid" ->
   contains
     (V.class_or (FormConnector.errorClass (V.options (V.self s))) "error")
     (classList e) = false) ->
  exists e',
    find_element
      (V.document
         (fold_left
            (fun s' (entry : string * nat) => V.clearError (fst entry) s')
            vs s)) j
    = Some e'
    /\ contains
         (V.class_or (FormConnector.validClass (V.options (V.self s))) "valid")
         (classList e') = true
    /\ (V.class_or (FormConnector.errorClass (V.options (V.self s))) "error"
        <> V.class_or (FormConnector.validClass (V.options (V.self s))) "valid" ->
        contains
          (V.class_or (FormConnector.errorClass (V.options (V.self s))) "error")
          (classList e') = false).
Proof.
  revert s e. induction vs as [|[k l] vs IH]; intros s e Hwf He Hv Hx; simpl.
  { by exists e. }
  destruct (OrchestratorFacts.clearError_self k s) as [Hself _].
  rewrite <- Hself.
  destruct (decide (FormConnector.field (V.form (V.self s)) k = Some j))
    as [Hfield|Hfield].
  - destruct (clearError_control k s j e Hwf Hfield He) as (e1 & He1 & E1).
    destruct (cleared_classes (V.options (V.self s)) (classList e)) as [? ?].
    apply (IH _ e1); [by apply clearError_wf|done|..]; rewrite Hself, E1; done.
  - destruct (clearError_found k s j e Hwf He) as (e1 & He1 & E1).
    apply (IH _ e1); [by apply clearError_wf|done|..];
      rewrite Hself, (E1 Hfield); done.
Qed.

(** [reset] marks as valid every field that has an engine.  With
    options the presentation can work with (class names that are one
    token each), whatever the state of the field before, its control
    comes out with the valid class and, when that is another class,
    without the error class.  No engine is run. *)
Theorem reset_marks_valid s fieldName l element e :
  V.presentable s = true ->
  wf (V.document s) ->
  get fieldName (V.validators (V.self s)) = Some l ->
  FormConnector.field (V.form (V.self s)) fieldName = Some element ->
  find_element (V.document s) element = Some e ->
  V.heap (V.reset s) = V.heap s
  /\ exists e',
       find_element (V.document (V.reset s)) element = Some e'
       /\ contains
            (V.class_or (FormConnector.validClass (V.options (V.self s)))
               "valid")
            (classList e') = true
       /\ (V.class_or (FormConnector.errorClass (V.options (V.self s))) "error"
           <> V.class_or (FormConnector.validClass (V.options (V.self s)))
                "valid" ->
           contains
             (V.class_or (FormConnector.errorClass (V.options (V.self s)))
                "error")
             (classList e') = false).
Proof.
  intros _ Hwf Hget Hfield He.
  split; [apply OrchestratorFacts.reset_frame|].
  unfold V.reset.
  apply OrchestratorFacts.get_Some_elem in Hget.
  apply list_elem_of_split in Hget as (vs1 & vs2 & ->).
  rewrite fold_left_app. cbn [fold_left fst].
  destruct (reset_fold_found vs1 s element e Hwf He)
    as (Hwf1 & Hself1 & e1 & He1).
  set (s1 := fold_left _ vs1 s) in *.
  rewrite <- Hself1 in Hfield |- *.
  destruct (clearError_control fieldName s1 element e1 Hwf1 Hfield He1)
    as (e2 & He2 & E2).
  destruct (cleared_classes (V.options (V.self s1)) (classList e1)) as [? ?].
  destruct (OrchestratorFacts.clearError_self fieldName s1) as [Hself2 _].
  rewrite <- Hself2.
  apply (reset_fold_cleared vs2 _ element e2);
    [by apply clearError_wf|done|..]; rewrite Hself2, E2; done.
Qed.

Lemma reset_marks_valid_witness :
  exists e',
    find_element
      (V.document (V.reset (Sample.with_required Sample.own_containers "a")))
      3 = Some e'
    /\ contains "valid" (classList e') = true.
Proof.
  destruct (reset_marks_valid
              (Sample.with_required Sample.own_containers "a") "a" 0 3
              (Sample.input "text" [("name", "a")] ""))
    as (_ & e' & He' & Hv & _).
  - reflexivity.
  - apply (bool_decide_unpack _). vm_compute. exact I.
  - reflexivity.
  - reflexivity.
  - reflexivity.
  - exists e'. split; [exact He'|exact Hv].
Defined.

End EffectFacts.

(* ===================================================================== *)
(** * The orchestrator: validate, validateField and reset                 *)
(* ===================================================================== *)

Module CompositionFacts.
Import Js Dom Exn JsMap JsMapFacts ListFacts Session OrchestratorFacts.

Lemma get_elem_NoDup {A} k (a : A) (m : JsMap.t A) :
  NoDup (keys m) -> (k, a) ∈ m -> get k m = Some a.
Proof.
  unfold keys. induction m as [|[k' a'] m IH]; simpl.
  - by intros _ ?%elem_of_nil.
  - intros [Hk' Hnd]%NoDup_cons [[= -> ->]|Hin]%elem_of_cons.
    + by rewrite String.eqb_refl.
    + destruct (String.eqb k k') eqn:E; [|by apply IH].
      apply String.eqb_eq in E as ->. exfalso. apply Hk'.
      apply elem_of_map. by exists (k', a).
Qed.

Lemma validate_step_by_field s r k l :
  get k (V.validators (V.self s)) = Some l ->
  l < length (V.heap s) ->
  V.validate_step (s, r) (k, l)
  = match V.validateField k s with
    | (s', Return error) =>
        (s', {| V.isValid := if truthy_opt error then false else V.isValid r;
                V.errors := obj_set k error (V.errors r) |})
    | (s', Throw _) => (s', r)
    end.
Proof.
  intros Hget Hl. unfold V.validate_step, V.validateField. rewrite Hget.
  destruct (V.run_engine l s) as [[s1 error]|] eqn:E; [done|].
  unfold V.run_engine in E.
  destruct (lookup_lt_is_Some_2 (V.heap s) l Hl) as [v Hv].
  rewrite Hv in E. by destruct (Validator.validate _ _).
Qed.

Lemma validate_fold_by_field vs s r :
  (forall k l, (k, l) ∈ vs ->
     get k (V.validators (V.self s)) = Some l /\ l < length (V.heap s)) ->
  fold_left V.validate_step vs (s, r)
  = fold_left
      (fun acc fieldName =>
         match V.validateField fieldName (fst acc) with
         | (s', Return error) =>
             (s', {| V.isValid :=
                       if truthy_opt error then false else V.isValid (snd acc);
                     V.errors := obj_set fieldName error (V.errors (snd acc)) |})
         | (s', Throw _) => (s', snd acc)
         end)
      (keys vs) (s, r).
Proof.
  revert s r. induction vs as [|[k l] vs IH]; intros s r Hvs; [done|].
  destruct (Hvs k l) as [Hget Hl]; [left|].
  pose proof (validate_step_frame (s, r) (k, l)) as (Hself & Hlen & _).
  unfold keys. cbn [fold_left List.map fst snd].
  rewrite <- (validate_step_by_field s r k l Hget Hl).
  destruct (V.validate_step (s, r) (k, l)) as [s1 r1] eqn:E.
  cbn [fst snd] in Hself, Hlen.
  apply IH. intros k' l' Hin. rewrite Hself, Hlen. apply Hvs. by right.
Qed.

(** [validate] is [validateField] on each field that has an engine, in
    the order in which the engines were created: the state it leaves is
    the one these calls leave, [isValid] is false as soon as one of
    them returned a message, and [errors] is what the assignments
    [errors[fieldName] = error] of what each call returned leave, one
    after the other (for the name [__proto__] that is nothing). *)
Theorem validate_is_validateField_each d form o cs :
  V.validate (run cs (V.new d form o))
  = fold_left
      (fun acc fieldName =>
         match V.validateField fieldName (fst acc) with
         | (s', Return error) =>
             (s', {| V.isValid :=
                       if truthy_opt error then false else V.isValid (snd acc);
                     V.errors := obj_set fieldName error (V.errors (snd acc)) |})
         | (s', Throw _) => (s', snd acc)
         end)
      (keys (V.validators (V.self (run cs (V.new d form o)))))
      (run cs (V.new d form o), {| V.isValid := true; V.errors := ∅ |}).
Proof.
  pose proof (inv_run cs _ (inv_new d form o)) as Hinv.
  pose proof (inv_engines_ok _ Hinv) as Hok. destruct Hinv as [Hnd _].
  unfold V.validate. apply validate_fold_by_field.
  intros k l Hin. pose proof (get_elem_NoDup k l _ Hnd Hin) as Hget.
  split; [done|]. by apply (Hok k l).
Qed.


(** ** The entries of [errors] *)

Lemma validate_step_entry s r k l :
  l < length (V.heap s) ->
  exists s1 error,
    V.run_engine l s = Some (s1, error)
    /\ V.self s1 = V.self s /\ V.document s1 = V.document s
    /\ V.validate_step (s, r) (k, l)
       = (V.present k error s1,
          {| V.isValid := if truthy_opt error then false else V.isValid r;
             V.errors := obj_set k error (V.errors r) |}).
Proof.
  intros Hl. unfold V.validate_step.
  destruct (V.run_engine l s) as [[s1 error]|] eqn:E.
  - exists s1, error.
    destruct (run_engine_Some _ _ _ _ E) as (? & _ & _ & ? & ? & _). done.
  - unfold V.run_engine in E.
    destruct (lookup_lt_is_Some_2 (V.heap s) l Hl) as [v Hv].
    rewrite Hv in E. by destruct (Validator.validate _ _).
Qed.

Lemma obj_set_None {A} k0 (x : A) (o : gmap string A) k :
  obj_set k0 x o !! k = None
  <-> o !! k = None /\ (k = k0 -> k = "__proto__").
Proof.
  unfold obj_set. destruct (String.eqb k0 "__proto__") eqn:E.
  - apply String.eqb_eq in E as ->. split; [|by intros [? _]].
    intros H. split; [done|]. tauto.
  - apply String.eqb_neq in E. rewrite lookup_insert_None. split.
    + intros [? ?]. split; [done|]. congruence.
    + intros [? H]. split; [done|]. intros ->. by apply E, H.
Qed.

Lemma validate_fold_errors vs s r k :
  (forall k' l, (k', l) ∈ vs -> l < length (V.heap s)) ->
  V.errors (snd (fold_left V.validate_step vs (s, r))) !! k = None
  <-> V.errors r !! k = None /\ (k ∈ keys vs -> k = "__proto__").
Proof.
  revert s r. induction vs as [|[k0 l0] vs IH]; intros s r Hvs.
  - simpl. split; [|by intros [? _]]. intros H. split; [done|].
    by intros ?%elem_of_nil.
  - cbn [fold_left].
    destruct (validate_step_entry s r k0 l0) as (s1 & error & _ & _ & _ & E).
    { apply (Hvs k0). left. }
    pose proof (validate_step_frame (s, r) (k0, l0)) as (_ & Hlen & _).
    rewrite E in Hlen |- *. cbn [fst] in Hlen.
    rewrite IH.
    + cbn [V.errors]. rewrite obj_set_None.
      unfold keys. cbn [List.map fst]. split.
      * intros [[? H0] H1]. split; [done|].
        intros [->|?]%elem_of_cons; [by apply H0|by apply H1].
      * intros [? H]. split; [split; [done|]|].
        -- intros ->. apply H. left.
        -- intros ?. apply H. by right.
    + intros k' l Hin. rewrite Hlen. apply (Hvs k'). by right.
Qed.

(** [errors] has an entry for a name exactly when the name has an
    engine and is not [__proto__]: the fields that [field] was never
    called on are not in it, and neither is a field of that name, whose
    assignment makes no property. *)
Theorem errors_domain d form o cs fieldName :
  V.errors (snd (V.validate (run cs (V.new d form o)))) !! fieldName = None
  <-> get fieldName (V.validators (V.self (run cs (V.new d form o)))) = None
      \/ fieldName = "__proto__".
Proof.
  pose proof (inv_run cs _ (inv_new d form o)) as Hinv.
  pose proof (inv_engines_ok _ Hinv) as Hok.
  unfold V.validate. rewrite validate_fold_errors.
  - rewrite get_keys. cbn [V.errors]. rewrite lookup_empty.
    destruct (decide (fieldName
                      ∈ keys (V.validators (V.self (run cs (V.new d form o))))));
      tauto.
  - intros k l Hin. apply (Hok k l).
    apply get_elem_NoDup; [apply Hinv|done].
Qed.

(** Apart from a field named [__proto__], the result of [validate]
    is consistent.  In a session where no field of that name has an
    engine, [isValid] is true exactly when every entry of [errors] is
    [null]; and when [field] was never called, [validate()] returns
    [isValid = true] with no entry in [errors] and leaves the state,
    the document included, as it was. *)
Theorem isValid_iff_no_error d form o cs :
  get "__proto__" (V.validators (V.self (run cs (V.new d form o)))) = None ->
  (V.isValid (snd (V.validate (run cs (V.new d form o)))) = true
   <-> forall k e,
         V.errors (snd (V.validate (run cs (V.new d form o)))) !! k = Some e ->
         e = None)
  /\ ((forall fieldName, touches fieldName cs = false) ->
      V.validate (run cs (V.new d form o))
      = (run cs (V.new d form o), {| V.isValid := true; V.errors := ∅ |})).
Proof.
  intros Hproto. split.
  - apply validate_isValid_inv; [apply inv_run, inv_new|done].
  - intros H. unfold V.validate. by rewrite untouched_no_engines.
Qed.

Lemma isValid_iff_no_error_witness :
  (V.isValid (snd (V.validate (Sample.with_required Sample.one_field "a")))
   = true
   <-> forall k e,
         V.errors (snd (V.validate (Sample.with_required Sample.one_field "a")))
         !! k = Some e ->
         e = None)
  /\ ((forall fieldName,
         touches fieldName
           [Field "a";
            Attach 0
              (Sample.rule Validator.Required
                 "Поле обязательно для заполнения")] = false) ->
      V.validate (Sample.with_required Sample.one_field "a")
      = (Sample.with_required Sample.one_field "a",
         {| V.isValid := true; V.errors := ∅ |})).
Proof.
  apply (isValid_iff_no_error Sample.one_field 1 None
           [Field "a";
            Attach 0
              (Sample.rule Validator.Required
                 "Поле обязательно для заполнения")]).
  reflexivity.
Defined.

(** ** [validate] on a valid form, and [reset] *)

Lemma clearError_ext fieldName s1 s2 :
  V.self s1 = V.self s2 -> V.document s1 = V.document s2 ->
  V.self (V.clearError fieldName s1) = V.self (V.clearError fieldName s2)
  /\ V.document (V.clearError fieldName s1)
     = V.document (V.clearError fieldName s2).
Proof.
  intros Hs Hd. unfold V.clearError. rewrite Hs, Hd.
  destruct (FormConnector.field _ _); [|done].
  by destruct (FormConnector.getErrorContainer _ _ _).
Qed.

Lemma isValid_stays_false vs s r :
  V.isValid r = false ->
  V.isValid (snd (fold_left V.validate_step vs (s, r))) = false.
Proof.
  revert s r. induction vs as [|[k l] vs IH]; intros s r Hr; [done|].
  cbn [fold_left]. unfold V.validate_step at 2.
  destruct (V.run_engine l s) as [[s1 error]|]; [|by apply IH].
  apply IH. simpl. by destruct (truthy_opt error).
Qed.

Lemma validate_fold_valid vs s r s2 :
  V.self s = V.self s2 -> V.document s = V.document s2 ->
  (forall k l, (k, l) ∈ vs -> l < length (V.heap s)) ->
  V.isValid (snd (fold_left V.validate_step vs (s, r))) = true ->
  V.document (fst (fold_left V.validate_step vs (s, r)))
  = V.document
      (fold_left (fun s' entry => V.clearError (fst entry) s') vs s2).
Proof.
  revert s r s2. induction vs as [|[k l] vs IH]; intros s r s2 Hs Hd Hvs;
    [done|].
  cbn [fold_left fst].
  destruct (validate_step_entry s r k l) as (s1 & error & _ & Hs1 & Hd1 & E).
  { apply (Hvs k). left. }
  pose proof (validate_step_frame (s, r) (k, l)) as (_ & Hlen & _).
  rewrite E in Hlen |- *. cbn [fst] in Hlen.
  destruct (truthy_opt error) eqn:Ht.
  { intros H. by rewrite isValid_stays_false in H. }
  assert (V.present k error s1 = V.clearError k s1) as Hp.
  { unfold V.present. destruct error as [m|]; [|done].
    simpl in Ht. by rewrite Ht. }
  rewrite Hp in Hlen |- *.
  destruct (clearError_ext k s1 s2) as [Hs' Hd']; [congruence..|].
  apply IH; [done..|].
  intros k' l' Hin. rewrite Hlen. apply (Hvs k'). by right.
Qed.

(** When [validate] finds the form valid it leaves the document as
    [reset] would have: every field is presented as cleared. *)
Theorem valid_form_is_reset d form o cs :
  V.isValid (snd (V.validate (run cs (V.new d form o)))) = true ->
  V.document (fst (V.validate (run cs (V.new d form o))))
  = V.document (V.reset (run cs (V.new d form o))).
Proof.
  pose proof (inv_run cs _ (inv_new d form o)) as Hinv.
  pose proof (inv_engines_ok _ Hinv) as Hok.
  unfold V.validate, V.reset. apply validate_fold_valid; [done..|].
  intros k l Hin. apply (Hok k l).
  apply get_elem_NoDup; [apply Hinv|done].
Qed.

Lemma valid_form_is_reset_witness :
  V.document
    (fst (V.validate
            (run [Field "b"; Attach 0 (Sample.rule Validator.Required "r")]
               (V.new Sample.own_containers 1 None))))
  = V.document
      (V.reset
         (run [Field "b"; Attach 0 (Sample.rule Validator.Required "r")]
            (V.new Sample.own_containers 1 None))).
Proof.
  apply (valid_form_is_reset Sample.own_containers 1 None
           [Field "b"; Attach 0 (Sample.rule Validator.Required "r")]).
  reflexivity.
Defined.

End CompositionFacts.


(* ===================================================================== *)
(** * The pattern builders: what each literal accepts                     *)
(* ===================================================================== *)

Module PatternFacts.
Import Js Dom Exn Re ReFacts Validator.

(** ** The derived forms *)

Lemma whole_lang r s : whole r s = true <-> lang r (list_ascii_of_string s).
Proof. apply accepts_lang. Qed.

Lemma lang_Opt_iff r s : lang (Opt r) s <-> lang r s \/ s = [].
Proof. unfold Opt. by rewrite lang_Alt_iff, lang_Eps_iff. Qed.

Lemma lang_Chr_iff c s : lang (Chr c) s <-> s = [c].
Proof.
  unfold Chr. rewrite lang_Cls_iff. split.
  - by intros (c' & -> & ->%Ascii.eqb_eq).
  - intros ->. exists c. by rewrite Ascii.eqb_refl.
Qed.

Lemma lang_Rep_Cls n p s :
  lang (Rep n (Cls p)) s <-> length s = n /\ forallb p s = true.
Proof.
  revert s. induction n as [|n IH]; intros s; simpl.
  - rewrite lang_Eps_iff. split; [by intros ->|]. intros [H _].
    by destruct s.
  - rewrite lang_Cat_iff. split.
    + intros (s1 & s2 & -> & (c & -> & Hc)%lang_Cls_iff & [<- H2]%IH).
      simpl. by rewrite Hc, H2.
    + intros [Hlen Hall]. destruct s as [|c s]; [done|].
      simpl in Hlen, Hall. apply andb_true_iff in Hall as [Hc Hall].
      exists [c], s. split; [done|]. split; [by apply lang_Cls_iff; exists c|].
      apply IH. split; [lia|done].
Qed.

Lemma lang_UpTo_Cls n p s :
  lang (UpTo n (Cls p)) s <-> length s <= n /\ forallb p s = true.
Proof.
  revert s. induction n as [|n IH]; intros s; simpl.
  - rewrite lang_Eps_iff. split; [by intros ->|]. intros [H _].
    destruct s; [done|simpl in H; lia].
  - rewrite lang_Opt_iff, lang_Cat_iff. split.
    + intros [(s1 & s2 & -> & (c & -> & Hc)%lang_Cls_iff & [Hlen H2]%IH)| ->].
      * simpl. rewrite Hc, H2. split; [lia|done].
      * simpl. split; [lia|done].
    + intros [Hlen Hall]. destruct s as [|c s]; [by right|]. left.
      simpl in Hlen, Hall. apply andb_true_iff in Hall as [Hc Hall].
      exists [c], s. split; [done|]. split; [by apply lang_Cls_iff; exists c|].
      apply IH. split; [lia|done].
Qed.

Lemma lang_RepRange_Cls n m p s :
  n <= m ->
  lang (RepRange n m (Cls p)) s
  <-> n <= length s <= m /\ forallb p s = true.
Proof.
  intros Hnm. unfold RepRange. rewrite lang_Cat_iff. split.
  - intros (s1 & s2 & -> & [<- H1]%lang_Rep_Cls & [Hlen H2]%lang_UpTo_Cls).
    rewrite length_app, forallb_app, H1, H2. split; [lia|done].
  - intros [Hlen Hall]. exists (take n s), (drop n s).
    rewrite <- (take_drop n s) in Hall. rewrite forallb_app in Hall.
    apply andb_true_iff in Hall as [H1 H2].
    split; [by rewrite take_drop|]. split.
    + apply lang_Rep_Cls. split; [|done]. rewrite length_take. lia.
    + apply lang_UpTo_Cls. split; [|done]. rewrite length_drop. lia.
Qed.

Lemma lang_Star_Cls p s : lang (Star (Cls p)) s <-> forallb p s = true.
Proof.
  split.
  - intros H. remember (Star (Cls p)) as r eqn:Er.
    induction H as [| | | | | |r0 s1 s2 H1 _ _ IH2]; try done.
    injection Er as ->. apply lang_Cls_iff in H1 as (c & -> & Hc).
    simpl. rewrite Hc. by apply IH2.
  - induction s as [|c s IH]; simpl; [constructor|].
    intros [Hc Hs]%andb_true_iff.
    apply (lang_Star_cons (Cls p) [c] s); [by constructor|by apply IH].
Qed.


(** ** Characters as numbers *)

Lemma between_iff a b c :
  between a b c = true
  <-> nat_of_ascii a <= nat_of_ascii c <= nat_of_ascii b.
Proof. unfold between. rewrite andb_true_iff, !Nat.leb_le. done. Qed.

Lemma is_digit_iff c : is_digit c = true <-> 48 <= nat_of_ascii c <= 57.
Proof. unfold is_digit. rewrite andb_true_iff, !Nat.leb_le. done. Qed.

Lemma nat_of_ascii_inj a b : nat_of_ascii a = nat_of_ascii b -> a = b.
Proof.
  intros H. rewrite <- (ascii_nat_embedding a), <- (ascii_nat_embedding b).
  by rewrite H.
Qed.

Lemma eqb_nat a c :
  Ascii.eqb a c = true <-> nat_of_ascii c = nat_of_ascii a.
Proof.
  rewrite Ascii.eqb_eq. split; [by intros ->|].
  intros H. symmetry. by apply nat_of_ascii_inj.
Qed.

Lemma one_of_cons a l c :
  one_of (a :: l) c = true
  <-> nat_of_ascii c = nat_of_ascii a \/ one_of l c = true.
Proof.
  unfold one_of. simpl. rewrite orb_true_iff, Ascii.eqb_eq.
  split; (intros [H|H]; [left|by right]).
  - by rewrite H.
  - by apply nat_of_ascii_inj.
Qed.

Lemma one_of_nil c : one_of [] c = true <-> False.
Proof. done. Qed.

Lemma digits_cons c l :
  digits (c :: l) = true <-> is_digit c = true /\ digits l = true.
Proof. unfold digits. simpl. by rewrite andb_true_iff. Qed.

Lemma number_of_app l c :
  number_of (l ++ [c]) = 10 * number_of l + digit_value c.
Proof. unfold number_of. by rewrite fold_left_app. Qed.

(** Turns what is known of the characters into arithmetic. *)
Ltac chars :=
  repeat match goal with
         | H : _ /\ _ |- _ => destruct H
         | H : _ \/ _ |- _ => destruct H
         | H : is_digit _ = true |- _ => apply is_digit_iff in H
         | H : between _ _ _ = true |- _ => apply between_iff in H
         | H : one_of (_ :: _) _ = true |- _ => apply one_of_cons in H
         | H : one_of [] _ = true |- _ => by apply one_of_nil in H
         | H : Ascii.eqb _ _ = true |- _ => apply eqb_nat in H
         | H : digits (_ :: _) = true |- _ => apply digits_cons in H
         | H : digits [] = true |- _ => clear H
         end;
  unfold number_of, digit_value in *; cbn [fold_left nat_of_ascii] in *.


Lemma length_chars s : length (list_ascii_of_string s) = String.length s.
Proof. induction s as [|c s IH]; simpl; [done|]. by rewrite IH. Qed.

(** ** Postal codes and tax numbers *)

Lemma lang_Lit_iff w l : lang (Lit w) l <-> l = w.
Proof.
  revert l. induction w as [|a w IH]; intros l; simpl.
  - apply lang_Eps_iff.
  - rewrite lang_Cat_iff. split.
    + intros (s1 & s2 & -> & ->%lang_Chr_iff & ->%IH). done.
    + intros ->. exists [a], w. split; [done|].
      split; [by apply lang_Chr_iff|by apply IH].
Qed.

Lemma lang_OneOf_iff ws l : lang (OneOf ws) l <-> In l ws.
Proof.
  induction ws as [|w ws IH]; simpl.
  - split; [by intros ?%lang_Void|done].
  - rewrite lang_Alt_iff, lang_Lit_iff, IH. split; intros [?|?]; auto.
Qed.

(** [zipCode] accepts exactly: for [ru], six digits; for [eu], four or
    five digits; for [us], five digits that may be followed by a hyphen
    and four more.  [inn] accepts exactly the strings of ten or of
    twelve digits, and [snils] the strings [ddd-ddd-ddd dd], the blank
    being any one white-space character, those outside ASCII included.
    No check digit is verified. *)
Theorem postal_and_tax_codes s :
  (whole (zipCode_re ZipRu) s = true
   <-> String.length s = 6 /\ digits (list_ascii_of_string s) = true)
  /\ (whole (zipCode_re ZipEu) s = true
      <-> 4 <= String.length s <= 5
          /\ digits (list_ascii_of_string s) = true)
  /\ (whole (zipCode_re ZipUs) s = true
      <-> exists a b,
            list_ascii_of_string s = a ++ b
            /\ length a = 5 /\ digits a = true
            /\ (b = []
                \/ exists b', b = "-"%char :: b'
                              /\ length b' = 4 /\ digits b' = true))
  /\ (whole inn_re s = true
      <-> (String.length s = 10 \/ String.length s = 12)
          /\ digits (list_ascii_of_string s) = true)
  /\ (whole snils_re s = true
      <-> exists a b c w e,
            list_ascii_of_string s
            = a ++ "-"%char :: b ++ "-"%char :: c ++ w ++ e
            /\ length a = 3 /\ length b = 3 /\ length c = 3 /\ length e = 2
            /\ digits (a ++ b ++ c ++ e) = true
            /\ In w white_space).
Proof.
  rewrite !whole_lang, <- length_chars.
  generalize (list_ascii_of_string s) as l. intros l.
  split; [|split; [|split; [|split]]].
  - apply lang_Rep_Cls.
  - apply lang_RepRange_Cls. lia.
  - cbn [zipCode_re]. rewrite lang_Cat_iff. split.
    + intros (a & b & -> & [? ?]%lang_Rep_Cls & Hb%lang_Opt_iff).
      exists a, b. split; [done|]. split; [done|]. split; [done|].
      destruct Hb as [(x & b' & -> & ->%lang_Chr_iff & [? ?]%lang_Rep_Cls)%lang_Cat_iff|];
        [right|by left].
      by exists b'.
    + intros (a & b & -> & Hlen & Ha & Hb). exists a, b.
      split; [done|]. split; [by apply lang_Rep_Cls|].
      apply lang_Opt_iff. destruct Hb as [->|(b' & -> & ? & ?)]; [by right|].
      left. apply lang_Cat_iff. exists ["-"%char], b'.
      split; [done|]. split; [by apply lang_Chr_iff|by apply lang_Rep_Cls].
  - unfold inn_re, digit. rewrite lang_Alt_iff, !lang_Rep_Cls.
    unfold digits. tauto.
  - unfold snils_re. split.
    + intros (a & t1 & -> & [? Ha]%lang_Rep_Cls
              & (x1 & t2 & -> & ->%lang_Chr_iff
                 & (b & t3 & -> & [? Hb]%lang_Rep_Cls
                    & (x2 & t4 & -> & ->%lang_Chr_iff
                       & (c & t5 & -> & [? Hc]%lang_Rep_Cls
                          & (w & e & -> & Hw%lang_OneOf_iff
                             & [? He]%lang_Rep_Cls)%lang_Cat_iff)
                         %lang_Cat_iff)%lang_Cat_iff)%lang_Cat_iff)
                %lang_Cat_iff)%lang_Cat_iff.
      exists a, b, c, w, e. unfold digits.
      rewrite !forallb_app, Ha, Hb, Hc, He. done.
    + intros (a & b & c & w & e & -> & ? & ? & ? & ? & Hd & Hw).
      unfold digits in Hd. rewrite !forallb_app in Hd.
      apply andb_true_iff in Hd as [Ha Hd].
      apply andb_true_iff in Hd as [Hb Hd].
      apply andb_true_iff in Hd as [Hc He].
      apply lang_Cat_iff. exists a, ("-"%char :: b ++ "-"%char :: c ++ w ++ e).
      split; [done|]. split; [by apply lang_Rep_Cls|].
      apply lang_Cat_iff. exists ["-"%char], (b ++ "-"%char :: c ++ w ++ e).
      split; [done|]. split; [by apply lang_Chr_iff|].
      apply lang_Cat_iff. exists b, ("-"%char :: c ++ w ++ e).
      split; [done|]. split; [by apply lang_Rep_Cls|].
      apply lang_Cat_iff. exists ["-"%char], (c ++ w ++ e).
      split; [done|]. split; [by apply lang_Chr_iff|].
      apply lang_Cat_iff. exists c, (w ++ e).
      split; [done|]. split; [by apply lang_Rep_Cls|].
      apply lang_Cat_iff. exists w, e.
      split; [done|]. split; [by apply lang_OneOf_iff|].
      by apply lang_Rep_Cls.
Qed.


(** ** Times and dates *)

Lemma lang_Cls_Cls p q l :
  lang (Cat (Cls p) (Cls q)) l
  <-> exists a b, l = [a; b] /\ p a = true /\ q b = true.
Proof.
  rewrite lang_Cat_iff. split.
  - intros (s1 & s2 & -> & (a & -> & ?)%lang_Cls_iff
            & (b & -> & ?)%lang_Cls_iff). by exists a, b.
  - intros (a & b & -> & ? & ?). exists [a], [b].
    split; [done|]. split; apply lang_Cls_iff; by eexists.
Qed.

Lemma lang_Opt_Cls_Cls p q l :
  lang (Cat (Opt (Cls p)) (Cls q)) l
  <-> (exists a, l = [a] /\ q a = true)
      \/ (exists a b, l = [a; b] /\ p a = true /\ q b = true).
Proof.
  rewrite lang_Cat_iff. split.
  - intros (s1 & s2 & -> & [(a & -> & ?)%lang_Cls_iff| ->]%lang_Opt_iff
            & (b & -> & ?)%lang_Cls_iff).
    + right. by exists a, b.
    + left. by exists b.
  - intros [(a & -> & ?)|(a & b & -> & ? & ?)].
    + exists [], [a]. split; [done|]. split.
      * apply lang_Opt_iff. by right.
      * apply lang_Cls_iff. by eexists.
    + exists [a], [b]. split; [done|]. split.
      * apply lang_Opt_iff. left. apply lang_Cls_iff. by eexists.
      * apply lang_Cls_iff. by eexists.
Qed.

Ltac codes :=
  change (nat_of_ascii "0") with 48 in *;
  change (nat_of_ascii "1") with 49 in *;
  change (nat_of_ascii "2") with 50 in *;
  change (nat_of_ascii "3") with 51 in *;
  change (nat_of_ascii "4") with 52 in *;
  change (nat_of_ascii "5") with 53 in *;
  change (nat_of_ascii "6") with 54 in *;
  change (nat_of_ascii "7") with 55 in *;
  change (nat_of_ascii "8") with 56 in *;
  change (nat_of_ascii "9") with 57 in *.

Lemma two_digits_iff lo hi l :
  two_digits lo hi l
  <-> exists a b,
        l = [a; b] /\ is_digit a = true /\ is_digit b = true
        /\ lo <= 10 * digit_value a + digit_value b <= hi.
Proof.
  unfold two_digits. split.
  - intros (Hlen & Hd & Hn). destruct l as [|a [|b [|]]]; try done.
    exists a, b. apply digits_cons in Hd as [? [? _]%digits_cons].
    unfold number_of in Hn. simpl in Hn. done.
  - intros (a & b & -> & Ha & Hb & Hn). split; [done|]. split.
    + unfold digits. simpl. by rewrite Ha, Hb.
    + unfold number_of. simpl. lia.
Qed.

Lemma minute_lang l :
  lang (Cat (Cls (between "0" "5")) digit) l <-> two_digits 0 59 l.
Proof.
  unfold digit. rewrite lang_Cls_Cls, two_digits_iff. split.
  - intros (a & b & -> & Ha & Hb). exists a, b. split; [done|].
    chars. codes. split; [apply is_digit_iff; lia|].
    split; [apply is_digit_iff; lia|lia].
  - intros (a & b & -> & Ha & Hb & Hn). exists a, b. split; [done|].
    chars. codes. split; [apply between_iff; codes; lia|].
    apply is_digit_iff; lia.
Qed.


Ltac two_chars :=
  match goal with
  | |- exists a b, [?x; ?y] = [a; b] /\ _ => exists x, y; split; [done|]
  end.

Lemma hour_lang l :
  lang (Alt (Cat (Opt (Cls (one_of ["0"; "1"]%char))) digit)
          (Cat (Chr "2") (Cls (between "0" "3")))) l
  <-> (exists a, l = [a] /\ is_digit a = true) \/ two_digits 0 23 l.
Proof.
  unfold digit, Chr.
  rewrite lang_Alt_iff, lang_Opt_Cls_Cls, lang_Cls_Cls, two_digits_iff.
  split.
  - intros [[?|(a & b & -> & Ha & Hb)]|(a & b & -> & Ha & Hb)]; [by left|..];
      right; two_chars; chars; codes;
      (split; [apply is_digit_iff; lia|]);
      (split; [apply is_digit_iff; lia|lia]).
  - intros [?|(a & b & -> & Ha & Hb & Hn)]; [by left; left|].
    chars. codes.
    destruct (decide (nat_of_ascii a = 50)) as [E|E].
    + right. two_chars. split; [apply eqb_nat; by codes|].
      apply between_iff. codes. lia.
    + left. right. two_chars. split; [|apply is_digit_iff; lia].
      apply one_of_cons. codes.
      destruct (decide (nat_of_ascii a = 48)); [by left|right].
      apply one_of_cons. codes. left. lia.
Qed.

Lemma day_lang l : lang day_re l <-> two_digits 1 31 l.
Proof.
  unfold day_re, digit, Chr.
  rewrite !lang_Alt_iff, !lang_Cls_Cls, two_digits_iff. split.
  - intros [(a & b & -> & Ha & Hb)|[(a & b & -> & Ha & Hb)
                                    |(a & b & -> & Ha & Hb)]];
      two_chars; chars; codes;
      (split; [apply is_digit_iff; lia|]);
      (split; [apply is_digit_iff; lia|lia]).
  - intros (a & b & -> & Ha & Hb & Hn). chars. codes.
    destruct (decide (nat_of_ascii a = 48)) as [E0|E0];
      [|destruct (decide (nat_of_ascii a = 51)) as [E3|E3]].
    + left. two_chars. split; [apply eqb_nat; by codes|].
      apply between_iff. codes. lia.
    + right. right. two_chars. split; [apply eqb_nat; by codes|].
      apply one_of_cons. codes.
      destruct (decide (nat_of_ascii b = 48)); [by left|right].
      apply one_of_cons. codes. left. lia.
    + right. left. two_chars. split; [|apply is_digit_iff; lia].
      apply one_of_cons. codes.
      destruct (decide (nat_of_ascii a = 49)); [by left|right].
      apply one_of_cons. codes. left. lia.
Qed.

Lemma month_lang l : lang month_re l <-> two_digits 1 12 l.
Proof.
  unfold month_re, digit, Chr.
  rewrite !lang_Alt_iff, !lang_Cls_Cls, two_digits_iff. split.
  - intros [(a & b & -> & Ha & Hb)|(a & b & -> & Ha & Hb)];
      two_chars; chars; codes;
      (split; [apply is_digit_iff; lia|]);
      (split; [apply is_digit_iff; lia|lia]).
  - intros (a & b & -> & Ha & Hb & Hn). chars. codes.
    destruct (decide (nat_of_ascii a = 48)) as [E0|E0].
    + left. two_chars. split; [apply eqb_nat; by codes|].
      apply between_iff. codes. lia.
    + right. two_chars. split; [apply eqb_nat; codes; lia|].
      apply between_iff. codes. lia.
Qed.

(** [time] accepts exactly [h:mm] and [hh:mm] with an hour below 24,
    written with one or two digits, and a minute below 60, written
    with two. *)
Theorem time_shape s :
  whole time_re s = true
  <-> exists h m,
        list_ascii_of_string s = h ++ ":"%char :: m
        /\ ((exists a, h = [a] /\ is_digit a = true) \/ two_digits 0 23 h)
        /\ two_digits 0 59 m.
Proof.
  rewrite whole_lang. generalize (list_ascii_of_string s) as l. intros l.
  unfold time_re. rewrite lang_Cat_iff. split.
  - intros (h & t & -> & Hh%hour_lang
            & (x & m & -> & ->%lang_Chr_iff & Hm%minute_lang)%lang_Cat_iff).
    by exists h, m.
  - intros (h & m & -> & Hh & Hm). exists h, (":"%char :: m).
    split; [done|]. split; [by apply hour_lang|].
    apply lang_Cat_iff. exists [":"%char], m.
    split; [done|]. split; [by apply lang_Chr_iff|by apply minute_lang].
Qed.

Lemma lang_sep r1 x r2 l :
  lang (Cat r1 (Cat (Chr x) r2)) l
  <-> exists a b, l = a ++ x :: b /\ lang r1 a /\ lang r2 b.
Proof.
  rewrite lang_Cat_iff. split.
  - intros (a & t & -> & Ha
            & (y & b & -> & ->%lang_Chr_iff & Hb)%lang_Cat_iff).
    by exists a, b.
  - intros (a & b & -> & Ha & Hb). exists a, (x :: b).
    split; [done|]. split; [done|]. apply lang_Cat_iff. exists [x], b.
    split; [done|]. split; [by apply lang_Chr_iff|done].
Qed.

(** [date] accepts exactly: for [ru], [dd.mm.yyyy]; for [us],
    [mm/dd/yyyy]; for [iso], [yyyy-mm-dd]; where [dd] is two digits from
    01 to 31, [mm] two digits from 01 to 12 and [yyyy] any four digits.
    The day is not checked against the month. *)
Theorem date_shape s :
  (whole (date_re DateRu) s = true
   <-> exists dd mm yyyy,
         list_ascii_of_string s = dd ++ "."%char :: mm ++ "."%char :: yyyy
         /\ two_digits 1 31 dd /\ two_digits 1 12 mm
         /\ length yyyy = 4 /\ digits yyyy = true)
  /\ (whole (date_re DateUs) s = true
      <-> exists dd mm yyyy,
            list_ascii_of_string s = mm ++ "/"%char :: dd ++ "/"%char :: yyyy
            /\ two_digits 1 31 dd /\ two_digits 1 12 mm
            /\ length yyyy = 4 /\ digits yyyy = true)
  /\ (whole (date_re DateIso) s = true
      <-> exists dd mm yyyy,
            list_ascii_of_string s = yyyy ++ "-"%char :: mm ++ "-"%char :: dd
            /\ two_digits 1 31 dd /\ two_digits 1 12 mm
            /\ length yyyy = 4 /\ digits yyyy = true).
Proof.
  rewrite !whole_lang. generalize (list_ascii_of_string s) as l. intros l.
  cbn [date_re]. unfold digit. split; [|split].
  - rewrite lang_sep. split.
    + intros (dd & t & -> & Hd%day_lang
              & (mm & yyyy & -> & Hm%month_lang & [? ?]%lang_Rep_Cls)%lang_sep).
      by exists dd, mm, yyyy.
    + intros (dd & mm & yyyy & -> & Hd & Hm & Hlen & Hy).
      exists dd, (mm ++ "."%char :: yyyy). split; [done|].
      split; [by apply day_lang|]. apply lang_sep. exists mm, yyyy.
      split; [done|]. split; [by apply month_lang|by apply lang_Rep_Cls].
  - rewrite lang_sep. split.
    + intros (mm & t & -> & Hm%month_lang
              & (dd & yyyy & -> & Hd%day_lang & [? ?]%lang_Rep_Cls)%lang_sep).
      by exists dd, mm, yyyy.
    + intros (dd & mm & yyyy & -> & Hd & Hm & Hlen & Hy).
      exists mm, (dd ++ "/"%char :: yyyy). split; [done|].
      split; [by apply month_lang|]. apply lang_sep. exists dd, yyyy.
      split; [done|]. split; [by apply day_lang|by apply lang_Rep_Cls].
  - rewrite lang_sep. split.
    + intros (yyyy & t & -> & [? ?]%lang_Rep_Cls
              & (mm & dd & -> & Hm%month_lang & Hd%day_lang)%lang_sep).
      by exists dd, mm, yyyy.
    + intros (dd & mm & yyyy & -> & Hd & Hm & Hlen & Hy).
      exists yyyy, (mm ++ "-"%char :: dd). split; [done|].
      split; [by apply lang_Rep_Cls|]. apply lang_sep. exists mm, dd.
      split; [done|]. split; [by apply month_lang|by apply day_lang].
Qed.


(** ** Shapes read from the front *)

Lemma lang_Cls_cons p r l :
  lang (Cat (Cls p) r) l
  <-> exists c t, l = c :: t /\ p c = true /\ lang r t.
Proof.
  rewrite lang_Cat_iff. split.
  - intros (s1 & t & -> & (c & -> & ?)%lang_Cls_iff & ?). by exists c, t.
  - intros (c & t & -> & ? & ?). exists [c], t. split; [done|].
    split; [|done]. apply lang_Cls_iff. by exists c.
Qed.

Lemma lang_Chr_cons x r l :
  lang (Cat (Chr x) r) l <-> exists t, l = x :: t /\ lang r t.
Proof.
  unfold Chr. rewrite lang_Cls_cons. split.
  - intros (c & t & -> & ->%Ascii.eqb_eq & ?). by exists t.
  - intros (t & -> & ?). exists x, t. by rewrite Ascii.eqb_refl.
Qed.

Lemma lang_Opt_cons r1 r2 l :
  lang (Cat (Opt r1) r2) l <-> lang r2 l \/ lang (Cat r1 r2) l.
Proof.
  rewrite !lang_Cat_iff. split.
  - intros (s1 & s2 & -> & [?| ->]%lang_Opt_iff & ?).
    + right. by exists s1, s2.
    + by left.
  - intros [?|(s1 & s2 & -> & ? & ?)].
    + exists [], l. split; [done|]. split; [|done].
      apply lang_Opt_iff. by right.
    + exists s1, s2. split; [done|]. split; [|done].
      apply lang_Opt_iff. by left.
Qed.

Lemma lang_Opt_Cls p l :
  lang (Opt (Cls p)) l <-> l = [] \/ exists c, l = [c] /\ p c = true.
Proof. rewrite lang_Opt_iff, lang_Cls_iff. tauto. Qed.

(** ** Card numbers *)

Lemma digits_app a b :
  digits (a ++ b) = true <-> digits a = true /\ digits b = true.
Proof. unfold digits. by rewrite forallb_app, andb_true_iff. Qed.

(** [creditCard] checks a prefix and a length, nothing else: Visa is a
    4 followed by 12 or 15 digits; MasterCard a 5, a digit from 1 to 5
    and 14 digits; American Express a 3, a 4 or a 7, and 13 digits; and
    [any] accepts what one of the three accepts. *)
Theorem creditCard_shape s :
  (whole (creditCard_re Visa) s = true
   <-> exists t,
         list_ascii_of_string s = "4"%char :: t
         /\ digits t = true /\ (length t = 12 \/ length t = 15))
  /\ (whole (creditCard_re Mastercard) s = true
      <-> exists x t,
            list_ascii_of_string s = "5"%char :: x :: t
            /\ between "1" "5" x = true
            /\ digits t = true /\ length t = 14)
  /\ (whole (creditCard_re Amex) s = true
      <-> exists x t,
            list_ascii_of_string s = "3"%char :: x :: t
            /\ (x = "4"%char \/ x = "7"%char)
            /\ digits t = true /\ length t = 13)
  /\ (whole (creditCard_re AnyCard) s = true
      <-> whole (creditCard_re Visa) s = true
          \/ whole (creditCard_re Mastercard) s = true
          \/ whole (creditCard_re Amex) s = true).
Proof.
  rewrite !whole_lang. generalize (list_ascii_of_string s) as l. intros l.
  cbn [creditCard_re]. unfold visa_re, mastercard_re, amex_re, digit.
  split; [|split; [|split]].
  - rewrite lang_Chr_cons. split.
    + intros (t & -> & (a & b & -> & [? ?]%lang_Rep_Cls & Hb)%lang_Cat_iff).
      exists (a ++ b). split; [done|]. rewrite digits_app, length_app.
      apply lang_Opt_iff in Hb as [[? ?]%lang_Rep_Cls| ->];
        unfold digits; simpl; split; try done; lia.
    + intros (t & -> & Hd & Hlen). exists t. split; [done|].
      apply lang_Cat_iff. exists (take 12 t), (drop 12 t).
      rewrite <- (take_drop 12 t) in Hd. apply digits_app in Hd as [H1 H2].
      split; [by rewrite take_drop|]. split.
      * apply lang_Rep_Cls. split; [|done]. rewrite length_take. lia.
      * apply lang_Opt_iff. destruct Hlen as [Hlen|Hlen].
        -- right. apply nil_length_inv. rewrite length_drop. lia.
        -- left. apply lang_Rep_Cls. split; [|done]. rewrite length_drop. lia.
  - rewrite lang_Chr_cons. split.
    + intros (t & -> & (x & t' & -> & ? & [? ?]%lang_Rep_Cls)%lang_Cls_cons).
      by exists x, t'.
    + intros (x & t & -> & ? & ? & ?). exists (x :: t). split; [done|].
      apply lang_Cls_cons. exists x, t. split; [done|]. split; [done|].
      by apply lang_Rep_Cls.
  - rewrite lang_Chr_cons. split.
    + intros (t & -> & (x & t' & -> & Hx & [? ?]%lang_Rep_Cls)%lang_Cls_cons).
      exists x, t'. split; [done|]. split; [|done].
      unfold one_of in Hx. simpl in Hx. rewrite orb_false_r in Hx.
      apply orb_true_iff in Hx as [->%Ascii.eqb_eq| ->%Ascii.eqb_eq];
        [by left|by right].
    + intros (x & t & -> & Hx & ? & ?). exists (x :: t). split; [done|].
      apply lang_Cls_cons. exists x, t. split; [done|]. split.
      * by destruct Hx as [->| ->].
      * by apply lang_Rep_Cls.
  - rewrite !lang_Alt_iff. tauto.
Qed.


(** ** IPv4 addresses *)

Lemma lang_Cls_end p l : lang (Cls p) l <-> exists c, l = [c] /\ p c = true.
Proof. apply lang_Cls_iff. Qed.

Ltac digit_goals :=
  repeat (apply digits_cons; split); try done;
  try (apply is_digit_iff; codes; lia).

Lemma octet_lang l : lang octet_re l <-> octet l.
Proof.
  unfold octet_re, digit, Chr, octet. split.
  - rewrite !lang_Alt_iff, lang_Opt_cons, !lang_Cls_cons.
    intros [(a & t & -> & Ha
             & (b & t' & -> & Hb & (c & -> & Hc)%lang_Cls_end)%lang_Cls_cons)
           |[(a & t & -> & Ha
              & (b & t' & -> & Hb & (c & -> & Hc)%lang_Cls_end)%lang_Cls_cons)
            |[(b & t & -> & Hb & Ht%lang_Opt_Cls)
             |(a & t & -> & Ha
               & (b & t' & -> & Hb & Ht%lang_Opt_Cls)%lang_Cls_cons)]]].
    + chars. codes. split; [simpl; lia|]. split; [digit_goals|lia].
    + chars. codes. split; [simpl; lia|]. split; [digit_goals|lia].
    + destruct Ht as [->|(c & -> & Hc)]; chars; codes;
        (split; [simpl; lia|]); (split; [digit_goals|lia]).
    + destruct Ht as [->|(c & -> & Hc)]; chars; codes;
        (split; [simpl; lia|]); (split; [digit_goals|lia]).
  - intros (Hlen & Hd & Hn). rewrite !lang_Alt_iff.
    destruct l as [|a [|b [|c [|]]]]; simpl in Hlen; try lia.
    + right. right. apply lang_Opt_cons. left. apply lang_Cls_cons.
      exists a, []. chars. split; [done|]. split; [by apply is_digit_iff|].
      apply lang_Opt_Cls. by left.
    + right. right. apply lang_Opt_cons. left. apply lang_Cls_cons.
      exists a, [b]. chars. split; [done|]. split; [by apply is_digit_iff|].
      apply lang_Opt_Cls. right. exists b. split; [done|].
      by apply is_digit_iff.
    + chars. codes.
      destruct (decide (nat_of_ascii a = 50)) as [E2|E2];
        [destruct (decide (nat_of_ascii b = 53)) as [E5|E5]|].
      * left. apply lang_Cls_cons. exists a, [b; c]. split; [done|].
        split; [apply eqb_nat; by codes|].
        apply lang_Cls_cons. exists b, [c]. split; [done|].
        split; [apply eqb_nat; by codes|].
        apply lang_Cls_end. exists c. split; [done|].
        apply between_iff. codes. lia.
      * right. left. apply lang_Cls_cons. exists a, [b; c]. split; [done|].
        split; [apply eqb_nat; by codes|].
        apply lang_Cls_cons. exists b, [c]. split; [done|].
        split; [apply between_iff; codes; lia|].
        apply lang_Cls_end. exists c. split; [done|].
        apply is_digit_iff. lia.
      * right. right. apply lang_Opt_cons. right.
        apply lang_Cls_cons. exists a, [b; c]. split; [done|]. split.
        { apply one_of_cons. codes.
          destruct (decide (nat_of_ascii a = 48)); [by left|right].
          apply one_of_cons. codes. left. lia. }
        apply lang_Cls_cons. exists b, [c]. split; [done|].
        split; [apply is_digit_iff; lia|].
        apply lang_Opt_Cls. right. exists c. split; [done|].
        apply is_digit_iff. lia.
Qed.

Lemma lang_then x r l :
  lang (Cat r (Chr x)) l <-> exists a, l = a ++ [x] /\ lang r a.
Proof.
  rewrite lang_Cat_iff. split.
  - intros (a & t & -> & ? & ->%lang_Chr_iff). by exists a.
  - intros (a & -> & ?). exists a, [x]. split; [done|].
    split; [done|]. by apply lang_Chr_iff.
Qed.

(** [ipAddress('v4')] accepts exactly four groups separated by dots,
    each of one to three digits whose value is at most 255; leading
    zeros are allowed. *)
Theorem ipv4_shape s :
  whole v4_re s = true
  <-> exists a b c d,
        list_ascii_of_string s
        = a ++ "."%char :: b ++ "."%char :: c ++ "."%char :: d
        /\ octet a /\ octet b /\ octet c /\ octet d.
Proof.
  rewrite whole_lang. generalize (list_ascii_of_string s) as l. intros l.
  unfold v4_re. cbn [Rep]. rewrite lang_Cat_iff. split.
  - intros (t & d & -> & Ht & Hd%octet_lang).
    apply lang_Cat_iff in Ht as (a' & t1 & -> & (a & -> & Ha%octet_lang)%lang_then & Ht).
    apply lang_Cat_iff in Ht as (b' & t2 & -> & (b & -> & Hb%octet_lang)%lang_then & Ht).
    apply lang_Cat_iff in Ht as (c' & t3 & -> & (c & -> & Hc%octet_lang)%lang_then
                                 & ->%lang_Eps_iff).
    exists a, b, c, d. split; [|done].
    rewrite app_nil_r, <- !app_assoc. done.
  - intros (a & b & c & d & -> & Ha & Hb & Hc & Hd).
    exists ((a ++ ["."%char]) ++ (b ++ ["."%char]) ++ (c ++ ["."%char]) ++ []), d.
    split; [by rewrite app_nil_r, <- !app_assoc|].
    split; [|by apply octet_lang].
    repeat (apply lang_Cat_iff; eexists _, _; split; [done|];
            split; [apply lang_then; eexists; split; [done|];
                    by apply octet_lang|]).
    by apply lang_Eps_iff.
Qed.


(** ** Telephone numbers *)

Lemma void_lang r l : is_void r = true -> ~ lang r l.
Proof.
  intros Hv Hl. induction Hl; simpl in Hv; try done.
  - apply orb_true_iff in Hv as [?|?]; auto.
  - apply andb_true_iff in Hv as [? ?]. auto.
  - apply andb_true_iff in Hv as [? ?]. auto.
Qed.

Lemma void_rejects r l : is_void r = true -> accepts r l = false.
Proof.
  intros Hv. destruct (accepts r l) eqn:E; [|done].
  apply accepts_lang in E. by apply void_lang in E.
Qed.

Lemma is_ws_cases w :
  is_ws w = true
  -> w = ascii_of_nat 32 \/ w = ascii_of_nat 9 \/ w = ascii_of_nat 10
     \/ w = ascii_of_nat 13 \/ w = ascii_of_nat 11 \/ w = ascii_of_nat 12.
Proof.
  unfold is_ws. rewrite !orb_true_iff, !Nat.eqb_eq.
  rewrite <- (ascii_nat_embedding w) at 7 8 9 10 11 12.
  intros [[[[[->| ->]| ->]| ->]| ->]| ->]; tauto.
Qed.

Lemma lang_Rep_then n p r a b :
  length a = n -> forallb p a = true -> lang r b
  -> lang (Cat (Rep n (Cls p)) r) (a ++ b).
Proof.
  intros Hlen Hall Hb. apply lang_Cat_iff. exists a, b.
  split; [done|]. split; [by apply lang_Rep_Cls|done].
Qed.

(** [phone('any')] accepts exactly an optional plus sign, a digit from
    1 to 9 and then 7 to 14 digits.  [phone('ru')] accepts a national
    number of ten digits that starts with 4, 8 or 9, written without
    separators after nothing, [+7], [7] or [8]; and it rejects every
    string that has a white-space character right after [+7], [7] or
    [8]. *)
Theorem phone_shape :
  (forall s,
     whole (phone_re PhoneAny) s = true
     <-> exists x t,
           (list_ascii_of_string s = x :: t
            \/ list_ascii_of_string s = "+"%char :: x :: t)
           /\ between "1" "9" x = true
           /\ digits t = true /\ 7 <= length t <= 14)
  /\ (forall prefix x t,
        prefix = "" \/ prefix = "+7" \/ prefix = "7" \/ prefix = "8" ->
        one_of ["4"; "8"; "9"]%char x = true ->
        digits (list_ascii_of_string t) = true -> String.length t = 9 ->
        whole (phone_re PhoneRu) (prefix ++ String x t) = true)
  /\ (forall prefix w t,
        prefix = "+7" \/ prefix = "7" \/ prefix = "8" ->
        is_ws w = true ->
        whole (phone_re PhoneRu) (prefix ++ String w t) = false).
Proof.
  split; [|split].
  - intros s. rewrite whole_lang.
    generalize (list_ascii_of_string s) as l. intros l.
    cbn [phone_re]. unfold digit. rewrite lang_Opt_cons, lang_Chr_cons.
    rewrite lang_Cls_cons. split.
    + intros [(x & t & -> & ? & [? ?]%lang_RepRange_Cls)
             |(t' & -> & (x & t & -> & ? & [? ?]%lang_RepRange_Cls)%lang_Cls_cons)];
        try lia; exists x, t; (split; [by (left + right)|done]).
    + intros (x & t & [->| ->] & ? & ? & ?).
      * left. exists x, t. split; [done|]. split; [done|].
        apply lang_RepRange_Cls; [lia|done].
      * right. exists (x :: t). split; [done|]. apply lang_Cls_cons.
        exists x, t. split; [done|]. split; [done|].
        apply lang_RepRange_Cls; [lia|done].
  - intros prefix x t Hp Hx Hd Hlen. apply whole_lang.
    rewrite EngineFacts.list_ascii_app. cbn [phone_re list_ascii_of_string].
    rewrite <- length_chars in Hlen.
    generalize dependent (list_ascii_of_string t). intros l Hd Hlen.
    apply lang_Cat_iff. exists (list_ascii_of_string prefix), (x :: l).
    split; [done|]. split.
    { apply lang_Opt_iff.
      destruct Hp as [->|[->|[->| ->]]]; [by right|left..];
        apply accepts_lang; reflexivity. }
    apply lang_Opt_cons. left. apply lang_Opt_cons. left.
    apply lang_Cls_cons. exists x, l. split; [done|]. split; [done|].
    rewrite <- (take_drop 2 l), <- (take_drop 3 (drop 2 l)),
      <- (take_drop 2 (drop 3 (drop 2 l))) in Hd |- *.
    apply digits_app in Hd as [H1 [H2 [H3 H4]%digits_app]%digits_app].
    apply lang_Rep_then; [rewrite length_take; lia|done|].
    apply lang_Opt_cons. left. apply lang_Opt_cons. left.
    apply lang_Rep_then; [rewrite length_take, length_drop; lia|done|].
    apply lang_Opt_cons. left.
    apply lang_Rep_then; [rewrite length_take, !length_drop; lia|done|].
    apply lang_Opt_cons. left.
    apply lang_Rep_Cls. split; [rewrite !length_drop; lia|done].
  - intros prefix w t Hp Hw. unfold whole. rewrite EngineFacts.list_ascii_app.
    cbn [list_ascii_of_string].
    apply is_ws_cases in Hw.
    destruct Hp as [->|[->| ->]];
      destruct Hw as [->|[->|[->|[->|[->| ->]]]]];
      cbn [list_ascii_of_string app accepts];
      apply void_rejects; vm_compute; reflexivity.
Qed.


(** ** Strong passwords *)

(** On a string value the rule of [passwordStrong(n)] passes exactly
    when the value has a [length] of at least [n] (in UTF-16 code
    units) and holds an upper-case letter [A-Z], a lower-case letter
    [a-z], a digit and one of the listed special characters; otherwise
    it reports its message, which is never empty: an empty [error]
    argument is replaced by the default text. *)
Theorem passwordStrong_rule d v minLength error s :
  value v = VString s ->
  pushes (passwordStrong_ minLength error) v (fun rule =>
    loud rule
    /\ (checkRule d v rule = None
        <-> minLength <= string_length s
            /\ (exists c, In c (list_ascii_of_string s)
                          /\ between "A" "Z" c = true)
            /\ (exists c, In c (list_ascii_of_string s)
                          /\ between "a" "z" c = true)
            /\ (exists c, In c (list_ascii_of_string s)
                          /\ is_digit c = true)
            /\ (exists c, In c (list_ascii_of_string s)
                          /\ special_char c = true))
    /\ (checkRule d v rule <> None
        -> checkRule d v rule = Some (Validator.error rule))).
Proof.
  intros Hv. eexists. split; [reflexivity|]. split; [|split].
  - unfold loud. cbn [Validator.error or_default or_falsy].
    destruct error as [[|]|]; done.
  - unfold checkRule. rewrite Hv. cbn [rtype]. unfold strong, somewhere.
    rewrite <- !existsb_exists.
    destruct (Nat.ltb_spec (string_length s) minLength) as [Hlt|Hge].
    + split; [done|]. intros [? _]. lia.
    + destruct (existsb (between "A" "Z") _), (existsb (between "a" "z") _),
        (existsb is_digit _), (existsb special_char _); simpl;
        split; try done; intros (_ & ? & ? & ? & ?); done.
  - unfold checkRule. rewrite Hv. cbn [rtype].
    by destruct (strong minLength s).
Qed.

Lemma passwordStrong_rule_witness :
  pushes (passwordStrong_ 8 None)
    (with_value (VString "Ab1!cdEF") (Sample.engine []))
    (fun rule =>
       loud rule
       /\ (checkRule Sample.one_field
             (with_value (VString "Ab1!cdEF") (Sample.engine [])) rule = None
           <-> 8 <= string_length "Ab1!cdEF"
               /\ (exists c, In c (list_ascii_of_string "Ab1!cdEF")
                             /\ between "A" "Z" c = true)
               /\ (exists c, In c (list_ascii_of_string "Ab1!cdEF")
                             /\ between "a" "z" c = true)
               /\ (exists c, In c (list_ascii_of_string "Ab1!cdEF")
                             /\ is_digit c = true)
               /\ (exists c, In c (list_ascii_of_string "Ab1!cdEF")
                             /\ special_char c = true))
       /\ (checkRule Sample.one_field
             (with_value (VString "Ab1!cdEF") (Sample.engine [])) rule <> None
           -> checkRule Sample.one_field
                (with_value (VString "Ab1!cdEF") (Sample.engine [])) rule
              = Some (Validator.error rule))).
Proof.
  apply (passwordStrong_rule Sample.one_field
           (with_value (VString "Ab1!cdEF") (Sample.engine []))
           8 None "Ab1!cdEF").
  reflexivity.
Defined.

(** ** The messages of the builders *)

(** [phone], [date], [zipCode], [creditCard] and [ipAddress] take their
    default text whenever the [error] argument is missing or empty, so
    their rule always has a message; [url], [time], [inn] and [snils]
    take the default only for a missing argument, so with the empty
    string as [error] they add a rule without a message. *)
Theorem builder_messages v error :
  (forall country, pushes (phone_ country error) v loud)
  /\ (forall format, pushes (date_ format error) v loud)
  /\ (forall country, pushes (zipCode_ country error) v loud)
  /\ (forall type, pushes (creditCard_ type error) v loud)
  /\ (forall version, pushes (ipAddress_ version error) v loud)
  /\ pushes (url_ error) v (fun rule => loud rule <-> error <> Some "")
  /\ pushes (time_ error) v (fun rule => loud rule <-> error <> Some "")
  /\ pushes (inn_ error) v (fun rule => loud rule <-> error <> Some "")
  /\ pushes (snils_ error) v (fun rule => loud rule <-> error <> Some "").
Proof.
  repeat split.
  - intros country. eexists. split; [reflexivity|]. unfold loud.
    cbn [Validator.error or_default or_falsy].
    destruct error as [[|]|], country; done.
  - intros format. eexists. split; [reflexivity|]. unfold loud.
    cbn [Validator.error or_default or_falsy].
    destruct error as [[|]|], format; done.
  - intros country. eexists. split; [reflexivity|]. unfold loud.
    cbn [Validator.error or_default or_falsy].
    destruct error as [[|]|], country; done.
  - intros type. eexists. split; [reflexivity|]. unfold loud.
    cbn [Validator.error or_default or_falsy].
    destruct error as [[|]|], type; done.
  - intros version. destruct version; (eexists; split; [reflexivity|]);
      unfold loud; cbn [Validator.error or_default or_falsy];
      destruct error as [[|]|]; done.
  - eexists. split; [reflexivity|]. unfold loud.
    cbn [Validator.error or_default]. destruct error as [[|]|]; done.
  - eexists. split; [reflexivity|]. unfold loud.
    cbn [Validator.error or_default]. destruct error as [[|]|]; done.
  - eexists. split; [reflexivity|]. unfold loud.
    cbn [Validator.error or_default]. destruct error as [[|]|]; done.
  - eexists. split; [reflexivity|]. unfold loud.
    cbn [Validator.error or_default]. destruct error as [[|]|]; done.
Qed.

End PatternFacts.
